(** * AMReX FFT: the R2C and R2X engines and the spectral Poisson solvers

    A shallow embedding of [Src/FFT/AMReX_FFT.cpp] (the helper functions and
    the [R2C] class template), of the [R2X] class template and of
    [Src/FFT/AMReX_FFT_Poisson.H].

    What is embedded is the control structure of the engines: the
    construction-time assertions, the layout of the working arrays, the
    choice of vendor plans, the order of the transform and redistribution
    calls, the index translation of the post-forward callback and the
    arithmetic of the Poisson symbol.  The numerical kernels of the vendor
    library and the data motion of [ParallelCopy] appear as events of a
    trace.  The callback of [Poisson::solve] is embedded over an abstract
    arithmetic of its value type [T], of which nothing is assumed, so that
    its test [k2 != T(0)] is on the value the code computes; elsewhere
    floating-point values are idealised as real numbers. *)

From Stdlib Require Import ZArith List Bool Lia String Reals Lra.
Import ListNotations.
Open Scope Z_scope.

(** ** Build configuration

    The preprocessor symbols that select code in the sources, and the
    template parameter [D] of [R2C]. *)

Inductive Direction := forward | backward | both | none.

Definition Direction_eqb (a b : Direction) : bool :=
  match a, b with
  | forward, forward | backward, backward | both, both | none, none => true
  | _, _ => false
  end.

Record Config := mkConfig {
  AMREX_SPACEDIM : nat;
  AMREX_USE_GPU : bool;
  AMREX_USE_SYCL : bool
}.

(** ** Boundaries, index vectors and boxes *)

Inductive Boundary := periodic | even | odd.

Definition Boundary_eqb (a b : Boundary) : bool :=
  match a, b with
  | periodic, periodic | even, even | odd, odd => true
  | _, _ => false
  end.

(** [Array<std::pair<Boundary,Boundary>,AMREX_SPACEDIM>]: the entries at
    [idim >= AMREX_SPACEDIM] do not exist in the build and are never read. *)
Definition BCPair : Type := (Boundary * Boundary)%type.
Definition BCArray : Type := (BCPair * BCPair * BCPair)%type.

Definition bc_at (bc : BCArray) (idim : nat) : BCPair :=
  match bc, idim with
  | (b0, _, _), O => b0
  | (_, b1, _), S O => b1
  | (_, _, b2), _ => b2
  end.

(** An [IntVect] seen through [Dim3]: the components beyond the build's
    dimension read as zero. *)
Definition IntVect : Type := (Z * Z * Z)%type.

Definition iv_at (v : IntVect) (d : nat) : Z :=
  match v, d with
  | (x, _, _), O => x
  | (_, y, _), S O => y
  | (_, _, z), _ => z
  end.

Definition iv_set (v : IntVect) (d : nat) (a : Z) : IntVect :=
  match v, d with
  | (_, y, z), O => (a, y, z)
  | (x, _, z), S O => (x, a, z)
  | (x, y, _), _ => (x, y, a)
  end.

Definition IntVect_eq_dec (u v : IntVect) : {u = v} + {u <> v}.
Proof. repeat decide equality. Defined.

(** [AMREX_D_DECL(a,b,c)] keeps the first [AMREX_SPACEDIM] arguments. *)
Definition AMREX_D_DECL (cfg : Config) (a b c : Z) : IntVect :=
  (a,
   if (2 <=? AMREX_SPACEDIM cfg)%nat then b else 0,
   if (3 <=? AMREX_SPACEDIM cfg)%nat then c else 0).

Record Box := mkBox {
  smallEnd : IntVect;
  bigEnd : IntVect;
  cellCentered : bool
}.

(** [Box(IntVect const& small, IntVect const& big)] is cell centred. *)
Definition Box_of (lo hi : IntVect) : Box := mkBox lo hi true.

Definition length (b : Box) (d : nat) : Z :=
  iv_at (bigEnd b) d - iv_at (smallEnd b) d + 1.

(** [b.bigEnd(d)] *)
Definition bigEnd_at (b : Box) (d : nat) : Z := iv_at (bigEnd b) d.

Definition setBig (b : Box) (d : nat) (a : Z) : Box :=
  mkBox (smallEnd b) (iv_set (bigEnd b) d a) (cellCentered b).

(** Modelled from the spec: [Box::numPts] is declared in [AMReX_Box.H],
    outside the sources.  The number of cells of the box, the product of
    the lengths of the build's axes. *)
Definition numPts (cfg : Config) (b : Box) : Z :=
  fold_left (fun r idim => r * length b idim) (seq 0 (AMREX_SPACEDIM cfg)) 1.

(** [m_real_domain.smallEnd() == 0] compares the components of the build. *)
Definition smallEnd_is_zero (cfg : Config) (b : Box) : bool :=
  forallb (fun idim => iv_at (smallEnd b) idim =? 0) (seq 0 (AMREX_SPACEDIM cfg)).

(** A cell lies in a box. *)
Definition contains (b : Box) (c : IntVect) : Prop :=
  forall d, (d < 3)%nat -> iv_at (smallEnd b) d <= iv_at c d <= iv_at (bigEnd b) d.

(** ** Failure

    Every error of the engines is fatal: [AMREX_ALWAYS_ASSERT] and
    [amrex::Abort] end the program.  An assertion is tagged with the error
    kind it stands for: a shape precondition of the domain, or the
    periodicity of the two ends of an axis. *)

Inductive Error :=
| InvalidDomain
| InvalidBoundary
| Abort (msg : string).

Inductive Result (A : Type) :=
| Ok (a : A)
| Failed (e : Error).
Arguments Ok {A} a.
Arguments Failed {A} e.

Definition bind {A B} (r : Result A) (k : A -> Result B) : Result B :=
  match r with
  | Ok a => k a
  | Failed e => Failed e
  end.

Notation "x <- c ;; k" := (bind c (fun x => k))
  (at level 61, c at next level, right associativity).
Notation "c ;;; k" := (bind c (fun _ => k))
  (at level 61, right associativity).

Definition AMREX_ALWAYS_ASSERT (kind : Error) (cond : bool) : Result unit :=
  if cond then Ok tt else Failed kind.

Definition is_ok {A} (r : Result A) : bool :=
  match r with Ok _ => true | Failed _ => false end.

(** ** The collaborators of the engines

    The distributed-array layer, the parallel context and the vendor FFT
    library are outside the sources.  The engines use them through the
    functions collected here: the rank of this process and the size of the
    communicator, [amrex::decompose], and the creation of a vendor plan,
    which returns its handle. *)

Definition VendorPlan : Type := Z.

Record World := mkWorld {
  MyProcSub : nat;
  NProcsSub : nat;
  local_to_global_rank : nat -> nat;
  decompose : Box -> nat -> bool * bool * bool -> list Box;
  vendor_r2c : Direction -> Box -> VendorPlan;
  vendor_c2c : Direction -> Box -> VendorPlan;
  vendor_r2r : Direction -> Box -> BCPair -> VendorPlan
}.

(** [Plan<T>]: the vendor handle; a default-constructed plan holds the null
    handle. *)
Record Plan := mkPlan { plan : VendorPlan }.

Definition Plan_default : Plan := mkPlan 0.

Definition Plan_eqb (p q : Plan) : bool := plan p =? plan q.

Definition init_r2c (w : World) (d : Direction) (box : Box) : Plan :=
  mkPlan (vendor_r2c w d box).
Definition init_c2c (w : World) (d : Direction) (box : Box) : Plan :=
  mkPlan (vendor_c2c w d box).
Definition init_r2r (w : World) (d : Direction) (box : Box) (bc : BCPair) : Plan :=
  mkPlan (vendor_r2r w d box bc).

Definition BoxArray : Type := list Box.
Definition DistributionMapping : Type := list nat.

(** A [FabArray] defined without allocation: its boxes and their ranks. *)
Record FabArray := mkFabArray {
  boxArray : BoxArray;
  DistributionMap : DistributionMapping
}.

Definition FabArray_default : FabArray := mkFabArray [] [].

Definition define (ba : BoxArray) (dm : DistributionMapping) : FabArray :=
  mkFabArray ba dm.

Definition empty (fa : FabArray) : bool :=
  match boxArray fa with [] => true | _ => false end.

Definition size (fa : FabArray) : nat := List.length (boxArray fa).

(** [BoxND()]: the empty box with small end one and big end zero. *)
Definition Box_default (cfg : Config) : Box :=
  Box_of (AMREX_D_DECL cfg 1 1 1) (AMREX_D_DECL cfg 0 0 0).

Definition box (fa : FabArray) (i : nat) : Box :=
  nth i (boxArray fa) (mkBox (1, 1, 1) (0, 0, 0) true).

(** [detail::make_iota_distromap]; its [AMREX_ASSERT] is compiled only in
    debug builds. *)
Definition make_iota_distromap (w : World) (n : nat) : DistributionMapping :=
  map (local_to_global_rank w) (seq 0 n).

(** Modelled from the spec: [detail::get_fab] is declared in
    [AMReX_FFT_Helper.H], outside the sources.  The rank map is the iota
    map, so the process of rank [i] owns box [i] and the processes of rank
    [K] and above own nothing. *)
Definition get_fab (w : World) (fa : FabArray) : option Box :=
  nth_error (boxArray fa) (MyProcSub w).

(** ** Index transforms of the redistributions *)

Inductive DTOS := Swap01 | Swap02 | RotateFwd | RotateBwd | Identity.

Definition apply_dtos (t : DTOS) (v : IntVect) : IntVect :=
  match t, v with
  | Swap01, (i, j, k) => (j, i, k)
  | Swap02, (i, j, k) => (k, j, i)
  | RotateFwd, (i, j, k) => (k, i, j)
  | RotateBwd, (i, j, k) => (j, k, i)
  | Identity, v => v
  end.

(** ** Traces

    A run of an engine is recorded as the list of the calls it makes on its
    collaborators, and ends normally or with a fatal error. *)

Inductive ArrayName :=
| rx | ry | rz | cx | cy | cz
| user_in | user_out | user_spectral.

Inductive Kernel := r2c | c2c | r2r.

(** The six plan members of an engine: [m_fft_fwd_x] is [fft_fwd axis_x]. *)
Inductive Axis := axis_x | axis_y | axis_z.

Definition Axis_eqb (a b : Axis) : bool :=
  match a, b with
  | axis_x, axis_x | axis_y, axis_y | axis_z, axis_z => true
  | _, _ => false
  end.

Inductive Member := fft_fwd (a : Axis) | fft_bwd (a : Axis).

Definition axis_of (m : Member) : Axis :=
  match m with fft_fwd a | fft_bwd a => a end.

(** - [ParallelCopy dst src dtos]: a redistribution into [dst];
    - [compute k d m p]: [m.compute_k<d>()] on the plan [p] held by [m];
    - [post_forward i j k a cell]: the user's callback called with the
      indices [(i,j,k)] and a reference to the element [cell] of [a];
    - [destroy m p]: [m.destroy()] on the plan [p] held by [m]. *)
Inductive Event :=
| ParallelCopy (dst src : ArrayName) (dtos : DTOS)
| compute (k : Kernel) (d : Direction) (m : Member) (p : Plan)
| post_forward (i j k : Z) (a : ArrayName) (cell : IntVect)
| destroy (m : Member) (p : Plan).

Definition Run : Type := (list Event * Result unit)%type.

Definition emit (e : Event) : Run := ([e], Ok tt).
Definition skip : Run := ([], Ok tt).
Definition fatal (e : Error) : Run := ([], Failed e).

Definition andThen (a b : Run) : Run :=
  match a with
  | (ta, Ok _) => let (tb, r) := b in (ta ++ tb, r)
  | (ta, Failed e) => (ta, Failed e)
  end.

Notation "a >> b" := (andThen a b) (at level 62, right associativity).

Definition when (c : bool) (a : Run) : Run := if c then a else skip.

Definition trace (r : Run) : list Event := fst r.
Definition outcome (r : Run) : Result unit := snd r.

(** ** [ParallelFor] over a box *)

(** The integers from [lo] to [hi], in increasing order. *)
Definition zrange (lo hi : Z) : list Z :=
  map (fun n => lo + Z.of_nat n) (seq 0 (Z.to_nat (hi - lo + 1))).

(** The cells of a box in the order of the host loop, [k] outermost and
    [i] innermost. *)
Definition cells (b : Box) : list IntVect :=
  let '(l0, l1, l2) := smallEnd b in
  let '(h0, h1, h2) := bigEnd b in
  flat_map (fun k =>
    flat_map (fun j =>
      map (fun i => (i, j, k)) (zrange l0 h0)) (zrange l1 h1)) (zrange l2 h2).

(** Modelled from the spec: [ParallelFor] is declared in the array layer,
    outside the sources.  It calls its body once on each cell of the box. *)
Definition ParallelFor (b : Box) (f : Z -> Z -> Z -> Event) : Run :=
  (map (fun c : IntVect => let '(i, j, k) := c in f i j k) (cells b), Ok tt).

(** [std::swap(v[a], v[b])] on an index vector. *)
Definition iv_swap (v : IntVect) (a b : nat) : IntVect :=
  iv_set (iv_set v a (iv_at v b)) b (iv_at v a).

Definition setSmall_v (b : Box) (lo : IntVect) : Box :=
  mkBox lo (bigEnd b) (cellCentered b).
Definition setBig_v (b : Box) (hi : IntVect) : Box :=
  mkBox (smallEnd b) hi (cellCentered b).

(** [FFT::Info] *)
Record Info := mkInfo { batch_mode : bool }.
Definition Info_default : Info := mkInfo false.
Definition setBatchMode (i : Info) (b : bool) : Info := mkInfo b.

(** ** The R2C engine *)

Module R2C.

Record t := mk {
  m_fft_fwd_x : Plan;
  m_fft_bwd_x : Plan;
  m_fft_fwd_y : Plan;
  m_fft_bwd_y : Plan;
  m_fft_fwd_z : Plan;
  m_fft_bwd_z : Plan;
  (* the comm meta-data pointers: [true] when set *)
  m_cmd_x2y : bool;
  m_cmd_y2x : bool;
  m_cmd_y2z : bool;
  m_cmd_z2y : bool;
  m_rx : FabArray;
  m_cx : FabArray;
  m_cy : FabArray;
  m_cz : FabArray;
  m_real_domain : Box;
  m_spectral_domain_x : Box;
  m_spectral_domain_y : Box;
  m_spectral_domain_z : Box;
  m_info : Info
}.

Section Engine.

Variable cfg : Config.
Variable w : World.
(** The template parameter [D]. *)
Variable D : Direction.

Definition D_has_forward : bool :=
  Direction_eqb D both || Direction_eqb D forward.
Definition D_has_backward : bool :=
  Direction_eqb D both || Direction_eqb D backward.

Definition make_c2c_plans (inout : FabArray) : Plan * Plan :=
  let fwd := Plan_default in
  let bwd := Plan_default in
  match get_fab w inout with
  | None => (fwd, bwd)
  | Some box =>
      if AMREX_USE_SYCL cfg then
        let fwd := init_c2c w forward box in
        let bwd := fwd in
        (fwd, bwd)
      else
        let fwd := if D_has_forward then init_c2c w forward box else fwd in
        let bwd := if D_has_backward then init_c2c w backward box else bwd in
        (fwd, bwd)
  end.

(** The assertions at the head of the constructor. *)
Definition ctor_asserts (m_real_domain : Box) (m_info : Info) : Result unit :=
  AMREX_ALWAYS_ASSERT InvalidDomain
    (smallEnd_is_zero cfg m_real_domain
     && (1 <? length m_real_domain 0)
     && cellCentered m_real_domain) ;;;
  if (AMREX_SPACEDIM cfg =? 3)%nat then
    AMREX_ALWAYS_ASSERT InvalidDomain
      ((1 <? length m_real_domain 2) || negb (batch_mode m_info)) ;;;
    AMREX_ALWAYS_ASSERT InvalidDomain
      ((1 <? length m_real_domain 1) || (length m_real_domain 2 =? 1))
  else
    AMREX_ALWAYS_ASSERT InvalidDomain (negb (batch_mode m_info)).

(** The constructor past its assertions: the members it initialises. *)
Definition build (domain : Box) (info : Info) : t :=
  let sd := AMREX_SPACEDIM cfg in
  let m_real_domain := domain in
  let m_spectral_domain_x :=
    Box_of (0, 0, 0) (AMREX_D_DECL cfg (Z.quot (length domain 0) 2)
                                       (iv_at (bigEnd domain) 1)
                                       (iv_at (bigEnd domain) 2)) in
  let m_spectral_domain_y :=
    if (2 <=? sd)%nat then
      Box_of (0, 0, 0) (AMREX_D_DECL cfg (iv_at (bigEnd domain) 1)
                                         (Z.quot (length domain 0) 2)
                                         (iv_at (bigEnd domain) 2))
    else Box_default cfg in
  let m_spectral_domain_z :=
    if (sd =? 3)%nat then
      Box_of (0, 0, 0) (AMREX_D_DECL cfg (iv_at (bigEnd domain) 2)
                                         (Z.quot (length domain 0) 2)
                                         (iv_at (bigEnd domain) 1))
    else Box_default cfg in
  let m_info := info in
  let myproc := MyProcSub w in
  let nprocs := NProcsSub w in
  (* make data containers *)
  let bax := decompose w m_real_domain nprocs (false, true, true) in
  let dmx := make_iota_distromap w (List.length bax) in
  let m_rx := define bax dmx in
  let cbax := map (fun b => setBig b 0 (iv_at (bigEnd m_spectral_domain_x) 0)) bax in
  let m_cx := define cbax dmx in
  let '(m_cy, cdmy) :=
    if (2 <=? sd)%nat && (1 <? length m_real_domain 1) then
      let cbay := decompose w m_spectral_domain_y nprocs (false, true, true) in
      let cdmy :=
        if (List.length cbay =? List.length dmx)%nat then dmx
        else make_iota_distromap w (List.length cbay) in
      (define cbay cdmy, cdmy)
    else (FabArray_default, []) in
  let m_cz :=
    if (sd =? 3)%nat
       && ((1 <? length m_real_domain 1)
           && (negb (batch_mode m_info) && (1 <? length m_real_domain 2))) then
      let cbaz := decompose w m_spectral_domain_z nprocs (false, true, true) in
      let cdmz :=
        if (List.length cbaz =? List.length dmx)%nat then dmx
        else if (List.length cbaz =? List.length cdmy)%nat then cdmy
        else make_iota_distromap w (List.length cbaz) in
      define cbaz cdmz
    else FabArray_default in
  (* make copiers *)
  let m_cmd_x2y := (2 <=? sd)%nat && negb (empty m_cy) in
  let m_cmd_y2x := m_cmd_x2y in
  let m_cmd_y2z := (sd =? 3)%nat && negb (empty m_cz) in
  let m_cmd_z2y := m_cmd_y2z in
  (* make plans *)
  let '(m_fft_fwd_x, m_fft_bwd_x) :=
    if (myproc <? size m_rx)%nat then
      let box := box m_rx myproc in
      if AMREX_USE_SYCL cfg then
        let f := init_r2c w forward box in (f, f)
      else
        (if D_has_forward then init_r2c w forward box else Plan_default,
         if D_has_backward then init_r2c w backward box else Plan_default)
    else (Plan_default, Plan_default) in
  let '(m_fft_fwd_y, m_fft_bwd_y) :=
    if (2 <=? sd)%nat && negb (empty m_cy) then make_c2c_plans m_cy
    else (Plan_default, Plan_default) in
  let '(m_fft_fwd_z, m_fft_bwd_z) :=
    if (sd =? 3)%nat && negb (empty m_cz) then make_c2c_plans m_cz
    else (Plan_default, Plan_default) in
  mk m_fft_fwd_x m_fft_bwd_x m_fft_fwd_y m_fft_bwd_y m_fft_fwd_z m_fft_bwd_z
     m_cmd_x2y m_cmd_y2x m_cmd_y2z m_cmd_z2y
     m_rx m_cx m_cy m_cz
     m_real_domain m_spectral_domain_x m_spectral_domain_y
     m_spectral_domain_z m_info.

(** [R2C(domain, info)]: the assertions come first and end the program when
    one fails. *)
Definition ctor (domain : Box) (info : Info) : Result t :=
  ctor_asserts domain info ;;;
  Ok (build domain info).

(** [~R2C] *)
Definition dtor (e : t) : Run :=
  when (negb (Plan_eqb (m_fft_bwd_x e) (m_fft_fwd_x e)))
       (emit (destroy (fft_bwd axis_x) (m_fft_bwd_x e))) >>
  when (negb (Plan_eqb (m_fft_bwd_y e) (m_fft_fwd_y e)))
       (emit (destroy (fft_bwd axis_y) (m_fft_bwd_y e))) >>
  when (negb (Plan_eqb (m_fft_bwd_z e) (m_fft_fwd_z e)))
       (emit (destroy (fft_bwd axis_z) (m_fft_bwd_z e))) >>
  emit (destroy (fft_fwd axis_x) (m_fft_fwd_x e)) >>
  emit (destroy (fft_fwd axis_y) (m_fft_fwd_y e)) >>
  emit (destroy (fft_fwd axis_z) (m_fft_fwd_z e)).

(** [forward(inmf)] *)
Definition forward (e : t) : Run :=
  emit (ParallelCopy rx user_in Identity) >>
  emit (compute r2c forward (fft_fwd axis_x) (m_fft_fwd_x e)) >>
  when (m_cmd_x2y e) (emit (ParallelCopy cy cx Swap01)) >>
  emit (compute c2c forward (fft_fwd axis_y) (m_fft_fwd_y e)) >>
  when (m_cmd_y2z e) (emit (ParallelCopy cz cy Swap02)) >>
  emit (compute c2c forward (fft_fwd axis_z) (m_fft_fwd_z e)).

Definition backward_doit (e : t) : Run :=
  emit (compute c2c backward (fft_bwd axis_z) (m_fft_bwd_z e)) >>
  when (m_cmd_z2y e) (emit (ParallelCopy cy cz Swap02)) >>
  emit (compute c2c backward (fft_bwd axis_y) (m_fft_bwd_y e)) >>
  when (m_cmd_y2x e) (emit (ParallelCopy cx cy Swap01)) >>
  emit (compute r2c backward (fft_bwd axis_x) (m_fft_bwd_x e)) >>
  emit (ParallelCopy user_out rx Identity).

(** [backward(outmf)] *)
Definition backward (e : t) : Run := backward_doit e.

Definition post_forward_doit (e : t) : Run :=
  if batch_mode (m_info e) then
    fatal (Abort "xxxxx todo: post_forward")
  else
    if negb (empty (m_cz e)) then
      match get_fab w (m_cz e) with
      | Some spectral_fab => (* m_cz's ordering is z,x,y *)
          ParallelFor spectral_fab
            (fun iz jx ky => post_forward jx ky iz cz (iz, jx, ky))
      | None => skip
      end
    else if negb (empty (m_cy e)) then
      match get_fab w (m_cy e) with
      | Some spectral_fab => (* m_cy's ordering is y,x,z *)
          ParallelFor spectral_fab
            (fun iy jx k => post_forward jx iy k cy (iy, jx, k))
      | None => skip
      end
    else
      match get_fab w (m_cx e) with
      | Some spectral_fab =>
          ParallelFor spectral_fab
            (fun i j k => post_forward i j k cx (i, j, k))
      | None => skip
      end.

Definition forwardThenBackward (e : t) : Run :=
  forward e >>
  post_forward_doit e >>
  backward e.

Definition getSpectralData (e : t) : ArrayName * IntVect :=
  if negb (empty (m_cz e)) then (cz, AMREX_D_DECL cfg 2 0 1)
  else if negb (empty (m_cy e)) then (cy, AMREX_D_DECL cfg 1 0 2)
  else (cx, AMREX_D_DECL cfg 0 1 2).

(** [forward(inmf, outmf)] *)
Definition forward_out (e : t) : Run :=
  forward e >>
  if negb (empty (m_cz e)) then (* m_cz's order (z,x,y) -> (x,y,z) *)
    emit (ParallelCopy user_spectral cz RotateBwd)
  else if negb (empty (m_cy e)) then (* m_cy's order (y,x,z) -> (x,y,z) *)
    emit (ParallelCopy user_spectral cy Swap01)
  else
    emit (ParallelCopy user_spectral cx Identity).

(** [backward(inmf, outmf)] *)
Definition backward_in (e : t) : Run :=
  (if negb (empty (m_cz e)) then (* (x,y,z) -> m_cz's order (z,x,y) *)
     emit (ParallelCopy cz user_spectral RotateFwd)
   else if negb (empty (m_cy e)) then (* (x,y,z) -> m_cy's ordering (y,x,z) *)
     emit (ParallelCopy cy user_spectral Swap01)
   else
     emit (ParallelCopy cx user_spectral Identity)) >>
  backward_doit e.

(** The loop bodies of [getSpectralDataLayout]. *)
Definition unpermute_z (b : Box) : Box :=
  let lo := smallEnd b in
  let hi := bigEnd b in
  let lo := iv_swap lo 0 1 in
  let lo := iv_swap lo 1 2 in
  let hi := iv_swap hi 0 1 in
  let hi := iv_swap hi 1 2 in
  setBig_v (setSmall_v b lo) hi.

Definition unpermute_y (b : Box) : Box :=
  let lo := smallEnd b in
  let hi := bigEnd b in
  let lo := iv_swap lo 0 1 in
  let hi := iv_swap hi 0 1 in
  setBig_v (setSmall_v b lo) hi.

Definition getSpectralDataLayout (e : t) : BoxArray * DistributionMapping :=
  if (AMREX_SPACEDIM cfg =? 3)%nat && negb (empty (m_cz e)) then
    let bl := map unpermute_z (boxArray (m_cz e)) in
    (bl, DistributionMap (m_cz e))
  else if (2 <=? AMREX_SPACEDIM cfg)%nat && negb (negb (empty (m_cy e))) then
    let bl := map unpermute_y (boxArray (m_cy e)) in
    (bl, DistributionMap (m_cy e))
  else
    (boxArray (m_cx e), DistributionMap (m_cx e)).

End Engine.
End R2C.

(** ** The R2X engine *)

(** A [Long] holds 64 bits in two's complement. *)
Definition Long_max : Z := 2 ^ 63 - 1.
Definition wrap_Long (x : Z) : Z := (x + 2 ^ 63) mod 2 ^ 64 - 2 ^ 63.

(** A loop over [idim] whose body may fail. *)
Fixpoint for_each (l : list nat) (body : nat -> Result unit) : Result unit :=
  match l with
  | [] => Ok tt
  | idim :: l' => body idim ;;; for_each l' body
  end.

Definition is_periodic (b : Boundary) : bool := Boundary_eqb b periodic.

(** The test of the r2r branches on accelerators: one end even and the
    other odd. *)
Definition even_odd_mixed (b : BCPair) : bool :=
  (Boundary_eqb (fst b) even && Boundary_eqb (snd b) odd)
  || (Boundary_eqb (fst b) odd && Boundary_eqb (snd b) even).

Module R2X.

Record t := mk {
  m_dom_0 : Box;
  m_bc : BCArray;
  m_fft_fwd_x : Plan;
  m_fft_bwd_x : Plan;
  m_fft_fwd_y : Plan;
  m_fft_bwd_y : Plan;
  m_fft_fwd_z : Plan;
  m_fft_bwd_z : Plan;
  (* the comm meta-data pointers: [true] when set *)
  m_cmd_cx2cy : bool;
  m_cmd_rx2ry : bool;
  m_cmd_cy2cz : bool;
  m_cmd_ry2rz : bool;
  m_cmd_cy2cx : bool;
  m_cmd_ry2rx : bool;
  m_cmd_cz2cy : bool;
  m_cmd_rz2ry : bool;
  m_rx : FabArray;
  m_ry : FabArray;
  m_rz : FabArray;
  m_cx : FabArray;
  m_cy : FabArray;
  m_cz : FabArray;
  m_dom_rx : Box;
  m_dom_ry : Box;
  m_dom_rz : Box;
  m_dom_cx : Box;
  m_dom_cy : Box;
  m_dom_cz : Box
}.

Section Engine.

Variable cfg : Config.
Variable w : World.

(** The body of the loop of assertions of the constructor. *)
Definition axis_asserts (domain : Box) (bc : BCArray) (idim : nat) : Result unit :=
  AMREX_ALWAYS_ASSERT InvalidDomain (1 <? length domain idim) ;;;
  if is_periodic (fst (bc_at bc idim)) || is_periodic (snd (bc_at bc idim)) then
    AMREX_ALWAYS_ASSERT InvalidBoundary
      (Boundary_eqb (fst (bc_at bc idim)) (snd (bc_at bc idim)))
  else Ok tt.

(** The assertions at the head of the constructor. *)
Definition ctor_asserts (domain : Box) (bc : BCArray) : Result unit :=
  AMREX_ALWAYS_ASSERT InvalidDomain
    (smallEnd_is_zero cfg domain
     && (1 <? length domain 0)
     && cellCentered domain) ;;;
  (if (AMREX_SPACEDIM cfg =? 3)%nat then
     AMREX_ALWAYS_ASSERT InvalidDomain
       ((1 <? length domain 1) || (length domain 2 =? 1))
   else Ok tt) ;;;
  for_each (seq 0 (AMREX_SPACEDIM cfg)) (axis_asserts domain bc).

(** The distribution map of a new array: that of the array it is filled
    from when the box counts agree. *)
Definition reuse_dm (ba : BoxArray) (from : FabArray) : DistributionMapping :=
  if (List.length ba =? size from)%nat then DistributionMap from
  else make_iota_distromap w (List.length ba).

(** The plans of one axis, in the three flavours the constructor builds. *)
Definition r2c_plans (box : Box) : Plan * Plan :=
  let fwd := init_r2c w forward box in
  (fwd, if AMREX_USE_SYCL cfg then fwd else init_r2c w backward box).

Definition c2c_plans (box : Box) : Plan * Plan :=
  let fwd := init_c2c w forward box in
  (fwd, if AMREX_USE_SYCL cfg then fwd else init_c2c w backward box).

Definition r2r_plans (box : Box) (bc : BCPair) : Plan * Plan :=
  let fwd := init_r2r w forward box bc in
  (fwd,
   if AMREX_USE_GPU cfg && even_odd_mixed bc then fwd
   else init_r2r w backward box bc).

Definition on_owner (fa : FabArray) (mk_plans : Box -> Plan * Plan) : Plan * Plan :=
  if (MyProcSub w <? size fa)%nat then mk_plans (box fa (MyProcSub w))
  else (Plan_default, Plan_default).

(** The constructor past its assertions: the members it initialises. *)
Definition build (domain : Box) (bc : BCArray) : t :=
  let sd := AMREX_SPACEDIM cfg in
  let m_dom_0 := domain in
  let m_bc := bc in
  let nprocs := NProcsSub w in
  let zero : IntVect := (0, 0, 0) in
  let shrink (ba : BoxArray) (hi0 : Z) := map (fun b => setBig b 0 hi0) ba in
  (* make data containers *)
  let m_dom_rx := m_dom_0 in
  let bax := decompose w m_dom_rx nprocs (false, true, true) in
  let dmx := make_iota_distromap w (List.length bax) in
  let m_rx := define bax dmx in
  (* x-direction *)
  let '(m_dom_cx, m_cx) :=
    if is_periodic (fst (bc_at bc 0)) then
      let m_dom_cx :=
        Box_of zero (AMREX_D_DECL cfg (Z.quot (length domain 0) 2)
                                      (bigEnd_at domain 1) (bigEnd_at domain 2)) in
      (m_dom_cx, define (shrink bax (bigEnd_at m_dom_cx 0)) dmx)
    else (Box_default cfg, FabArray_default) in
  let '(m_dom_ry, m_ry, m_dom_cy, m_cy) :=
    if (2 <=? sd)%nat && (1 <? length domain 1) then
      if negb (empty m_cx) then
        (* copy(m_cx->m_cy) *)
        let m_dom_cy :=
          Box_of zero (AMREX_D_DECL cfg (bigEnd_at m_dom_cx 1)
                                        (bigEnd_at m_dom_cx 0)
                                        (bigEnd_at m_dom_cx 2)) in
        let ba := decompose w m_dom_cy nprocs (false, true, true) in
        let dm := reuse_dm ba m_cx in
        (Box_default cfg, FabArray_default, m_dom_cy, define ba dm)
      else
        (* copy(m_rx->m_ry) *)
        let m_dom_ry :=
          Box_of zero (AMREX_D_DECL cfg (bigEnd_at m_dom_rx 1)
                                        (bigEnd_at m_dom_rx 0)
                                        (bigEnd_at m_dom_rx 2)) in
        let ba := decompose w m_dom_ry nprocs (false, true, true) in
        let dm := reuse_dm ba m_rx in
        let m_ry := define ba dm in
        if is_periodic (fst (bc_at bc 1)) then
          let m_dom_cy :=
            Box_of zero (AMREX_D_DECL cfg (Z.quot (length m_dom_ry 0) 2)
                                          (bigEnd_at m_dom_ry 1)
                                          (bigEnd_at m_dom_ry 2)) in
          (m_dom_ry, m_ry, m_dom_cy, define (shrink ba (bigEnd_at m_dom_cy 0)) dm)
        else (m_dom_ry, m_ry, Box_default cfg, FabArray_default)
    else (Box_default cfg, FabArray_default, Box_default cfg, FabArray_default) in
  let '(m_dom_rz, m_rz, m_dom_cz, m_cz) :=
    if (sd =? 3)%nat && (1 <? length domain 2) then
      if negb (empty m_cy) then
        (* copy(m_cy, m_cz) *)
        let m_dom_cz :=
          Box_of zero (AMREX_D_DECL cfg (bigEnd_at m_dom_cy 2)
                                        (bigEnd_at m_dom_cy 1)
                                        (bigEnd_at m_dom_cy 0)) in
        let ba := decompose w m_dom_cz nprocs (false, true, true) in
        let dm := reuse_dm ba m_cy in
        (Box_default cfg, FabArray_default, m_dom_cz, define ba dm)
      else
        (* copy(m_ry, m_rz) *)
        let m_dom_rz :=
          Box_of zero (AMREX_D_DECL cfg (bigEnd_at m_dom_ry 2)
                                        (bigEnd_at m_dom_ry 1)
                                        (bigEnd_at m_dom_ry 0)) in
        let ba := decompose w m_dom_rz nprocs (false, true, true) in
        let dm := reuse_dm ba m_ry in
        let m_rz := define ba dm in
        if is_periodic (fst (bc_at bc 2)) then
          let m_dom_cz :=
            Box_of zero (AMREX_D_DECL cfg (Z.quot (length m_dom_rz 0) 2)
                                          (bigEnd_at m_dom_rz 1)
                                          (bigEnd_at m_dom_rz 2)) in
          (m_dom_rz, m_rz, m_dom_cz, define (shrink ba (bigEnd_at m_dom_cz 0)) dm)
        else (m_dom_rz, m_rz, Box_default cfg, FabArray_default)
    else (Box_default cfg, FabArray_default, Box_default cfg, FabArray_default) in
  (* make copiers *)
  let copy_y := (2 <=? sd)%nat && (1 <? length domain 1) in
  let m_cmd_cx2cy := copy_y && negb (empty m_cx) in
  let m_cmd_cy2cx := m_cmd_cx2cy in
  let m_cmd_rx2ry := copy_y && empty m_cx in
  let m_cmd_ry2rx := m_cmd_rx2ry in
  let copy_z := (sd =? 3)%nat && (1 <? length domain 2) in
  let m_cmd_cy2cz := copy_z && negb (empty m_cy) in
  let m_cmd_cz2cy := m_cmd_cy2cz in
  let m_cmd_ry2rz := copy_z && empty m_cy in
  let m_cmd_rz2ry := m_cmd_ry2rz in
  (* make plans *)
  let '(m_fft_fwd_x, m_fft_bwd_x) :=
    on_owner m_rx (fun box =>
      if is_periodic (fst (bc_at bc 0)) then r2c_plans box
      else r2r_plans box (bc_at bc 0)) in
  let '(m_fft_fwd_y, m_fft_bwd_y) :=
    if (2 <=? sd)%nat then
      if empty m_ry && is_periodic (fst (bc_at m_bc 1)) then
        on_owner m_cy c2c_plans
      else if negb (empty m_ry) && is_periodic (fst (bc_at m_bc 1)) then
        on_owner m_ry r2c_plans
      else if negb (empty m_cy) then
        on_owner m_cy (fun box => r2r_plans box (bc_at bc 1))
      else
        on_owner m_ry (fun box => r2r_plans box (bc_at bc 1))
    else (Plan_default, Plan_default) in
  let '(m_fft_fwd_z, m_fft_bwd_z) :=
    if (sd =? 3)%nat then
      if empty m_rz && is_periodic (fst (bc_at m_bc 2)) then
        on_owner m_cz c2c_plans
      else if negb (empty m_rz) && is_periodic (fst (bc_at m_bc 2)) then
        on_owner m_rz r2c_plans
      else if negb (empty m_cz) then
        on_owner m_cz (fun box => r2r_plans box (bc_at bc 2))
      else
        on_owner m_rz (fun box => r2r_plans box (bc_at bc 2))
    else (Plan_default, Plan_default) in
  mk m_dom_0 m_bc
     m_fft_fwd_x m_fft_bwd_x m_fft_fwd_y m_fft_bwd_y m_fft_fwd_z m_fft_bwd_z
     m_cmd_cx2cy m_cmd_rx2ry m_cmd_cy2cz m_cmd_ry2rz
     m_cmd_cy2cx m_cmd_ry2rx m_cmd_cz2cy m_cmd_rz2ry
     m_rx m_ry m_rz m_cx m_cy m_cz
     m_dom_rx m_dom_ry m_dom_rz m_dom_cx m_dom_cy m_dom_cz.

(** [R2X(domain, bc)]: the assertions come first and end the program when
    one fails. *)
Definition ctor (domain : Box) (bc : BCArray) : Result t :=
  ctor_asserts domain bc ;;;
  Ok (build domain bc).

(** [~R2X] *)
Definition dtor (e : t) : Run :=
  when (negb (Plan_eqb (m_fft_bwd_x e) (m_fft_fwd_x e)))
       (emit (destroy (fft_bwd axis_x) (m_fft_bwd_x e))) >>
  when (negb (Plan_eqb (m_fft_bwd_y e) (m_fft_fwd_y e)))
       (emit (destroy (fft_bwd axis_y) (m_fft_bwd_y e))) >>
  when (negb (Plan_eqb (m_fft_bwd_z e) (m_fft_fwd_z e)))
       (emit (destroy (fft_bwd axis_z) (m_fft_bwd_z e))) >>
  emit (destroy (fft_fwd axis_x) (m_fft_fwd_x e)) >>
  emit (destroy (fft_fwd axis_y) (m_fft_fwd_y e)) >>
  emit (destroy (fft_fwd axis_z) (m_fft_fwd_z e)).

(** The integer [r] at the end of the loop of [scalingFactor]. *)
Definition scalingFactor_r (e : t) : Z :=
  fold_left
    (fun r idim =>
       if negb (is_periodic (fst (bc_at (m_bc e) idim)))
          && (1 <? length (m_dom_0 e) idim)
       then wrap_Long (r * 2)
       else r)
    (seq 0 (AMREX_SPACEDIM cfg))
    (numPts cfg (m_dom_0 e)).

Definition scalingFactor (e : t) : R :=
  (1 / IZR (scalingFactor_r e))%R.

(** [post_forward_doit<dim>(fab, f)]; [a] names the array of [fab]. *)
Definition post_forward_doit (dim : nat) (a : ArrayName) (fab : option Box) : Run :=
  match fab with
  | Some b =>
      ParallelFor b (fun i j k =>
        if (dim =? 0)%nat then post_forward i j k a (i, j, k)
        else if (dim =? 1)%nat then post_forward j i k a (i, j, k)
        else post_forward j k i a (i, j, k))
  | None => skip
  end.

(** The value of [actual_dim] in [forwardThenBackward]. *)
Definition actual_dim (e : t) : nat :=
  let actual_dim := AMREX_SPACEDIM cfg in
  let actual_dim :=
    if (2 <=? AMREX_SPACEDIM cfg)%nat && (length (m_dom_0 e) 1 =? 1)
    then 1%nat else actual_dim in
  let actual_dim :=
    if (AMREX_SPACEDIM cfg =? 3)%nat
       && ((length (m_dom_0 e) 2 =? 1) && (1 <? length (m_dom_0 e) 1))
    then 2%nat else actual_dim in
  actual_dim.

(** The post-forward step of [forwardThenBackward]. *)
Definition post_forward_step (e : t) : Run :=
  if (actual_dim e =? 1)%nat then
    if empty (m_cx e) then post_forward_doit 0 rx (get_fab w (m_rx e))
    else post_forward_doit 0 cx (get_fab w (m_cx e))
  else if (2 <=? AMREX_SPACEDIM cfg)%nat && (actual_dim e =? 2)%nat then
    if empty (m_cy e) then post_forward_doit 1 ry (get_fab w (m_ry e))
    else post_forward_doit 1 cy (get_fab w (m_cy e))
  else if (AMREX_SPACEDIM cfg =? 3)%nat && (actual_dim e =? 3)%nat then
    if empty (m_cz e) then post_forward_doit 2 rz (get_fab w (m_rz e))
    else post_forward_doit 2 cz (get_fab w (m_cz e))
  else skip.

Definition forwardThenBackward (e : t) : Run :=
  let sd := AMREX_SPACEDIM cfg in
  let periodic_at idim := is_periodic (fst (bc_at (m_bc e) idim)) in
  (* forward *)
  emit (ParallelCopy rx user_in Identity) >>
  (if periodic_at 0%nat then
     emit (compute r2c forward (fft_fwd axis_x) (m_fft_fwd_x e))
   else
     emit (compute r2r forward (fft_fwd axis_x) (m_fft_fwd_x e))) >>
  when (2 <=? sd)%nat
    ((if m_cmd_cx2cy e then emit (ParallelCopy cy cx Swap01)
      else if m_cmd_rx2ry e then emit (ParallelCopy ry rx Swap01)
      else skip) >>
     (if negb (periodic_at 1%nat) then
        emit (compute r2r forward (fft_fwd axis_y) (m_fft_fwd_y e))
      else if periodic_at 0%nat then
        emit (compute c2c forward (fft_fwd axis_y) (m_fft_fwd_y e))
      else
        emit (compute r2c forward (fft_fwd axis_y) (m_fft_fwd_y e)))) >>
  when (sd =? 3)%nat
    ((if m_cmd_cy2cz e then emit (ParallelCopy cz cy Swap02)
      else if m_cmd_ry2rz e then emit (ParallelCopy rz ry Swap02)
      else skip) >>
     (if negb (periodic_at 2%nat) then
        emit (compute r2r forward (fft_fwd axis_z) (m_fft_fwd_z e))
      else if periodic_at 0%nat || periodic_at 1%nat then
        emit (compute c2c forward (fft_fwd axis_z) (m_fft_fwd_z e))
      else
        emit (compute r2c forward (fft_fwd axis_z) (m_fft_fwd_z e)))) >>
  (* post-forward *)
  post_forward_step e >>
  (* backward *)
  when (sd =? 3)%nat
    ((if negb (periodic_at 2%nat) then
        emit (compute r2r backward (fft_bwd axis_z) (m_fft_bwd_z e))
      else if periodic_at 0%nat || periodic_at 1%nat then
        emit (compute c2c backward (fft_bwd axis_z) (m_fft_bwd_z e))
      else
        emit (compute r2c backward (fft_bwd axis_z) (m_fft_bwd_z e))) >>
     (if m_cmd_cz2cy e then emit (ParallelCopy cy cz Swap02)
      else if m_cmd_rz2ry e then emit (ParallelCopy ry rz Swap02)
      else skip)) >>
  when (2 <=? sd)%nat
    ((if negb (periodic_at 1%nat) then
        emit (compute r2r backward (fft_bwd axis_y) (m_fft_bwd_y e))
      else if periodic_at 0%nat then
        emit (compute c2c backward (fft_bwd axis_y) (m_fft_bwd_y e))
      else
        emit (compute r2c backward (fft_bwd axis_y) (m_fft_bwd_y e))) >>
     (if m_cmd_cy2cx e then emit (ParallelCopy cx cy Swap01)
      else if m_cmd_ry2rx e then emit (ParallelCopy rx ry Swap01)
      else skip)) >>
  (if periodic_at 0%nat then
     emit (compute r2c backward (fft_bwd axis_x) (m_fft_bwd_x e))
   else
     emit (compute r2r backward (fft_bwd axis_x) (m_fft_bwd_x e))) >>
  emit (ParallelCopy user_out rx Identity).

End Engine.
End R2X.

(** ** Geometry and the Poisson solvers *)

(** The part of [Geometry] the solvers read. *)
Record Geometry := mkGeometry {
  Domain : Box;
  CellSize : nat -> R;
  ProbLength : nat -> R;
  isPeriodic : nat -> bool
}.

Definition isAllPeriodic (cfg : Config) (g : Geometry) : bool :=
  forallb (isPeriodic g) (seq 0 (AMREX_SPACEDIM cfg)).

(** Division and multiplication of a spectral value by a real number in
    the exact arithmetic of the real numbers; the spectral value is a real
    or a complex number. *)
Class SpectralValue (V : Type) := {
  div_by : V -> R -> V;
  mul_by : V -> R -> V
}.

#[export] Instance SpectralValue_real : SpectralValue R := {
  div_by := fun v x => (v / x)%R;
  mul_by := fun v x => (v * x)%R
}.

Definition GpuComplex : Type := (R * R)%type.

#[export] Instance SpectralValue_complex : SpectralValue GpuComplex := {
  div_by := fun v x => (fst v / x, snd v / x)%R;
  mul_by := fun v x => (fst v * x, snd v * x)%R
}.

(** The arithmetic of the value type [T] of a solver ([float] or
    [double]): the conversions [T(n)] of an integer and [T(x)] of an
    [amrex::Real], the constants [Math::pi<T>()] and [T(0.5)], the four
    operations, [std::cos] and the comparison [!=].  [Real_mul] is the
    product of two [amrex::Real] values, which are kept as real numbers.
    Nothing is assumed of the operations: they round, overflow and produce
    infinities and NaNs as the value type does. *)
Class Arithmetic (T : Type) := {
  T_of_Z : Z -> T;
  T_of_Real : R -> T;
  T_pi : T;
  T_half : T;
  T_add : T -> T -> T;
  T_sub : T -> T -> T;
  T_mul : T -> T -> T;
  T_div : T -> T -> T;
  T_cos : T -> T;
  T_neqb : T -> T -> bool;
  Real_mul : R -> R -> R
}.

(** The exact arithmetic of the real numbers. *)
#[export] Instance Arithmetic_exact : Arithmetic R := {
  T_of_Z := IZR;
  T_of_Real := fun x => x;
  T_pi := PI;
  T_half := (1 / 2)%R;
  T_add := Rplus;
  T_sub := Rminus;
  T_mul := Rmult;
  T_div := Rdiv;
  T_cos := cos;
  T_neqb := fun x y => if Req_dec_T x y then false else true;
  Real_mul := Rmult
}.

(** The two compound assignments of the callback on a spectral value of
    type [V], [/=] and [*=] by a value of type [T]: [V] is [T] in an
    all-r2r pipeline and [GpuComplex<T>] otherwise. *)
Class SpectralData (T V : Type) := {
  div_assign : V -> T -> V;
  mul_assign : V -> T -> V
}.

#[export] Instance SpectralData_real (T : Type) `{Arithmetic T} : SpectralData T T := {
  div_assign := T_div;
  mul_assign := T_mul
}.

(** [a[i] = v] on a [GpuArray]. *)
Definition upd {A : Type} (a : nat -> A) (i : nat) (v : A) : nat -> A :=
  fun j => if (j =? i)%nat then v else a j.

(** [AMREX_D_TERM(a, +b, +c)] *)
Definition AMREX_D_TERM_sum {T : Type} `{Arithmetic T}
           (cfg : Config) (a b c : T) : T :=
  match AMREX_SPACEDIM cfg with
  | 1%nat => a
  | 2%nat => T_add a b
  | _ => T_add (T_add a b) c
  end.

Module Poisson.

Record t := mk {
  m_geom : Geometry;
  m_bc : BCArray;
  m_r2x : R2X.t
}.

Section Solver.

Variable cfg : Config.
Variable w : World.

(** [Poisson(geom, bc)] *)
Definition ctor (geom : Geometry) (bc : BCArray) : Result t :=
  r2x <- R2X.ctor cfg w (Domain geom) bc ;;
  Ok (mk geom bc r2x).

(** [Poisson(geom)] *)
Definition ctor_periodic (geom : Geometry) : Result t :=
  let pp := (periodic, periodic) in
  let bc : BCArray := (pp, pp, pp) in
  r2x <- R2X.ctor cfg w (Domain geom) bc ;;
  AMREX_ALWAYS_ASSERT InvalidBoundary (isAllPeriodic cfg geom) ;;;
  Ok (mk geom bc r2x).

Section Callback.

Context {T : Type} `{Arithmetic T}.

(** The arrays [fac], [dxfac] and [offset] of [solve], and [scale]. *)
Definition fac (p : t) : nat -> T :=
  fold_left
    (fun fac idim =>
       if is_periodic (fst (bc_at (m_bc p) idim))
       then upd fac idim (T_mul (fac idim) (T_of_Z 2))
       else fac)
    (seq 0 (AMREX_SPACEDIM cfg))
    (fun idim => T_div T_pi (T_of_Z (length (Domain (m_geom p)) idim))).

Definition dxfac (p : t) : nat -> T :=
  fun idim =>
    T_div (T_of_Z 2)
          (T_of_Real (Real_mul (CellSize (m_geom p) idim)
                               (CellSize (m_geom p) idim))).

(** [m_r2x.scalingFactor()], whose quotient [T(1)/T(r)] is taken in the
    arithmetic of [T]. *)
Definition scale (p : t) : T :=
  T_div (T_of_Z 1) (T_of_Z (R2X.scalingFactor_r cfg (m_r2x p))).

Definition offset (p : t) : nat -> T :=
  fold_left
    (fun offset idim =>
       let b := bc_at (m_bc p) idim in
       if Boundary_eqb (fst b) odd && Boundary_eqb (snd b) odd then
         upd offset idim (T_of_Z 1)
       else if (Boundary_eqb (fst b) odd && Boundary_eqb (snd b) even)
               || (Boundary_eqb (fst b) even && Boundary_eqb (snd b) odd) then
         upd offset idim T_half
       else offset)
    (seq 0 (AMREX_SPACEDIM cfg))
    (fun _ => T_of_Z 0).

(** The value [k2] the callback computes at [(i,j,k)]. *)
Definition k2 (p : t) (i j k : Z) : T :=
  let a := T_mul (fac p 0) (T_add (T_of_Z i) (offset p 0)) in
  let b := T_mul (fac p 1) (T_add (T_of_Z j) (offset p 1)) in
  let c := T_mul (fac p 2) (T_add (T_of_Z k) (offset p 2)) in
  AMREX_D_TERM_sum cfg (T_mul (dxfac p 0) (T_sub (T_cos a) (T_of_Z 1)))
                       (T_mul (dxfac p 1) (T_sub (T_cos b) (T_of_Z 1)))
                       (T_mul (dxfac p 2) (T_sub (T_cos c) (T_of_Z 1))).

(** The callback [solve] passes to [forwardThenBackward]: the test
    [k2 != T(0)] is on the value computed in [T]. *)
Definition callback (p : t) {V} `{SpectralData T V} (i j k : Z) (spectral_data : V) : V :=
  let spectral_data :=
    if T_neqb (k2 p i j k) (T_of_Z 0) then div_assign spectral_data (k2 p i j k)
    else spectral_data in
  mul_assign spectral_data (scale p).

End Callback.

Definition solve (p : t) : Run :=
  R2X.forwardThenBackward cfg w (m_r2x p).

End Solver.
End Poisson.

Module PoissonHybrid.

Record t := mk {
  m_geom : Geometry;
  m_r2c : R2C.t
}.

Section Solver.

Variable cfg : Config.
Variable w : World.

Definition ctor (geom : Geometry) : Result t :=
  r2c <- R2C.ctor cfg w both (Domain geom) (setBatchMode Info_default true) ;;
  (if (AMREX_SPACEDIM cfg =? 3)%nat then
     AMREX_ALWAYS_ASSERT InvalidBoundary (isPeriodic geom 0 && isPeriodic geom 1)
   else
     Failed (Abort "FFT::PoissonHybrid: 1D & 2D todo")) ;;;
  Ok (mk geom r2c).

(** The vector [delzv] of [solve] and the reads [delz[k]] within it. *)
Definition delzv (p : t) : list R :=
  repeat (CellSize (m_geom p) 2) (Z.to_nat (length (Domain (m_geom p)) 2)).

Definition delz (p : t) (k : Z) : R := nth (Z.to_nat k) (delzv p) 0%R.

(** The divisors of the two off-diagonal coefficients of row [k]. *)
Definition ald_divisor (p : t) (k : Z) : R :=
  (delz p k * (delz p k + delz p (k - 1)))%R.
Definition cud_divisor (p : t) (k : Z) : R :=
  (delz p k * (delz p k + delz p (k + 1)))%R.

(** Row [k] of the tridiagonal system of the column [(i,j)], whose
    horizontal symbol is [k2]: the coefficients [ald], [bd] and [cud]. *)
Definition tridiag_row (p : t) (i j : Z) (k2 : R) (k : Z) : R * R * R :=
  let nz := length (Domain (m_geom p)) 2 in
  if k =? 0 then
    let ald := 0%R in
    let cud := (2 / cud_divisor p k)%R in
    let bd := (k2 - ald - cud)%R in
    (ald, bd, cud)
  else if k =? nz - 1 then
    let ald := (2 / ald_divisor p k)%R in
    let cud := 0%R in
    let bd := (k2 - ald - cud)%R in
    let bd := if (i =? 0) && (j =? 0) then (bd * 2)%R else bd in
    (ald, bd, cud)
  else
    let ald := (2 / ald_divisor p k)%R in
    let cud := (2 / cud_divisor p k)%R in
    let bd := (k2 - ald - cud)%R in
    (ald, bd, cud).

End Solver.
End PoissonHybrid.

(** ** A concrete world *)

(** The box [b] cut into [m] slabs of nearly equal thickness along the
    axis [d]. *)
Definition split_axis (b : Box) (d : nat) (m : nat) : list Box :=
  let lo := iv_at (smallEnd b) d in
  let len := length b d in
  map (fun p =>
         mkBox (iv_set (smallEnd b) d (lo + Z.of_nat p * len / Z.of_nat m))
               (iv_set (bigEnd b) d (lo + Z.of_nat (S p) * len / Z.of_nat m - 1))
               (cellCentered b))
      (seq 0 m).

(** Modelled from the spec: [amrex::decompose] is outside the sources.  This
    instance cuts the domain into at most [nboxes] slabs along the highest
    axis that may be cut and is longer than one cell; with one process it
    returns the domain itself. *)
Definition decompose_slabs (domain : Box) (nboxes : nat)
                           (decomp : bool * bool * bool) : list Box :=
  let '(d0, d1, d2) := decomp in
  let pieces d := Nat.min nboxes (Z.to_nat (length domain d)) in
  if d2 && (1 <? length domain 2) then split_axis domain 2 (pieces 2%nat)
  else if d1 && (1 <? length domain 1) then split_axis domain 1 (pieces 1%nat)
  else if d0 && (1 <? length domain 0) then split_axis domain 0 (pieces 0%nat)
  else [domain].

(** A vendor library that numbers its plans by the length of the
    transform, the kernel and the direction. *)
Definition direction_code (d : Direction) : Z :=
  match d with forward => 1 | backward => 2 | both => 3 | none => 4 end.

Definition world (myproc nprocs : nat) : World :=
  mkWorld myproc nprocs (fun i => i) decompose_slabs
          (fun d b => 100 * length b 0 + 10 + direction_code d)
          (fun d b => 100 * length b 0 + 20 + direction_code d)
          (fun d b _ => 100 * length b 0 + 30 + direction_code d).

Definition cfg_3d : Config := mkConfig 3 false false.
Definition cfg_2d : Config := mkConfig 2 false false.
Definition cfg_3d_gpu : Config := mkConfig 3 true false.

(** The cell-centred box [0 .. n0-1] x [0 .. n1-1] x [0 .. n2-1]. *)
Definition domain_of (n0 n1 n2 : Z) : Box :=
  Box_of (0, 0, 0) (n0 - 1, n1 - 1, n2 - 1).

Definition all_periodic : BCArray :=
  ((periodic, periodic), (periodic, periodic), (periodic, periodic)).

(** ** The statements of the specification

    Each definition below follows the words of the specification; the
    properties compare it with the code. *)

(** The three shape preconditions of R2C construction: [lo = 0], [N0 > 1]
    and, for a 3-D engine that is not in batch mode, [N1 > 1] whenever
    [N2 > 1]. *)
Definition spec_R2C_shape_ok (cfg : Config) (domain : Box) (info : Info) : Prop :=
  smallEnd_is_zero cfg domain = true
  /\ 1 < length domain 0
  /\ (AMREX_SPACEDIM cfg = 3%nat -> batch_mode info = false ->
      1 < length domain 2 -> 1 < length domain 1).

(** An axis with exactly one periodic end. *)
Definition exactly_one_periodic (b : BCPair) : bool :=
  xorb (is_periodic (fst b)) (is_periodic (snd b)).

(** A periodic axis: both ends are periodic. *)
Definition axis_periodic (b : BCPair) : bool :=
  is_periodic (fst b) && is_periodic (snd b).

(** The domain assertions of R2X construction. *)
Definition R2X_domain_ok (cfg : Config) (domain : Box) : bool :=
  smallEnd_is_zero cfg domain
  && (1 <? length domain 0)
  && cellCentered domain
  && (negb (AMREX_SPACEDIM cfg =? 3)%nat
      || ((1 <? length domain 1) || (length domain 2 =? 1)))
  && forallb (fun idim => 1 <? length domain idim) (seq 0 (AMREX_SPACEDIM cfg)).

(** The handles on which [destroy] is called through the two plan members
    of an axis, in the order of the calls. *)
Definition destroyed_on (a : Axis) (tr : list Event) : list VendorPlan :=
  flat_map (fun ev =>
              match ev with
              | destroy m p => if Axis_eqb (axis_of m) a then [plan p] else []
              | _ => []
              end) tr.

(** The handles held by the forward and the backward plan of an axis. *)
Definition R2C_handles (e : R2C.t) (a : Axis) : VendorPlan * VendorPlan :=
  match a with
  | axis_x => (plan (R2C.m_fft_fwd_x e), plan (R2C.m_fft_bwd_x e))
  | axis_y => (plan (R2C.m_fft_fwd_y e), plan (R2C.m_fft_bwd_y e))
  | axis_z => (plan (R2C.m_fft_fwd_z e), plan (R2C.m_fft_bwd_z e))
  end.

Definition R2X_handles (e : R2X.t) (a : Axis) : VendorPlan * VendorPlan :=
  match a with
  | axis_x => (plan (R2X.m_fft_fwd_x e), plan (R2X.m_fft_bwd_x e))
  | axis_y => (plan (R2X.m_fft_fwd_y e), plan (R2X.m_fft_bwd_y e))
  | axis_z => (plan (R2X.m_fft_fwd_z e), plan (R2X.m_fft_bwd_z e))
  end.

(** Each handle of the pair is destroyed exactly once, and nothing else is
    destroyed. *)
Definition destroyed_exactly_once (fb : VendorPlan * VendorPlan)
                                  (ds : list VendorPlan) : Prop :=
  count_occ Z.eq_dec ds (fst fb) = 1%nat
  /\ count_occ Z.eq_dec ds (snd fb) = 1%nat
  /\ (forall h, In h ds -> h = fst fb \/ h = snd fb).

(** The calls of the post-forward callback in a trace: the indices passed,
    and the array and the cell of the element passed by reference. *)
Definition callbacks (tr : list Event) : list (IntVect * (ArrayName * IntVect)) :=
  flat_map (fun ev =>
              match ev with
              | post_forward i j k a cell => [((i, j, k), (a, cell))]
              | _ => []
              end) tr.

(** The canonical [(x,y,z)] indices of a cell stored in the internal
    layout: [m_cz] is ordered [(z,x,y)], [m_cy] is ordered [(y,x,z)] and
    [m_cx] is ordered [(x,y,z)]. *)
Definition spec_canonical (a : ArrayName) (cell : IntVect) : IntVect :=
  match a, cell with
  | cz, (iz, jx, ky) => (jx, ky, iz)
  | cy, (iy, jx, k) => (jx, iy, k)
  | _, (i, j, k) => (i, j, k)
  end.

(** The spectral arrays of an R2C engine by name. *)
Definition R2C_array (e : R2C.t) (a : ArrayName) : FabArray :=
  match a with
  | rx => R2C.m_rx e
  | cx => R2C.m_cx e
  | cy => R2C.m_cy e
  | cz => R2C.m_cz e
  | _ => FabArray_default
  end.

(** The cells counted by the scaling: the product of the lengths of the
    axes of the build, [N0 * N1 * N2] in a 3-D build. *)
Definition spec_cells (cfg : Config) (domain : Box) : Z :=
  fold_right (fun d acc => length domain d * acc) 1 (seq 0 (AMREX_SPACEDIM cfg)).

(** The axes that double the scaling: those that are not periodic and are
    longer than one cell. *)
Definition spec_doubled_axes (cfg : Config) (domain : Box) (bc : BCArray) : list nat :=
  filter (fun d => negb (axis_periodic (bc_at bc d)) && (1 <? length domain d))
         (seq 0 (AMREX_SPACEDIM cfg)).

(** The denominator of the scaling factor: [N0 * N1 * N2] times a factor
    two for each axis that is not periodic and is longer than one cell. *)
Definition spec_scaling_denominator (cfg : Config) (domain : Box) (bc : BCArray) : Z :=
  spec_cells cfg domain * 2 ^ Z.of_nat (List.length (spec_doubled_axes cfg domain bc)).

(** The canonical [(x,y,z)] indices of a cell of the array reached after
    [dim] transpositions: [(x,y,z)], then [(y,x,z)], then [(z,x,y)]. *)
Definition spec_canonical_dim (dim : nat) (cell : IntVect) : IntVect :=
  match dim, cell with
  | 0%nat, (i, j, k) => (i, j, k)
  | 1%nat, (i, j, k) => (j, i, k)
  | _, (i, j, k) => (j, k, i)
  end.

(** The array that holds the spectrum of an R2X engine after the last
    phase of a build: the complex array of the phase when it is in use,
    the real one otherwise. *)
Definition R2X_last_phase (cfg : Config) (e : R2X.t) : ArrayName * FabArray :=
  match AMREX_SPACEDIM cfg with
  | 1%nat => if empty (R2X.m_cx e) then (rx, R2X.m_rx e) else (cx, R2X.m_cx e)
  | 2%nat => if empty (R2X.m_cy e) then (ry, R2X.m_ry e) else (cy, R2X.m_cy e)
  | _ => if empty (R2X.m_cz e) then (rz, R2X.m_rz e) else (cz, R2X.m_cz e)
  end.

(** A run that ends normally and does not call the callback. *)
Definition quiet (r : Run) : Prop :=
  outcome r = Ok tt /\ callbacks (trace r) = [].

(** The symbol of the discrete Laplacian as the specification states it:
    [fac_d] is [2 pi / Nd] on a periodic axis and [pi / Nd] otherwise; the
    shift [delta_d] is 0 for a periodic or even-even axis, 1/2 for an axis
    with one even and one odd end, and 1 for an odd-odd axis; [alpha_d] is
    [fac_d * (index_d + delta_d)]; and [lambda] is the sum over the axes of
    [(2 / dx_d^2) * (cos alpha_d - 1)]. *)
Definition spec_fac (geom : Geometry) (bc : BCArray) (d : nat) : R :=
  if axis_periodic (bc_at bc d)
  then (2 * PI / IZR (length (Domain geom) d))%R
  else (PI / IZR (length (Domain geom) d))%R.

Definition spec_delta (b : BCPair) : R :=
  match b with
  | (odd, odd) => 1%R
  | (even, odd) | (odd, even) => (1 / 2)%R
  | _ => 0%R
  end.

Definition spec_alpha (geom : Geometry) (bc : BCArray) (d : nat) (index : Z) : R :=
  (spec_fac geom bc d * (IZR index + spec_delta (bc_at bc d)))%R.

Definition spec_lambda (cfg : Config) (geom : Geometry) (bc : BCArray)
                       (i j k : Z) : R :=
  fold_right
    (fun d acc =>
       (2 / Rsqr (CellSize geom d)
        * (cos (spec_alpha geom bc d (iv_at (i, j, k) d)) - 1) + acc)%R)
    0%R
    (seq 0 (AMREX_SPACEDIM cfg)).

(** The same symbol in the arithmetic of a value type [T], with the
    operations in the order the code performs them: [fac_d] is
    [pi / T(Nd)], times [T(2)] on a periodic axis; the factor of a term is
    [T(2) / T(dx_d * dx_d)]; the terms are added from the left.  Over the
    real numbers it is [spec_lambda]. *)
Definition computed_fac {T : Type} `{Arithmetic T}
           (geom : Geometry) (bc : BCArray) (d : nat) : T :=
  if axis_periodic (bc_at bc d)
  then T_mul (T_div T_pi (T_of_Z (length (Domain geom) d))) (T_of_Z 2)
  else T_div T_pi (T_of_Z (length (Domain geom) d)).

Definition computed_delta {T : Type} `{Arithmetic T} (b : BCPair) : T :=
  match b with
  | (odd, odd) => T_of_Z 1
  | (even, odd) | (odd, even) => T_half
  | _ => T_of_Z 0
  end.

Definition computed_term {T : Type} `{Arithmetic T}
           (geom : Geometry) (bc : BCArray) (d : nat) (index : Z) : T :=
  T_mul (T_div (T_of_Z 2)
               (T_of_Real (Real_mul (CellSize geom d) (CellSize geom d))))
        (T_sub (T_cos (T_mul (computed_fac geom bc d)
                             (T_add (T_of_Z index) (computed_delta (bc_at bc d)))))
               (T_of_Z 1)).

Definition computed_lambda {T : Type} `{Arithmetic T}
           (cfg : Config) (geom : Geometry) (bc : BCArray) (i j k : Z) : T :=
  match AMREX_SPACEDIM cfg with
  | 1%nat => computed_term geom bc 0 i
  | 2%nat => T_add (computed_term geom bc 0 i) (computed_term geom bc 1 j)
  | _ => T_add (T_add (computed_term geom bc 0 i) (computed_term geom bc 1 j))
               (computed_term geom bc 2 k)
  end.

(** What the computation of the symbol at the index [(0,0,0)] uses of an
    arithmetic: [0 + 0] is [0], [cos 0] is [1], [1 - 1] is [0], and [0 != 0]
    is false. *)
Definition zero_arithmetic (T : Type) `{Arithmetic T} : Prop :=
  T_add (T_of_Z 0) (T_of_Z 0) = T_of_Z 0
  /\ T_cos (T_of_Z 0) = T_of_Z 1
  /\ T_sub (T_of_Z 1) (T_of_Z 1) = T_of_Z 0
  /\ T_neqb (T_of_Z 0) (T_of_Z 0) = false.

(** A value whose product with zero is zero, as a finite value's is. *)
Definition vanishes_at_zero {T : Type} `{Arithmetic T} (x : T) : Prop :=
  T_mul x (T_of_Z 0) = T_of_Z 0.

(** A geometry of unit cells on the domain [n0 x n1 x n2], periodic along
    every axis. *)
Definition unit_geometry (n0 n1 n2 : Z) : Geometry :=
  mkGeometry (domain_of n0 n1 n2)
             (fun _ => 1%R)
             (fun d => IZR (length (domain_of n0 n1 n2) d))
             (fun _ => true).

(** A geometry on the domain 8 x 8 x 4, periodic in x and y, whose extent
    and cell size along z are zero. *)
Definition zero_dz_geometry : Geometry :=
  mkGeometry (domain_of 8 8 4)
             (fun d => if (d =? 2)%nat then 0%R else 1%R)
             (fun d => if (d =? 2)%nat then 0%R else 8%R)
             (fun d => negb (d =? 2)%nat).

(** ** Further observations on the engines *)

(** The distribution map of an array is the iota map of its boxes: box [i]
    lives on the process [local_to_global_rank i]. *)
Definition iota_mapped (w : World) (fa : FabArray) : Prop :=
  DistributionMap fa = make_iota_distromap w (size fa).

(** [amrex::decompose] returns at least one box when called by the engines,
    with the number of processes of the communicator. *)
Definition decompose_nonempty (w : World) : Prop :=
  forall b decomp, decompose w b (NProcsSub w) decomp <> [].

(** The transforms of [PoissonHybrid::solve]: [m_r2c.forward(rhs, spmf)]
    before the tridiagonal solves and [m_r2c.backward(spmf, soln)] after
    them. *)
Definition PoissonHybrid_solve_transforms (p : PoissonHybrid.t) : Run :=
  R2C.forward_out (PoissonHybrid.m_r2c p) >>
  R2C.backward_in (PoissonHybrid.m_r2c p).

(** The transform and redistribution steps of a trace, without the plans
    they run on. *)
Inductive Step :=
| step_copy (dst src : ArrayName) (dtos : DTOS)
| step_kernel (k : Kernel) (d : Direction) (m : Member).

Definition steps (tr : list Event) : list Step :=
  flat_map (fun ev =>
              match ev with
              | ParallelCopy dst src dtos => [step_copy dst src dtos]
              | compute k d m _ => [step_kernel k d m]
              | _ => []
              end) tr.

(** The step that undoes a step: the copy in the opposite direction (the
    caller's input for the caller's output), the kernel in the opposite
    direction on the opposite plan of the axis. *)
Definition mirror_array (a : ArrayName) : ArrayName :=
  match a with
  | user_in => user_out
  | user_out => user_in
  | a => a
  end.

Definition mirror_direction (d : Direction) : Direction :=
  match d with
  | forward => backward
  | backward => forward
  | d => d
  end.

Definition mirror_member (m : Member) : Member :=
  match m with
  | fft_fwd a => fft_bwd a
  | fft_bwd a => fft_fwd a
  end.

Definition mirror_step (s : Step) : Step :=
  match s with
  | step_copy dst src dtos => step_copy (mirror_array src) (mirror_array dst) dtos
  | step_kernel k d m => step_kernel k (mirror_direction d) (mirror_member m)
  end.

(** The kernel [R2X::forwardThenBackward] computes along an axis, in both
    directions: r2c on the first periodic axis, c2c on the periodic axes
    after it, r2r on the axes that are not periodic. *)
Definition R2X_kernel (e : R2X.t) (a : Axis) : Kernel :=
  let periodic_at idim := is_periodic (fst (bc_at (R2X.m_bc e) idim)) in
  match a with
  | axis_x => if periodic_at 0%nat then r2c else r2r
  | axis_y =>
      if negb (periodic_at 1%nat) then r2r
      else if periodic_at 0%nat then c2c
      else r2c
  | axis_z =>
      if negb (periodic_at 2%nat) then r2r
      else if periodic_at 0%nat || periodic_at 1%nat then c2c
      else r2c
  end.

(** The plan held by a plan member of an R2X engine. *)
Definition R2X_plan (e : R2X.t) (m : Member) : Plan :=
  match m with
  | fft_fwd axis_x => R2X.m_fft_fwd_x e
  | fft_bwd axis_x => R2X.m_fft_bwd_x e
  | fft_fwd axis_y => R2X.m_fft_fwd_y e
  | fft_bwd axis_y => R2X.m_fft_bwd_y e
  | fft_fwd axis_z => R2X.m_fft_fwd_z e
  | fft_bwd axis_z => R2X.m_fft_bwd_z e
  end.

(** The kernels of a trace in the order of the calls: the flavour, the
    direction, the plan member and the plan the member holds. *)
Definition kernels (tr : list Event) : list (Kernel * Direction * Member * Plan) :=
  flat_map (fun ev =>
              match ev with
              | compute k d m p => [(k, d, m, p)]
              | _ => []
              end) tr.

Definition axis_index (a : Axis) : nat :=
  match a with axis_x => 0%nat | axis_y => 1%nat | axis_z => 2%nat end.

(** The array on whose local box the plans of an axis are created: the
    real array of the axis before the first periodic axis, the complex
    array after it. *)
Definition R2X_plan_array (e : R2X.t) (a : Axis) : FabArray :=
  let periodic_at idim := is_periodic (fst (bc_at (R2X.m_bc e) idim)) in
  match a with
  | axis_x => R2X.m_rx e
  | axis_y => if periodic_at 0%nat then R2X.m_cy e else R2X.m_ry e
  | axis_z =>
      if periodic_at 0%nat || periodic_at 1%nat then R2X.m_cz e else R2X.m_rz e
  end.

(** The forward and the backward plan of the kernel [k] on a box, where
    [b] holds the two ends of the axis: each is created for its own
    direction, but that the backward plan is a copy of the forward plan in
    a SYCL build (r2c, c2c) and, on an accelerator, for r2r between an even
    and an odd end. *)
Definition plans_created (cfg : Config) (w : World) (k : Kernel) (b : BCPair)
           (box : Box) : Plan * Plan :=
  match k with
  | r2c => (init_r2c w forward box,
            if AMREX_USE_SYCL cfg then init_r2c w forward box
            else init_r2c w backward box)
  | c2c => (init_c2c w forward box,
            if AMREX_USE_SYCL cfg then init_c2c w forward box
            else init_c2c w backward box)
  | r2r => (init_r2r w forward box b,
            if AMREX_USE_GPU cfg && even_odd_mixed b then init_r2r w forward box b
            else init_r2r w backward box b)
  end.

(** ** The tridiagonal solve of [PoissonHybrid::solve]

    The accelerator variant of the loop body: the coefficients [ald], [bd],
    [cud] and the scratch row are real arrays over the column, the spectral
    column is complex.  The host variant keeps the same real coefficients
    in complex vectors. *)

(** [a(k) = v] on an array over the column. *)
Definition updZ {A : Type} (f : Z -> A) (k : Z) (v : A) : Z -> A :=
  fun k' => if k' =? k then v else f k'.

(** Complex minus complex and real times complex. *)
Definition Csub (u v : GpuComplex) : GpuComplex :=
  (fst u - fst v, snd u - snd v)%R.
Definition Cadd (u v : GpuComplex) : GpuComplex :=
  (fst u + fst v, snd u + snd v)%R.
Definition Cscale (x : R) (v : GpuComplex) : GpuComplex :=
  (x * fst v, x * snd v)%R.

Module Tridiag.

Section Column.

Variables ald bd cud : Z -> R.
Variable nz : Z.

(** The elimination: row 0, then the loop [for (k = 1; k < nz; k++)]. *)
Definition forward_step (st : (Z -> R) * (Z -> GpuComplex)) (k : Z)
  : (Z -> R) * (Z -> GpuComplex) :=
  let '(scratch, spectral) := st in
  let scratch :=
    if k <? nz - 1
    then updZ scratch k (cud k / (bd k - ald k * scratch (k - 1)%Z))%R
    else scratch in
  let spectral :=
    updZ spectral k
         (div_by (Csub (spectral k) (Cscale (ald k) (spectral (k - 1)%Z)))
                 (bd k - ald k * scratch (k - 1)%Z)%R) in
  (scratch, spectral).

Definition forward_sweep (scratch : Z -> R) (spectral : Z -> GpuComplex)
  : (Z -> R) * (Z -> GpuComplex) :=
  let scratch := updZ scratch 0 (cud 0 / bd 0)%R in
  let spectral := updZ spectral 0 (div_by (spectral 0) (bd 0)) in
  fold_left forward_step (zrange 1 (nz - 1)) (scratch, spectral).

(** The loop [for (k = nz - 2; k >= 0; k--)]. *)
Definition back_step (scratch : Z -> R) (spectral : Z -> GpuComplex) (k : Z)
  : Z -> GpuComplex :=
  updZ spectral k (Csub (spectral k) (Cscale (scratch k) (spectral (k + 1)%Z))).

Definition back_substitution (scratch : Z -> R) (spectral : Z -> GpuComplex)
  : Z -> GpuComplex :=
  fold_left (back_step scratch) (rev (zrange 0 (nz - 2))) spectral.

(** The loop [for (k = 0; k < nz; ++k) spectral(i,j,k) *= scale]. *)
Definition scale_column (scale : R) (spectral : Z -> GpuComplex) : Z -> GpuComplex :=
  fold_left (fun spectral k => updZ spectral k (mul_by (spectral k) scale))
            (zrange 0 (nz - 1)) spectral.

(** The solve of one column, from the elimination to the scaling. *)
Definition solve_column (scale : R) (scratch : Z -> R) (spectral : Z -> GpuComplex)
  : Z -> GpuComplex :=
  let '(scratch, spectral) := forward_sweep scratch spectral in
  scale_column scale (back_substitution scratch spectral).

(** The divisors of the elimination, read on the scratch row it leaves. *)
Definition pivot (scratch : Z -> R) (k : Z) : R :=
  if k =? 0 then bd 0 else (bd k - ald k * scratch (k - 1)%Z)%R.

(** The left-hand side of row [k] of the tridiagonal system at [x]: the
    first row has no lower neighbour and the last no upper one. *)
Definition row (x : Z -> GpuComplex) (k : Z) : GpuComplex :=
  Cadd (if k =? 0 then (0, 0)%R else Cscale (ald k) (x (k - 1)%Z))
       (Cadd (Cscale (bd k) (x k))
             (if k =? nz - 1 then (0, 0)%R else Cscale (cud k) (x (k + 1)%Z))).

End Column.
End Tridiag.

(** The column [(i,j)] of [PoissonHybrid::solve]: the symbol [k2] of the
    horizontal modes, the coefficients of the rows and the solve. *)
Definition Hybrid_k2 (p : PoissonHybrid.t) (i j : Z) : R :=
  let geom := PoissonHybrid.m_geom p in
  let facx := (2 * PI / ProbLength geom 0)%R in
  let facy := (2 * PI / ProbLength geom 1)%R in
  let dx := CellSize geom 0 in
  let dy := CellSize geom 1 in
  let ny := length (Domain geom) 1 in
  let a := (facx * IZR i)%R in
  let b := if j <? Z.quot ny 2 then (facy * IZR j)%R
           else (facy * IZR (ny - j))%R in
  (2 * (cos (a * dx) - 1) / (dx * dx)
   + 2 * (cos (b * dy) - 1) / (dy * dy))%R.

Definition Hybrid_ald (p : PoissonHybrid.t) (i j : Z) (k : Z) : R :=
  fst (fst (PoissonHybrid.tridiag_row p i j (Hybrid_k2 p i j) k)).
Definition Hybrid_bd (p : PoissonHybrid.t) (i j : Z) (k : Z) : R :=
  snd (fst (PoissonHybrid.tridiag_row p i j (Hybrid_k2 p i j) k)).
Definition Hybrid_cud (p : PoissonHybrid.t) (i j : Z) (k : Z) : R :=
  snd (PoissonHybrid.tridiag_row p i j (Hybrid_k2 p i j) k).

Definition Hybrid_scale (p : PoissonHybrid.t) : R :=
  (1 / (IZR (length (Domain (PoissonHybrid.m_geom p)) 0)
        * IZR (length (Domain (PoissonHybrid.m_geom p)) 1)))%R.

Definition Hybrid_solve_column (p : PoissonHybrid.t) (i j : Z)
           (scratch : Z -> R) (spectral : Z -> GpuComplex) : Z -> GpuComplex :=
  Tridiag.solve_column (Hybrid_ald p i j) (Hybrid_bd p i j) (Hybrid_cud p i j)
                       (length (Domain (PoissonHybrid.m_geom p)) 2)
                       (Hybrid_scale p) scratch spectral.



(** The hybrid solver on the unit-cell geometry 8 x 8 x 4, over two
    processes. *)
Definition unit_hybrid_solver : PoissonHybrid.t :=
  PoissonHybrid.mk (unit_geometry 8 8 4)
                   (R2C.build cfg_3d (world 0 2) both (domain_of 8 8 4)
                              (setBatchMode Info_default true)).

(** * Properties *)

Lemma Boundary_eqb_eq (a b : Boundary) : Boundary_eqb a b = true <-> a = b.
Proof. destruct a, b; simpl; split; congruence. Qed.

Lemma assert_ok kind cond : AMREX_ALWAYS_ASSERT kind cond = Ok tt <-> cond = true.
Proof. unfold AMREX_ALWAYS_ASSERT; destruct cond; split; congruence. Qed.

Lemma In_zrange lo hi x : In x (zrange lo hi) <-> lo <= x <= hi.
Proof.
  unfold zrange. rewrite in_map_iff. split.
  - intros [n [<- Hn]]. apply in_seq in Hn. lia.
  - intros H. exists (Z.to_nat (x - lo)). split; [lia|].
    apply in_seq. lia.
Qed.

Lemma NoDup_map_inj {A B} (f : A -> B) (l : list A) :
  (forall a b, f a = f b -> a = b) -> NoDup l -> NoDup (map f l).
Proof.
  intros Hinj Hnd. induction Hnd as [|x l Hx Hl IH]; simpl; constructor; auto.
  intros Hin. apply in_map_iff in Hin. destruct Hin as [y [Hy Hin]].
  apply Hinj in Hy. subst. contradiction.
Qed.

Lemma NoDup_zrange lo hi : NoDup (zrange lo hi).
Proof.
  unfold zrange. apply NoDup_map_inj.
  - intros a b H. lia.
  - apply seq_NoDup.
Qed.

Lemma NoDup_flat_map {A B} (f : A -> list B) (l : list A) :
  NoDup l ->
  (forall a, In a l -> NoDup (f a)) ->
  (forall a a' b, In a l -> In a' l -> In b (f a) -> In b (f a') -> a = a') ->
  NoDup (flat_map f l).
Proof.
  induction l as [|x l IH]; intros Hnd Hf Hdisj; simpl.
  - constructor.
  - inversion Hnd as [|? ? Hx Hl]; subst.
    assert (Hrest : NoDup (flat_map f l)).
    { apply IH; auto.
      - intros a Ha. apply Hf. now right.
      - intros a a' b Ha Ha'. apply Hdisj; now right. }
    apply NoDup_app; auto.
    + apply Hf. now left.
    + intros b Hb Hin. apply in_flat_map in Hin. destruct Hin as [a [Ha Hb']].
      assert (x = a) by (apply (Hdisj x a b); simpl; auto).
      subst. contradiction.
Qed.

Lemma In_cells b c : In c (cells b) <-> contains b c.
Proof.
  destruct b as [[[l0 l1] l2] [[h0 h1] h2] cc], c as [[i j] k].
  unfold cells, contains; simpl.
  rewrite in_flat_map. split.
  - intros [k' [Hk H]]. apply in_flat_map in H. destruct H as [j' [Hj H]].
    apply in_map_iff in H. destruct H as [i' [Heq Hi]].
    inversion Heq; subst.
    apply In_zrange in Hk, Hj, Hi.
    intros d Hd. destruct d as [|[|[|d]]]; simpl; lia.
  - intros H.
    pose proof (H 0%nat ltac:(lia)) as H0.
    pose proof (H 1%nat ltac:(lia)) as H1.
    pose proof (H 2%nat ltac:(lia)) as H2. simpl in *.
    exists k. split; [now apply In_zrange|].
    apply in_flat_map. exists j. split; [now apply In_zrange|].
    apply in_map_iff. exists i. split; [reflexivity | now apply In_zrange].
Qed.

Lemma NoDup_cells b : NoDup (cells b).
Proof.
  destruct b as [[[l0 l1] l2] [[h0 h1] h2] cc]. unfold cells; simpl.
  apply NoDup_flat_map.
  - apply NoDup_zrange.
  - intros k _. apply NoDup_flat_map.
    + apply NoDup_zrange.
    + intros j _. apply NoDup_map_inj.
      * intros a a' H. congruence.
      * apply NoDup_zrange.
    + intros j j' c _ _ H H'.
      apply in_map_iff in H, H'. destruct H as [i [<- _]], H' as [i' [E _]].
      congruence.
  - intros k k' c _ _ H H'.
    apply in_flat_map in H, H'.
    destruct H as [j [_ H]], H' as [j' [_ H']].
    apply in_map_iff in H, H'. destruct H as [i [<- _]], H' as [i' [E _]].
    congruence.
Qed.


(** ** Runs *)

Lemma trace_andThen_ok a b :
  outcome a = Ok tt -> trace (a >> b) = trace a ++ trace b.
Proof.
  destruct a as [ta [[]|e]], b as [tb rb]; simpl; intros H; congruence.
Qed.

Lemma outcome_andThen_ok a b :
  outcome a = Ok tt -> outcome (a >> b) = outcome b.
Proof.
  destruct a as [ta [[]|e]], b as [tb rb]; simpl; intros H; congruence.
Qed.

Lemma andThen_failed a b e :
  outcome a = Failed e -> a >> b = a.
Proof.
  destruct a as [ta [[]|e']], b as [tb rb]; simpl; intros H; congruence.
Qed.

Lemma outcome_emit ev : outcome (emit ev) = Ok tt.
Proof. reflexivity. Qed.

Lemma outcome_when c a : outcome a = Ok tt -> outcome (when c a) = Ok tt.
Proof. destruct c; simpl; auto. Qed.

Lemma outcome_ParallelFor b f : outcome (ParallelFor b f) = Ok tt.
Proof. reflexivity. Qed.

(** ** Construction of the R2C engine *)

Ltac bool_to_prop :=
  repeat match goal with
  | H : _ && _ = true |- _ => apply andb_true_iff in H; destruct H
  | H : _ || _ = true |- _ => apply orb_true_iff in H
  | H : negb _ = true |- _ => apply negb_true_iff in H
  | H : (_ <? _) = true |- _ => apply Z.ltb_lt in H
  | H : (_ =? _) = true |- _ => apply Z.eqb_eq in H
  | H : (_ <? _) = false |- _ => apply Z.ltb_ge in H
  | H : (_ =? _) = false |- _ => apply Z.eqb_neq in H
  end.

Lemma R2C_ctor_asserts_kind cfg domain info err :
  R2C.ctor_asserts cfg domain info = Failed err -> err = InvalidDomain.
Proof.
  unfold R2C.ctor_asserts, AMREX_ALWAYS_ASSERT, bind.
  repeat match goal with
  | |- context [if ?c then _ else _] => destruct c
  end; intros H; congruence.
Qed.

Lemma R2C_ctor_asserts_ok cfg domain info :
  R2C.ctor_asserts cfg domain info = Ok tt <->
  smallEnd_is_zero cfg domain = true
  /\ 1 < length domain 0
  /\ cellCentered domain = true
  /\ (if (AMREX_SPACEDIM cfg =? 3)%nat
      then (1 < length domain 2 \/ batch_mode info = false)
           /\ (1 < length domain 1 \/ length domain 2 = 1)
      else batch_mode info = false).
Proof.
  unfold R2C.ctor_asserts, AMREX_ALWAYS_ASSERT, bind.
  destruct (smallEnd_is_zero cfg domain); simpl;
    [| split; [discriminate | intros [H _]; discriminate]].
  destruct (Z.ltb_spec 1 (length domain 0)); simpl;
    [| split; [discriminate | intros (_ & H' & _); lia]].
  destruct (cellCentered domain); simpl;
    [| split; [discriminate | intros (_ & _ & H' & _); discriminate]].
  destruct (AMREX_SPACEDIM cfg =? 3)%nat.
  - destruct (Z.ltb_spec 1 (length domain 2)), (batch_mode info); simpl;
      destruct (Z.ltb_spec 1 (length domain 1)),
               (Z.eqb_spec (length domain 2) 1); simpl;
      split; intros Hx; try discriminate; try tauto;
      try (repeat split; auto; lia);
      destruct Hx as (_ & _ & _ & [Ha | Ha] & [Hb | Hb]);
      try lia; try discriminate.
  - destruct (batch_mode info); simpl; split; intros Hx;
      try discriminate; try tauto.
    destruct Hx as (_ & _ & _ & Hx); discriminate.
Qed.

Lemma R2C_ctor_is_ok cfg w D domain info :
  is_ok (R2C.ctor cfg w D domain info) = true <->
  R2C.ctor_asserts cfg domain info = Ok tt.
Proof.
  unfold R2C.ctor, bind.
  destruct (R2C.ctor_asserts cfg domain info) as [[]|e]; simpl; split; congruence.
Qed.

(** C6 (as amended).  R2C construction passes its assertions exactly when
    the small end of the domain is zero, [N0 > 1], the box is cell centred
    and, in a 3-D build, [N1 > 1] or [N2 = 1] (in batch mode too) and
    [N2 > 1] when batch mode is on, or, in a 1-D or 2-D build, batch mode is
    off.  Every failure of the construction is [InvalidDomain].  For a
    cell-centred box with [N2 >= 1] in a 3-D build and not in batch mode,
    this is the three conditions [lo = 0], [N0 > 1] and [N1 > 1] whenever
    [N2 > 1]. *)
Theorem R2C_construction_shape_checks cfg w D domain info :
  (is_ok (R2C.ctor cfg w D domain info) = true <->
   smallEnd_is_zero cfg domain = true
   /\ 1 < length domain 0
   /\ cellCentered domain = true
   /\ (if (AMREX_SPACEDIM cfg =? 3)%nat
       then (1 < length domain 2 \/ batch_mode info = false)
            /\ (1 < length domain 1 \/ length domain 2 = 1)
       else batch_mode info = false))
  /\ (forall err, R2C.ctor cfg w D domain info = Failed err -> err = InvalidDomain)
  /\ (AMREX_SPACEDIM cfg = 3%nat -> batch_mode info = false ->
      cellCentered domain = true -> 1 <= length domain 2 ->
      (is_ok (R2C.ctor cfg w D domain info) = true <->
       spec_R2C_shape_ok cfg domain info)).
Proof.
  split; [| split].
  - rewrite R2C_ctor_is_ok. apply R2C_ctor_asserts_ok.
  - intros err. unfold R2C.ctor, bind.
    destruct (R2C.ctor_asserts cfg domain info) as [[]|e] eqn:E; [discriminate|].
    intros H; inversion H; subst. eapply R2C_ctor_asserts_kind; eauto.
  - intros Hsd Hb Hcc Hn2.
    rewrite R2C_ctor_is_ok, R2C_ctor_asserts_ok.
    unfold spec_R2C_shape_ok. rewrite Hsd, Hb, Hcc. simpl.
    split.
    + intros (H0 & H1 & _ & _ & [H3 | H3]); repeat split; auto; lia.
    + intros (H0 & H1 & H2). repeat split; auto.
      destruct (Z.eq_dec (length domain 2) 1); [now right | left].
      apply H2; auto. lia.
Qed.

Lemma R2C_construction_shape_checks_witness :
  is_ok (R2C.ctor cfg_3d (world 0 2) both (domain_of 8 8 4) Info_default) = true
  <-> spec_R2C_shape_ok cfg_3d (domain_of 8 8 4) Info_default.
Proof.
  apply (R2C_construction_shape_checks cfg_3d (world 0 2) both
           (domain_of 8 8 4) Info_default);
    [reflexivity | reflexivity | reflexivity | vm_compute; discriminate].
Defined.

(** C6, the claim as stated fails: a 3-D batch-mode engine on the domain
    8 x 8 x 1, and one on the domain 8 x 1 x 4, meet the three listed
    conditions and are rejected. *)
Lemma R2C_batch_mode_flat_domain_rejected :
  (spec_R2C_shape_ok cfg_3d (domain_of 8 8 1) (setBatchMode Info_default true)
   /\ R2C.ctor cfg_3d (world 0 1) both (domain_of 8 8 1)
               (setBatchMode Info_default true) = Failed InvalidDomain)
  /\ (spec_R2C_shape_ok cfg_3d (domain_of 8 1 4) (setBatchMode Info_default true)
      /\ R2C.ctor cfg_3d (world 0 1) both (domain_of 8 1 4)
                  (setBatchMode Info_default true) = Failed InvalidDomain).
Proof.
  split; split; try reflexivity;
    (unfold spec_R2C_shape_ok; split; [reflexivity | split; [reflexivity |]];
     intros _ Hb; discriminate Hb).
Qed.

(** ** Construction of the R2X engine *)

Lemma for_each_ok l body :
  for_each l body = Ok tt <-> (forall i, In i l -> body i = Ok tt).
Proof.
  induction l as [|x l IH]; simpl.
  - split; auto. intros _ i [].
  - unfold bind. destruct (body x) as [[]|e] eqn:E.
    + rewrite IH. split.
      * intros H i [<-|Hi]; auto.
      * intros H i Hi. apply H. now right.
    + split; [discriminate|]. intros H.
      specialize (H x (or_introl eq_refl)). congruence.
Qed.

Lemma for_each_failed l body e :
  for_each l body = Failed e -> exists i, In i l /\ body i = Failed e.
Proof.
  induction l as [|x l IH]; simpl; [discriminate|].
  unfold bind. destruct (body x) as [[]|e'] eqn:E.
  - intros H. destruct (IH H) as [i [Hi Hb]]. exists i. auto.
  - intros H. inversion H; subst. exists x. auto.
Qed.

Lemma for_each_fails_with l body e :
  (forall i, In i l -> body i = Ok tt \/ body i = Failed e) ->
  (exists i, In i l /\ body i = Failed e) ->
  for_each l body = Failed e.
Proof.
  induction l as [|x l IH]; simpl; intros Hall [i [Hi Hb]]; [contradiction|].
  unfold bind. destruct (Hall x (or_introl eq_refl)) as [Hx | Hx]; rewrite Hx; auto.
  apply IH.
  - intros j Hj. apply Hall. now right.
  - destruct Hi as [<-|Hi]; [congruence|]. exists i. auto.
Qed.

Lemma R2X_axis_asserts_cases domain bc idim :
  R2X.axis_asserts domain bc idim =
    if 1 <? length domain idim then
      if exactly_one_periodic (bc_at bc idim) then Failed InvalidBoundary
      else Ok tt
    else Failed InvalidDomain.
Proof.
  unfold R2X.axis_asserts, AMREX_ALWAYS_ASSERT, bind, exactly_one_periodic.
  destruct (1 <? length domain idim); auto.
  destruct (bc_at bc idim) as [[] []]; reflexivity.
Qed.

Lemma R2X_domain_ok_split cfg domain :
  R2X_domain_ok cfg domain = true <->
  (smallEnd_is_zero cfg domain && (1 <? length domain 0)
   && cellCentered domain = true)
  /\ ((AMREX_SPACEDIM cfg =? 3)%nat = true ->
      (1 <? length domain 1) || (length domain 2 =? 1) = true)
  /\ (forall i, In i (seq 0 (AMREX_SPACEDIM cfg)) -> (1 <? length domain i) = true).
Proof.
  unfold R2X_domain_ok.
  rewrite <- (forallb_forall (fun i => 1 <? length domain i)).
  destruct (AMREX_SPACEDIM cfg =? 3)%nat,
           (smallEnd_is_zero cfg domain && (1 <? length domain 0)
            && cellCentered domain),
           ((1 <? length domain 1) || (length domain 2 =? 1)),
           (forallb (fun i => 1 <? length domain i) (seq 0 (AMREX_SPACEDIM cfg)));
    simpl; intuition congruence.
Qed.

Lemma R2X_ctor_asserts_ok cfg domain bc :
  R2X.ctor_asserts cfg domain bc = Ok tt <->
  R2X_domain_ok cfg domain = true
  /\ (forall d, (d < AMREX_SPACEDIM cfg)%nat ->
      exactly_one_periodic (bc_at bc d) = false).
Proof.
  rewrite R2X_domain_ok_split. unfold R2X.ctor_asserts, AMREX_ALWAYS_ASSERT, bind.
  destruct (smallEnd_is_zero cfg domain && (1 <? length domain 0)
            && cellCentered domain);
    [| split; [discriminate | intros [[H _] _]; discriminate]].
  assert (Hloop :
    for_each (seq 0 (AMREX_SPACEDIM cfg)) (R2X.axis_asserts domain bc) = Ok tt <->
    (forall i, In i (seq 0 (AMREX_SPACEDIM cfg)) -> (1 <? length domain i) = true)
    /\ (forall d, (d < AMREX_SPACEDIM cfg)%nat ->
        exactly_one_periodic (bc_at bc d) = false)).
  { rewrite for_each_ok. split.
    - intros H. split.
      + intros i Hi. specialize (H i Hi). rewrite R2X_axis_asserts_cases in H.
        destruct (1 <? length domain i); [reflexivity | discriminate].
      + intros d Hd. specialize (H d). rewrite R2X_axis_asserts_cases in H.
        assert (Hin : In d (seq 0 (AMREX_SPACEDIM cfg))) by (apply in_seq; lia).
        specialize (H Hin).
        destruct (1 <? length domain d); [| discriminate].
        destruct (exactly_one_periodic (bc_at bc d)); [discriminate | reflexivity].
    - intros [Hl Hb] i Hi. rewrite R2X_axis_asserts_cases, (Hl i Hi).
      rewrite Hb; [reflexivity | apply in_seq in Hi; lia]. }
  destruct (AMREX_SPACEDIM cfg =? 3)%nat.
  - destruct ((1 <? length domain 1) || (length domain 2 =? 1)).
    + rewrite Hloop. intuition.
    + split; [discriminate |]. intros [(_ & H & _) _].
      specialize (H eq_refl). discriminate.
  - rewrite Hloop. intuition discriminate.
Qed.

Lemma R2X_ctor_asserts_boundary cfg domain bc :
  R2X.ctor_asserts cfg domain bc = Failed InvalidBoundary ->
  exists d, (d < AMREX_SPACEDIM cfg)%nat
            /\ exactly_one_periodic (bc_at bc d) = true.
Proof.
  unfold R2X.ctor_asserts, AMREX_ALWAYS_ASSERT, bind.
  destruct (smallEnd_is_zero cfg domain && (1 <? length domain 0)
            && cellCentered domain); [| discriminate].
  assert (Hloop :
    for_each (seq 0 (AMREX_SPACEDIM cfg)) (R2X.axis_asserts domain bc)
      = Failed InvalidBoundary ->
    exists d, (d < AMREX_SPACEDIM cfg)%nat
              /\ exactly_one_periodic (bc_at bc d) = true).
  { intros H. apply for_each_failed in H. destruct H as [i [Hi Hb]].
    exists i. split; [apply in_seq in Hi; lia |].
    rewrite R2X_axis_asserts_cases in Hb.
    destruct (1 <? length domain i); [| discriminate].
    destruct (exactly_one_periodic (bc_at bc i)); [reflexivity | discriminate]. }
  destruct (AMREX_SPACEDIM cfg =? 3)%nat; auto.
  destruct ((1 <? length domain 1) || (length domain 2 =? 1)); [auto | discriminate].
Qed.

Lemma R2X_ctor_asserts_mixed cfg domain bc d :
  R2X_domain_ok cfg domain = true ->
  (d < AMREX_SPACEDIM cfg)%nat ->
  exactly_one_periodic (bc_at bc d) = true ->
  R2X.ctor_asserts cfg domain bc = Failed InvalidBoundary.
Proof.
  intros Hdom Hd Hmix. apply R2X_domain_ok_split in Hdom.
  destruct Hdom as (H0 & H1 & H2).
  unfold R2X.ctor_asserts, AMREX_ALWAYS_ASSERT, bind. rewrite H0.
  assert (Hloop :
    for_each (seq 0 (AMREX_SPACEDIM cfg)) (R2X.axis_asserts domain bc)
      = Failed InvalidBoundary).
  { apply for_each_fails_with.
    - intros i Hi. rewrite R2X_axis_asserts_cases, (H2 i Hi).
      destruct (exactly_one_periodic (bc_at bc i)); auto.
    - exists d. split; [apply in_seq; lia |].
      rewrite R2X_axis_asserts_cases, H2, Hmix; [reflexivity | apply in_seq; lia]. }
  destruct (AMREX_SPACEDIM cfg =? 3)%nat; auto.
  rewrite H1; auto.
Qed.

Lemma R2X_ctor_result cfg w domain bc :
  R2X.ctor cfg w domain bc =
    match R2X.ctor_asserts cfg domain bc with
    | Ok _ => Ok (R2X.build cfg w domain bc)
    | Failed e => Failed e
    end.
Proof. reflexivity. Qed.

(** C7.  R2X construction fails for every boundary array in which an axis
    of the build has exactly one periodic end, and, when the domain passes
    the shape assertions, the failure is [InvalidBoundary].  When no axis
    has exactly one periodic end, construction never fails with
    [InvalidBoundary], and it succeeds when the domain passes the shape
    assertions. *)
Theorem R2X_construction_boundary_check cfg w domain bc :
  ((exists d, (d < AMREX_SPACEDIM cfg)%nat
              /\ exactly_one_periodic (bc_at bc d) = true) ->
   is_ok (R2X.ctor cfg w domain bc) = false
   /\ (R2X_domain_ok cfg domain = true ->
       R2X.ctor cfg w domain bc = Failed InvalidBoundary))
  /\ ((forall d, (d < AMREX_SPACEDIM cfg)%nat ->
                 exactly_one_periodic (bc_at bc d) = false) ->
      R2X.ctor cfg w domain bc <> Failed InvalidBoundary
      /\ (R2X_domain_ok cfg domain = true ->
          is_ok (R2X.ctor cfg w domain bc) = true)).
Proof.
  rewrite R2X_ctor_result. split.
  - intros [d [Hd Hmix]]. split.
    + destruct (R2X.ctor_asserts cfg domain bc) as [[]|e] eqn:E; [| reflexivity].
      apply R2X_ctor_asserts_ok in E. destruct E as [_ E].
      rewrite (E d Hd) in Hmix. discriminate.
    + intros Hdom. now rewrite (R2X_ctor_asserts_mixed cfg domain bc d).
  - intros Hnone. split.
    + destruct (R2X.ctor_asserts cfg domain bc) as [[]|e] eqn:E; [discriminate |].
      intros H. inversion H; subst.
      apply R2X_ctor_asserts_boundary in E. destruct E as [d [Hd Hmix]].
      rewrite (Hnone d Hd) in Hmix. discriminate.
    + intros Hdom.
      assert (E : R2X.ctor_asserts cfg domain bc = Ok tt)
        by (apply R2X_ctor_asserts_ok; auto).
      now rewrite E.
Qed.

Lemma R2X_construction_boundary_check_witness :
  (is_ok (R2X.ctor cfg_3d (world 0 2) (domain_of 8 8 4)
            ((periodic, periodic), (periodic, even), (odd, odd))) = false
   /\ R2X.ctor cfg_3d (world 0 2) (domain_of 8 8 4)
        ((periodic, periodic), (periodic, even), (odd, odd))
      = Failed InvalidBoundary)
  /\ is_ok (R2X.ctor cfg_3d (world 0 2) (domain_of 8 8 4)
              ((periodic, periodic), (even, odd), (odd, odd))) = true.
Proof.
  split.
  - pose proof (proj1 (R2X_construction_boundary_check cfg_3d (world 0 2)
                         (domain_of 8 8 4)
                         ((periodic, periodic), (periodic, even), (odd, odd))))
      as H.
    destruct H as [H1 H2].
    + exists 1%nat. split; [simpl; lia | reflexivity].
    + split; [exact H1 | apply H2; reflexivity].
  - apply (proj2 (R2X_construction_boundary_check cfg_3d (world 0 2)
                    (domain_of 8 8 4)
                    ((periodic, periodic), (even, odd), (odd, odd)))).
    + intros d Hd. simpl in Hd.
      destruct d as [|[|[|d]]]; [reflexivity | reflexivity | reflexivity | lia].
    + reflexivity.
Defined.

(** ** Destruction *)

Lemma destroyed_shared (h : VendorPlan) : destroyed_exactly_once (h, h) [h].
Proof.
  unfold destroyed_exactly_once; simpl.
  destruct (Z.eq_dec h h) as [_|N]; [| contradiction].
  repeat split; auto. intros h' [<-|[]]; auto.
Qed.

Lemma destroyed_separate (f b : VendorPlan) :
  b <> f -> destroyed_exactly_once (f, b) [b; f].
Proof.
  intros Hne. unfold destroyed_exactly_once; simpl.
  destruct (Z.eq_dec b f) as [E|_]; [contradiction|].
  destruct (Z.eq_dec f f) as [_|N]; [| contradiction].
  destruct (Z.eq_dec b b) as [_|N]; [| contradiction].
  destruct (Z.eq_dec f b) as [E|_]; [symmetry in E; contradiction|].
  repeat split; auto. intros h [<-|[<-|[]]]; auto.
Qed.

Lemma destroy_pair_cases (f b : Plan) :
  destroyed_exactly_once (plan f, plan b)
    (if negb (Plan_eqb b f) then [plan b; plan f] else [plan f]).
Proof.
  unfold Plan_eqb. destruct (Z.eqb_spec (plan b) (plan f)) as [E|N]; simpl.
  - rewrite E. apply destroyed_shared.
  - now apply destroyed_separate.
Qed.

Ltac run_dtor :=
  unfold when, emit, skip, andThen, trace, outcome, destroyed_on;
  repeat match goal with
  | |- context [negb (Plan_eqb ?b ?f)] => destruct (negb (Plan_eqb b f))
  end; simpl; auto.

Lemma R2C_dtor_axis (e : R2C.t) (a : Axis) :
  destroyed_on a (trace (R2C.dtor e)) =
    let '(f, b) :=
      match a with
      | axis_x => (R2C.m_fft_fwd_x e, R2C.m_fft_bwd_x e)
      | axis_y => (R2C.m_fft_fwd_y e, R2C.m_fft_bwd_y e)
      | axis_z => (R2C.m_fft_fwd_z e, R2C.m_fft_bwd_z e)
      end in
    if negb (Plan_eqb b f) then [plan b; plan f] else [plan f].
Proof. unfold R2C.dtor. destruct a; run_dtor. Qed.

Lemma R2X_dtor_axis (e : R2X.t) (a : Axis) :
  destroyed_on a (trace (R2X.dtor e)) =
    let '(f, b) :=
      match a with
      | axis_x => (R2X.m_fft_fwd_x e, R2X.m_fft_bwd_x e)
      | axis_y => (R2X.m_fft_fwd_y e, R2X.m_fft_bwd_y e)
      | axis_z => (R2X.m_fft_fwd_z e, R2X.m_fft_bwd_z e)
      end in
    if negb (Plan_eqb b f) then [plan b; plan f] else [plan f].
Proof. unfold R2X.dtor. destruct a; run_dtor. Qed.

(** C8.  The destructor of an R2C or R2X engine runs to its end and, for
    each axis, calls [destroy] exactly once on the handle of the forward
    plan and exactly once on the handle of the backward plan, and on no
    other handle: one call when the two plans share a handle, and one call
    on each when they differ. *)
Theorem engines_destroy_each_plan_once :
  (forall (e : R2C.t) (a : Axis),
     outcome (R2C.dtor e) = Ok tt
     /\ destroyed_exactly_once (R2C_handles e a)
          (destroyed_on a (trace (R2C.dtor e)))
     /\ List.length (destroyed_on a (trace (R2C.dtor e))) =
          (if fst (R2C_handles e a) =? snd (R2C_handles e a) then 1%nat else 2%nat))
  /\ (forall (e : R2X.t) (a : Axis),
     outcome (R2X.dtor e) = Ok tt
     /\ destroyed_exactly_once (R2X_handles e a)
          (destroyed_on a (trace (R2X.dtor e)))
     /\ List.length (destroyed_on a (trace (R2X.dtor e))) =
          (if fst (R2X_handles e a) =? snd (R2X_handles e a) then 1%nat else 2%nat)).
Proof.
  split; intros e a; (split; [| split]).
  - unfold R2C.dtor. run_dtor.
  - rewrite R2C_dtor_axis. destruct a; apply destroy_pair_cases.
  - rewrite R2C_dtor_axis. unfold Plan_eqb.
    destruct a; simpl;
      match goal with |- context [?x =? ?y] => rewrite (Z.eqb_sym x y) end;
      match goal with |- context [?x =? ?y] => destruct (x =? y) end;
      reflexivity.
  - unfold R2X.dtor. run_dtor.
  - rewrite R2X_dtor_axis. destruct a; apply destroy_pair_cases.
  - rewrite R2X_dtor_axis. unfold Plan_eqb.
    destruct a; simpl;
      match goal with |- context [?x =? ?y] => rewrite (Z.eqb_sym x y) end;
      match goal with |- context [?x =? ?y] => destruct (x =? y) end;
      reflexivity.
Qed.

(** ** The post-forward step of the R2C engine *)

Lemma callbacks_app t1 t2 : callbacks (t1 ++ t2) = callbacks t1 ++ callbacks t2.
Proof. unfold callbacks. apply flat_map_app. Qed.

Lemma R2C_forward_outcome e : outcome (R2C.forward e) = Ok tt.
Proof.
  unfold R2C.forward. destruct (R2C.m_cmd_x2y e), (R2C.m_cmd_y2z e); reflexivity.
Qed.

Lemma R2C_forward_callbacks e : callbacks (trace (R2C.forward e)) = [].
Proof.
  unfold R2C.forward. destruct (R2C.m_cmd_x2y e), (R2C.m_cmd_y2z e); reflexivity.
Qed.

Lemma R2C_backward_outcome e : outcome (R2C.backward e) = Ok tt.
Proof.
  unfold R2C.backward, R2C.backward_doit.
  destruct (R2C.m_cmd_z2y e), (R2C.m_cmd_y2x e); reflexivity.
Qed.

Lemma R2C_backward_callbacks e : callbacks (trace (R2C.backward e)) = [].
Proof.
  unfold R2C.backward, R2C.backward_doit.
  destruct (R2C.m_cmd_z2y e), (R2C.m_cmd_y2x e); reflexivity.
Qed.

(** C10.  In batch mode [forwardThenBackward] ends with the fatal error of
    the post-forward step: the trace is that of the forward transform, the
    callback is never called and the backward transform does not run. *)
Theorem R2C_batch_mode_forwardThenBackward_aborts w e :
  batch_mode (R2C.m_info e) = true ->
  outcome (R2C.forwardThenBackward w e) = Failed (Abort "xxxxx todo: post_forward")
  /\ callbacks (trace (R2C.forwardThenBackward w e)) = []
  /\ trace (R2C.forwardThenBackward w e) = trace (R2C.forward e).
Proof.
  intros Hb.
  assert (Hpost : R2C.post_forward_doit w e = fatal (Abort "xxxxx todo: post_forward")).
  { unfold R2C.post_forward_doit. now rewrite Hb. }
  assert (Hrest : R2C.post_forward_doit w e >> R2C.backward e
                  = fatal (Abort "xxxxx todo: post_forward")).
  { rewrite Hpost. reflexivity. }
  unfold R2C.forwardThenBackward. rewrite Hrest.
  pose proof (R2C_forward_outcome e) as Hf.
  split; [| split].
  - now rewrite outcome_andThen_ok.
  - rewrite trace_andThen_ok, callbacks_app, R2C_forward_callbacks by assumption.
    reflexivity.
  - rewrite trace_andThen_ok by assumption. simpl. apply app_nil_r.
Qed.

Lemma R2C_batch_mode_forwardThenBackward_aborts_witness :
  R2C.ctor cfg_3d (world 0 2) both (domain_of 8 8 4)
           (setBatchMode Info_default true)
    = Ok (R2C.build cfg_3d (world 0 2) both (domain_of 8 8 4)
                    (setBatchMode Info_default true))
  /\ outcome (R2C.forwardThenBackward (world 0 2)
                (R2C.build cfg_3d (world 0 2) both (domain_of 8 8 4)
                           (setBatchMode Info_default true)))
     = Failed (Abort "xxxxx todo: post_forward")
  /\ callbacks (trace (R2C.forwardThenBackward (world 0 2)
                         (R2C.build cfg_3d (world 0 2) both (domain_of 8 8 4)
                                    (setBatchMode Info_default true)))) = [].
Proof.
  split; [reflexivity |].
  destruct (R2C_batch_mode_forwardThenBackward_aborts (world 0 2)
              (R2C.build cfg_3d (world 0 2) both (domain_of 8 8 4)
                         (setBatchMode Info_default true)))
    as (H1 & H2 & _); [reflexivity |].
  split; [exact H1 | exact H2].
Defined.

Lemma callbacks_ParallelFor b f a :
  (forall i j k,
     f i j k = let '(x, y, z) := spec_canonical a (i, j, k) in
               post_forward x y z a (i, j, k)) ->
  callbacks (trace (ParallelFor b f)) =
    map (fun c => (spec_canonical a c, (a, c))) (cells b).
Proof.
  intros Hf. unfold ParallelFor, trace, callbacks. simpl.
  induction (cells b) as [|[[i j] k] l IH]; simpl; [reflexivity |].
  rewrite Hf, IH.
  destruct (spec_canonical a (i, j, k)) as [[x y] z]. reflexivity.
Qed.

Lemma R2C_post_forward_doit_outcome w e :
  batch_mode (R2C.m_info e) = false ->
  outcome (R2C.post_forward_doit w e) = Ok tt.
Proof.
  intros Hb. unfold R2C.post_forward_doit. rewrite Hb.
  destruct (negb (empty (R2C.m_cz e))); [| destruct (negb (empty (R2C.m_cy e)))];
    match goal with |- context [get_fab ?w ?fa] => destruct (get_fab w fa) end;
    reflexivity.
Qed.

Lemma R2C_spectral_array cfg e :
  fst (R2C.getSpectralData cfg e) =
    if negb (empty (R2C.m_cz e)) then cz
    else if negb (empty (R2C.m_cy e)) then cy
    else cx.
Proof.
  unfold R2C.getSpectralData.
  destruct (negb (empty (R2C.m_cz e))), (negb (empty (R2C.m_cy e))); reflexivity.
Qed.

Lemma R2C_callbacks cfg w e :
  batch_mode (R2C.m_info e) = false ->
  callbacks (trace (R2C.forwardThenBackward w e)) =
    match get_fab w (R2C_array e (fst (R2C.getSpectralData cfg e))) with
    | Some b =>
        map (fun c => (spec_canonical (fst (R2C.getSpectralData cfg e)) c,
                       (fst (R2C.getSpectralData cfg e), c)))
            (cells b)
    | None => []
    end.
Proof.
  intros Hb. unfold R2C.forwardThenBackward.
  rewrite trace_andThen_ok by apply R2C_forward_outcome.
  rewrite trace_andThen_ok by now apply R2C_post_forward_doit_outcome.
  rewrite !callbacks_app, R2C_forward_callbacks, R2C_backward_callbacks, app_nil_r.
  simpl app. rewrite R2C_spectral_array.
  unfold R2C.post_forward_doit. rewrite Hb.
  destruct (negb (empty (R2C.m_cz e))); [| destruct (negb (empty (R2C.m_cy e)))];
    simpl R2C_array;
    match goal with |- context [get_fab ?w ?fa] => destruct (get_fab w fa) end;
    try reflexivity;
    apply callbacks_ParallelFor; intros i j k; reflexivity.
Qed.

(** C5.  Outside batch mode [forwardThenBackward] runs to its end and calls
    the post-forward callback exactly once for each cell of the spectral
    fab this process owns, and for no other cell.  The array is [m_cz] when
    it is not empty (a 3-D transform), else [m_cy] when it is not empty (a
    2-D transform), else [m_cx].  The indices passed are the canonical
    ones: [(jx,ky,iz)] for the cell [(iz,jx,ky)] of [m_cz], [(jx,iy,k)] for
    the cell [(iy,jx,k)] of [m_cy], and the stored indices for [m_cx]. *)
Theorem R2C_callback_once_per_cell_canonical cfg w e :
  batch_mode (R2C.m_info e) = false ->
  outcome (R2C.forwardThenBackward w e) = Ok tt
  /\ fst (R2C.getSpectralData cfg e) =
       (if negb (empty (R2C.m_cz e)) then cz
        else if negb (empty (R2C.m_cy e)) then cy
        else cx)
  /\ (forall b cell,
        get_fab w (R2C_array e (fst (R2C.getSpectralData cfg e))) = Some b ->
        contains b cell ->
        count_occ IntVect_eq_dec
          (map (fun c => snd (snd c))
               (callbacks (trace (R2C.forwardThenBackward w e)))) cell = 1%nat)
  /\ (forall idx a cell,
        In (idx, (a, cell)) (callbacks (trace (R2C.forwardThenBackward w e))) ->
        a = fst (R2C.getSpectralData cfg e)
        /\ idx = spec_canonical a cell
        /\ exists b, get_fab w (R2C_array e a) = Some b /\ contains b cell).
Proof.
  intros Hb. split; [| split; [| split]].
  - unfold R2C.forwardThenBackward.
    rewrite outcome_andThen_ok by apply R2C_forward_outcome.
    rewrite outcome_andThen_ok by now apply R2C_post_forward_doit_outcome.
    apply R2C_backward_outcome.
  - apply R2C_spectral_array.
  - intros b cell Hfab Hin. rewrite (R2C_callbacks cfg) by assumption.
    rewrite Hfab, map_map. simpl. rewrite map_id.
    apply NoDup_count_occ'; [apply NoDup_cells | now apply In_cells].
  - intros idx a cell Hin. rewrite (R2C_callbacks cfg) in Hin by assumption.
    destruct (get_fab w (R2C_array e (fst (R2C.getSpectralData cfg e))))
      as [b|] eqn:Hfab; [| contradiction].
    apply in_map_iff in Hin. destruct Hin as [c [Heq Hc]].
    inversion Heq; subst. repeat split; auto.
    exists b. split; [assumption | now apply In_cells].
Qed.

Lemma R2C_callback_once_per_cell_canonical_witness :
  R2C.ctor cfg_3d (world 0 2) both (domain_of 4 4 2) Info_default
    = Ok (R2C.build cfg_3d (world 0 2) both (domain_of 4 4 2) Info_default)
  /\ outcome (R2C.forwardThenBackward (world 0 2)
                (R2C.build cfg_3d (world 0 2) both (domain_of 4 4 2) Info_default))
     = Ok tt
  /\ fst (R2C.getSpectralData cfg_3d
            (R2C.build cfg_3d (world 0 2) both (domain_of 4 4 2) Info_default))
     = cz
  /\ count_occ IntVect_eq_dec
       (map (fun c => snd (snd c))
            (callbacks (trace (R2C.forwardThenBackward (world 0 2)
               (R2C.build cfg_3d (world 0 2) both (domain_of 4 4 2) Info_default)))))
       (1, 2, 0) = 1%nat.
Proof.
  split; [reflexivity |].
  destruct (R2C_callback_once_per_cell_canonical cfg_3d (world 0 2)
              (R2C.build cfg_3d (world 0 2) both (domain_of 4 4 2) Info_default)
              eq_refl)
    as (H1 & H2 & H3 & _).
  split; [exact H1 | split; [exact H2 |]].
  apply (H3 (Box_of (0, 0, 0) (1, 2, 1))); [reflexivity |].
  intros d Hd. destruct d as [|[|[|d]]]; simpl; lia.
Defined.

(** ** The spectral layout of the R2C engine *)

(** C2 (what the code does).  For an engine of a 2-D or 3-D build whose
    [m_cz] is empty, [getSpectralDataLayout] takes the branch guarded by
    [!!m_cy.empty()] when [m_cy] is empty, not when it holds data: for a
    2-D domain ([m_cy] not empty) it returns the boxes and the distribution
    map of [m_cx] unchanged, and for a 1-D domain ([m_cy] empty) it returns
    the empty box list of [m_cy]. *)
Theorem R2C_getSpectralDataLayout_without_cz cfg e :
  (2 <= AMREX_SPACEDIM cfg)%nat ->
  empty (R2C.m_cz e) = true ->
  (empty (R2C.m_cy e) = false ->
   R2C.getSpectralDataLayout cfg e
     = (boxArray (R2C.m_cx e), DistributionMap (R2C.m_cx e)))
  /\ (empty (R2C.m_cy e) = true ->
      R2C.getSpectralDataLayout cfg e = ([], DistributionMap (R2C.m_cy e))).
Proof.
  intros Hsd Hcz. unfold R2C.getSpectralDataLayout. rewrite Hcz, andb_false_r.
  apply Nat.leb_le in Hsd. rewrite Hsd. simpl.
  split; intros Hcy; rewrite Hcy; simpl; [reflexivity |].
  unfold empty in Hcy. destruct (boxArray (R2C.m_cy e)); [reflexivity | discriminate].
Qed.

Lemma R2C_getSpectralDataLayout_without_cz_witness :
  R2C.ctor cfg_3d (world 0 2) both (domain_of 8 8 1) Info_default
    = Ok (R2C.build cfg_3d (world 0 2) both (domain_of 8 8 1) Info_default)
  /\ fst (R2C.getSpectralDataLayout cfg_3d
            (R2C.build cfg_3d (world 0 2) both (domain_of 8 8 1) Info_default))
     = [Box_of (0, 0, 0) (4, 3, 0); Box_of (0, 4, 0) (4, 7, 0)]
  /\ map R2C.unpermute_y
         (boxArray (R2C.m_cy
            (R2C.build cfg_3d (world 0 2) both (domain_of 8 8 1) Info_default)))
     = [Box_of (0, 0, 0) (1, 7, 0); Box_of (2, 0, 0) (4, 7, 0)].
Proof.
  split; [reflexivity |].
  split; [| reflexivity].
  rewrite (proj1 (R2C_getSpectralDataLayout_without_cz cfg_3d
                    (R2C.build cfg_3d (world 0 2) both (domain_of 8 8 1) Info_default)
                    (le_S _ _ (le_n 2)) eq_refl) eq_refl).
  reflexivity.
Defined.

(** ** The constructed R2X engine *)

Ltac destruct_pair_lets :=
  repeat match goal with
  | |- context [match ?x with _ => _ end] =>
      match type of x with
      | prod _ _ => destruct x
      end
  end.

Lemma R2X_build_dom_0 cfg w domain bc :
  R2X.m_dom_0 (R2X.build cfg w domain bc) = domain.
Proof. unfold R2X.build. destruct_pair_lets. reflexivity. Qed.

Lemma R2X_build_bc cfg w domain bc :
  R2X.m_bc (R2X.build cfg w domain bc) = bc.
Proof. unfold R2X.build. destruct_pair_lets. reflexivity. Qed.

Lemma R2X_ctor_inv cfg w domain bc e :
  R2X.ctor cfg w domain bc = Ok e ->
  R2X.ctor_asserts cfg domain bc = Ok tt
  /\ e = R2X.build cfg w domain bc
  /\ R2X.m_dom_0 e = domain
  /\ R2X.m_bc e = bc.
Proof.
  rewrite R2X_ctor_result.
  destruct (R2X.ctor_asserts cfg domain bc) as [[]|err]; [| discriminate].
  intros H. inversion H; subst.
  auto using R2X_build_dom_0, R2X_build_bc.
Qed.

Lemma R2X_ctor_lengths cfg w domain bc e d :
  R2X.ctor cfg w domain bc = Ok e ->
  (d < AMREX_SPACEDIM cfg)%nat ->
  1 < length domain d.
Proof.
  intros H Hd. apply R2X_ctor_inv in H. destruct H as [H _].
  apply R2X_ctor_asserts_ok in H. destruct H as [H _].
  apply R2X_domain_ok_split in H. destruct H as (_ & _ & H).
  apply Z.ltb_lt, H, in_seq. lia.
Qed.

Lemma R2X_ctor_periodic cfg w domain bc e d :
  R2X.ctor cfg w domain bc = Ok e ->
  (d < AMREX_SPACEDIM cfg)%nat ->
  is_periodic (fst (bc_at bc d)) = axis_periodic (bc_at bc d).
Proof.
  intros H Hd. apply R2X_ctor_inv in H. destruct H as [H _].
  apply R2X_ctor_asserts_ok in H. destruct H as [_ H].
  specialize (H d Hd). unfold exactly_one_periodic, axis_periodic in *.
  destruct (is_periodic (fst (bc_at bc d))), (is_periodic (snd (bc_at bc d)));
    simpl in *; congruence.
Qed.

Lemma quiet_skip : quiet skip.
Proof. split; reflexivity. Qed.

Lemma quiet_ParallelCopy dst src dtos : quiet (emit (ParallelCopy dst src dtos)).
Proof. split; reflexivity. Qed.

Lemma quiet_compute k d m p : quiet (emit (compute k d m p)).
Proof. split; reflexivity. Qed.

Lemma quiet_andThen a b : quiet a -> quiet b -> quiet (a >> b).
Proof.
  intros [Ha Ha'] [Hb Hb']. split.
  - now rewrite outcome_andThen_ok.
  - rewrite trace_andThen_ok, callbacks_app, Ha', Hb' by assumption. reflexivity.
Qed.

Lemma quiet_when c a : quiet a -> quiet (when c a).
Proof. destruct c; simpl; auto using quiet_skip. Qed.

Lemma quiet_if (c : bool) a b : quiet a -> quiet b -> quiet (if c then a else b).
Proof. destruct c; auto. Qed.

Create HintDb runs.
#[local] Hint Resolve quiet_skip quiet_ParallelCopy quiet_compute quiet_andThen
  quiet_when quiet_if : runs.

Lemma callbacks_after_quiet a r :
  quiet a ->
  outcome (a >> r) = outcome r
  /\ callbacks (trace (a >> r)) = callbacks (trace r).
Proof.
  intros [Ha Ha']. split.
  - now apply outcome_andThen_ok.
  - rewrite trace_andThen_ok, callbacks_app, Ha' by assumption. reflexivity.
Qed.

Lemma callbacks_before_quiet r b :
  outcome r = Ok tt -> quiet b ->
  outcome (r >> b) = Ok tt
  /\ callbacks (trace (r >> b)) = callbacks (trace r).
Proof.
  intros Hr [Hb Hb']. split.
  - now rewrite outcome_andThen_ok.
  - rewrite trace_andThen_ok, callbacks_app, Hb', app_nil_r by assumption.
    reflexivity.
Qed.

Lemma R2X_post_forward_doit_callbacks dim a fab :
  outcome (R2X.post_forward_doit dim a fab) = Ok tt
  /\ callbacks (trace (R2X.post_forward_doit dim a fab)) =
       match fab with
       | Some b => map (fun c => (spec_canonical_dim dim c, (a, c))) (cells b)
       | None => []
       end.
Proof.
  unfold R2X.post_forward_doit. destruct fab as [b|]; [| split; reflexivity].
  split; [reflexivity |].
  unfold ParallelFor, trace, callbacks. simpl.
  induction (cells b) as [|[[i j] k] l IH]; simpl; [reflexivity |].
  rewrite IH. destruct dim as [|[|dim]]; reflexivity.
Qed.

Lemma R2X_post_forward_step_outcome cfg w e :
  outcome (R2X.post_forward_step cfg w e) = Ok tt.
Proof.
  unfold R2X.post_forward_step.
  repeat match goal with
  | |- context [if ?c then _ else _] => destruct c
  end; try reflexivity; apply R2X_post_forward_doit_callbacks.
Qed.

Lemma R2X_forwardThenBackward_callbacks cfg w e :
  outcome (R2X.forwardThenBackward cfg w e) = Ok tt
  /\ callbacks (trace (R2X.forwardThenBackward cfg w e))
     = callbacks (trace (R2X.post_forward_step cfg w e)).
Proof.
  unfold R2X.forwardThenBackward.
  repeat match goal with
  | |- outcome (?a >> ?r) = _ /\ callbacks (trace (?a >> ?r)) = _ =>
      lazymatch a with
      | R2X.post_forward_step _ _ _ => fail
      | _ =>
          let H := fresh in
          assert (H : quiet a) by auto 10 with runs;
          destruct (callbacks_after_quiet a r H) as [-> ->]; clear H
      end
  end.
  apply callbacks_before_quiet.
  - apply R2X_post_forward_step_outcome.
  - auto 10 with runs.
Qed.

Lemma R2X_actual_dim cfg w domain bc e :
  R2X.ctor cfg w domain bc = Ok e ->
  R2X.actual_dim cfg e = AMREX_SPACEDIM cfg.
Proof.
  intros H. unfold R2X.actual_dim.
  destruct (R2X_ctor_inv _ _ _ _ _ H) as (_ & _ & -> & _).
  destruct (2 <=? AMREX_SPACEDIM cfg)%nat eqn:E2.
  - apply Nat.leb_le in E2.
    pose proof (R2X_ctor_lengths _ _ _ _ _ 1%nat H ltac:(lia)) as H1.
    destruct (Z.eqb_spec (length domain 1) 1) as [E|_]; [lia |]. simpl.
    destruct (AMREX_SPACEDIM cfg =? 3)%nat eqn:E3; [| reflexivity].
    apply Nat.eqb_eq in E3.
    pose proof (R2X_ctor_lengths _ _ _ _ _ 2%nat H ltac:(lia)) as H2.
    destruct (Z.eqb_spec (length domain 2) 1) as [E|_]; [lia |]. reflexivity.
  - simpl. destruct (AMREX_SPACEDIM cfg =? 3)%nat eqn:E3; [| reflexivity].
    apply Nat.eqb_eq in E3. apply Nat.leb_gt in E2. lia.
Qed.

(** C3 (as amended).  R2X construction succeeds only on a domain that is
    longer than one cell along every axis of the build.  For every
    constructed engine [actual_dim] is the dimension of the build, and
    [forwardThenBackward] runs to its end and calls the post-forward
    callback on the cells of the fab this process owns in the array of the
    last phase, each once, with the indices of the full index space:
    [(j,k,i)] for the stored cell [(i,j,k)] in a 3-D build. *)
Theorem R2X_constructed_engine_is_full_dimensional cfg w domain bc e :
  (1 <= AMREX_SPACEDIM cfg <= 3)%nat ->
  R2X.ctor cfg w domain bc = Ok e ->
  (forall d, (d < AMREX_SPACEDIM cfg)%nat -> 1 < length domain d)
  /\ R2X.actual_dim cfg e = AMREX_SPACEDIM cfg
  /\ outcome (R2X.forwardThenBackward cfg w e) = Ok tt
  /\ callbacks (trace (R2X.forwardThenBackward cfg w e)) =
       match get_fab w (snd (R2X_last_phase cfg e)) with
       | Some b =>
           map (fun c => (spec_canonical_dim (AMREX_SPACEDIM cfg - 1) c,
                          (fst (R2X_last_phase cfg e), c)))
               (cells b)
       | None => []
       end.
Proof.
  intros Hsd H.
  destruct (R2X_forwardThenBackward_callbacks cfg w e) as [Hout Hcb].
  split; [| split; [| split]]; auto.
  - intros d Hd. eapply R2X_ctor_lengths; eauto.
  - eapply R2X_actual_dim; eauto.
  - rewrite Hcb. unfold R2X.post_forward_step, R2X_last_phase.
    rewrite (R2X_actual_dim _ _ _ _ _ H).
    destruct (AMREX_SPACEDIM cfg) as [|[|[|[|n]]]]; try lia; simpl;
      match goal with |- context [empty ?fa] => destruct (empty fa) end;
      simpl; apply R2X_post_forward_doit_callbacks.
Qed.

Lemma R2X_constructed_engine_is_full_dimensional_witness :
  R2X.ctor cfg_3d (world 0 2) (domain_of 4 4 2)
           ((periodic, periodic), (even, odd), (odd, odd))
    = Ok (R2X.build cfg_3d (world 0 2) (domain_of 4 4 2)
                    ((periodic, periodic), (even, odd), (odd, odd)))
  /\ R2X.actual_dim cfg_3d
       (R2X.build cfg_3d (world 0 2) (domain_of 4 4 2)
                  ((periodic, periodic), (even, odd), (odd, odd))) = 3%nat
  /\ callbacks (trace (R2X.forwardThenBackward cfg_3d (world 0 2)
        (R2X.build cfg_3d (world 0 2) (domain_of 4 4 2)
                   ((periodic, periodic), (even, odd), (odd, odd)))))
     = map (fun c => (spec_canonical_dim 2 c, (cz, c)))
           (cells (Box_of (0, 0, 0) (1, 2, 1))).
Proof.
  split; [reflexivity |].
  destruct (R2X_constructed_engine_is_full_dimensional cfg_3d (world 0 2)
              (domain_of 4 4 2) ((periodic, periodic), (even, odd), (odd, odd))
              (R2X.build cfg_3d (world 0 2) (domain_of 4 4 2)
                         ((periodic, periodic), (even, odd), (odd, odd))))
    as (_ & H2 & _ & H4).
  - simpl. lia.
  - reflexivity.
  - split; [exact H2 | exact H4].
Defined.

(** C3, the claim as stated fails: in a 3-D build the domain 8 x 8 x 1 has
    [N0 > 1] and [N2 = 1], and its construction fails on the assertion
    [domain.length(idim) > 1] of the loop over the axes. *)
Lemma R2X_flat_domain_rejected :
  1 < length (domain_of 8 8 1) 0
  /\ length (domain_of 8 8 1) 2 = 1
  /\ R2X.ctor cfg_3d (world 0 1) (domain_of 8 8 1) all_periodic
     = Failed InvalidDomain
  /\ R2X.axis_asserts (domain_of 8 8 1) all_periodic 2 = Failed InvalidDomain.
Proof.
  split; [reflexivity |]. split; [reflexivity |]. split; reflexivity.
Qed.

(** ** The scaling factor *)

Lemma wrap_Long_small x : - 2 ^ 63 <= x <= Long_max -> wrap_Long x = x.
Proof.
  unfold wrap_Long, Long_max. intros H.
  rewrite Z.mod_small; lia.
Qed.

Lemma doubling_loop (p : nat -> bool) (l : list nat) (r0 : Z) :
  0 <= r0 ->
  2 ^ Z.of_nat (List.length l) * r0 <= Long_max ->
  fold_left (fun r idim => if p idim then wrap_Long (r * 2) else r) l r0
    = r0 * 2 ^ Z.of_nat (List.length (filter p l)).
Proof.
  revert r0. induction l as [|x l IH]; intros r0 Hr0 Hmax; simpl.
  - lia.
  - change (List.length (x :: l)) with (S (List.length l)) in Hmax.
    rewrite Nat2Z.inj_succ, Z.pow_succ_r in Hmax by lia.
    assert (Hpow : 1 <= 2 ^ Z.of_nat (List.length l))
      by (apply Z.lt_pred_le, Z.pow_pos_nonneg; lia).
    destruct (p x); cbv beta iota.
    + change (List.length (x :: filter p l)) with (S (List.length (filter p l))).
      rewrite Nat2Z.inj_succ, Z.pow_succ_r by lia.
      rewrite wrap_Long_small by (unfold Long_max in *; nia).
      rewrite IH by nia. ring.
    + apply IH; [assumption | nia].
Qed.

Lemma numPts_spec_cells cfg domain : numPts cfg domain = spec_cells cfg domain.
Proof.
  unfold numPts, spec_cells.
  assert (H : forall l r0,
            fold_left (fun r idim => r * length domain idim) l r0
            = r0 * fold_right (fun d acc => length domain d * acc) 1 l).
  { induction l as [|x l IH]; intros r0; simpl; [ring |]. rewrite IH. ring. }
  rewrite H. ring.
Qed.

Lemma spec_cells_nonneg cfg domain :
  (forall d, (d < AMREX_SPACEDIM cfg)%nat -> 1 < length domain d) ->
  0 <= spec_cells cfg domain.
Proof.
  unfold spec_cells. intros H.
  assert (Hl : forall l, (forall d, In d l -> 1 < length domain d) ->
                         0 <= fold_right (fun d acc => length domain d * acc) 1 l).
  { induction l as [|x l IH]; intros Hin; simpl; [lia |].
    assert (1 < length domain x) by (apply Hin; now left).
    assert (0 <= fold_right (fun d acc => length domain d * acc) 1 l)
      by (apply IH; intros d Hd; apply Hin; now right).
    nia. }
  apply Hl. intros d Hd. apply H. apply in_seq in Hd. lia.
Qed.

(** C1.  For an R2X engine constructed on a domain whose cell count, with
    one doubling per axis, fits a [Long], the integer [r] of
    [scalingFactor] is the number of cells times a factor two for each
    axis that is not periodic and is longer than one cell, and the value
    returned is one over it; in a 3-D build the number of cells is
    [N0 * N1 * N2]. *)
Theorem R2X_scalingFactor_formula cfg w domain bc e :
  R2X.ctor cfg w domain bc = Ok e ->
  2 ^ Z.of_nat (AMREX_SPACEDIM cfg) * spec_cells cfg domain <= Long_max ->
  R2X.scalingFactor_r cfg e = spec_scaling_denominator cfg domain bc
  /\ R2X.scalingFactor cfg e
     = (1 / (IZR (spec_cells cfg domain)
             * 2 ^ List.length (spec_doubled_axes cfg domain bc)))%R
  /\ (AMREX_SPACEDIM cfg = 3%nat ->
      spec_cells cfg domain
      = length domain 0 * length domain 1 * length domain 2).
Proof.
  intros H Hmax.
  assert (Hr : R2X.scalingFactor_r cfg e = spec_scaling_denominator cfg domain bc).
  { unfold R2X.scalingFactor_r, spec_scaling_denominator, spec_doubled_axes.
    destruct (R2X_ctor_inv _ _ _ _ _ H) as (_ & _ & -> & ->).
    rewrite numPts_spec_cells.
    rewrite (doubling_loop
               (fun idim => negb (is_periodic (fst (bc_at bc idim)))
                            && (1 <? length domain idim))).
    - f_equal. f_equal. f_equal. f_equal. apply filter_ext_in.
      intros d Hd. apply in_seq in Hd.
      rewrite (R2X_ctor_periodic _ _ _ _ _ d H) by lia. reflexivity.
    - apply spec_cells_nonneg. intros d Hd. eapply R2X_ctor_lengths; eauto.
    - now rewrite length_seq. }
  split; [exact Hr | split].
  - unfold R2X.scalingFactor. rewrite Hr. unfold spec_scaling_denominator.
    rewrite mult_IZR, <- pow_IZR. reflexivity.
  - intros Hsd. unfold spec_cells. rewrite Hsd. simpl.
    rewrite Z.mul_1_r. ring.
Qed.

Lemma R2X_scalingFactor_formula_witness :
  R2X.scalingFactor_r cfg_3d
    (R2X.build cfg_3d (world 0 2) (domain_of 8 8 4)
               ((periodic, periodic), (even, odd), (odd, odd)))
    = 8 * 8 * 4 * 2 ^ 2
  /\ R2X.scalingFactor cfg_3d
       (R2X.build cfg_3d (world 0 2) (domain_of 8 8 4)
                  ((periodic, periodic), (even, odd), (odd, odd)))
     = (1 / (IZR (8 * 8 * 4) * 2 ^ 2))%R.
Proof.
  destruct (R2X_scalingFactor_formula cfg_3d (world 0 2) (domain_of 8 8 4)
              ((periodic, periodic), (even, odd), (odd, odd))
              (R2X.build cfg_3d (world 0 2) (domain_of 8 8 4)
                         ((periodic, periodic), (even, odd), (odd, odd))))
    as (H1 & H2 & _).
  - reflexivity.
  - vm_compute. discriminate.
  - split; [exact H1 | exact H2].
Defined.

(** ** The symbol of the Poisson solver *)

Lemma fold_left_pointwise {A : Type} (step : (nat -> A) -> nat -> nat -> A)
                          (new : nat -> A -> A) :
  (forall f idim d,
     step f idim d = if (d =? idim)%nat then new idim (f idim) else f d) ->
  forall l f0 d, NoDup l ->
    fold_left step l f0 d
    = if existsb (Nat.eqb d) l then new d (f0 d) else f0 d.
Proof.
  intros Hstep. induction l as [|x l IH]; intros f0 d Hnd; simpl; [reflexivity |].
  inversion Hnd as [|? ? Hx Hl]; subst.
  rewrite IH by assumption. rewrite !Hstep.
  destruct (Nat.eqb_spec d x) as [->|Hne]; simpl.
  - assert (E : existsb (Nat.eqb x) l = false).
    { destruct (existsb (Nat.eqb x) l) eqn:E; [| reflexivity].
      apply existsb_exists in E. destruct E as [y [Hy Hxy]].
      apply Nat.eqb_eq in Hxy. subst. contradiction. }
    rewrite E. reflexivity.
  - reflexivity.
Qed.

Lemma existsb_seq d n : (d < n)%nat -> existsb (Nat.eqb d) (seq 0 n) = true.
Proof.
  intros H. apply existsb_exists. exists d. split.
  - apply in_seq. lia.
  - apply Nat.eqb_refl.
Qed.

Lemma Poisson_ctor_inv cfg w geom bc p :
  Poisson.ctor cfg w geom bc = Ok p ->
  Poisson.m_geom p = geom
  /\ Poisson.m_bc p = bc
  /\ R2X.ctor cfg w (Domain geom) bc = Ok (Poisson.m_r2x p).
Proof.
  unfold Poisson.ctor, bind.
  destruct (R2X.ctor cfg w (Domain geom) bc) as [r2x|err]; [| discriminate].
  intros H. inversion H; subst. auto.
Qed.

Section Symbol.

Context {T : Type} {A : Arithmetic T}.

Lemma Poisson_fac cfg w geom bc p d :
  Poisson.ctor cfg w geom bc = Ok p ->
  (d < AMREX_SPACEDIM cfg)%nat ->
  Poisson.fac cfg p d = computed_fac geom bc d.
Proof.
  intros H Hd. destruct (Poisson_ctor_inv _ _ _ _ _ H) as (Hg & Hb & Hx).
  unfold Poisson.fac. rewrite Hg, Hb.
  rewrite (fold_left_pointwise _
             (fun idim old => if is_periodic (fst (bc_at bc idim))
                              then T_mul old (T_of_Z 2) else old)).
  - rewrite existsb_seq by assumption.
    unfold computed_fac. rewrite <- (R2X_ctor_periodic _ _ _ _ _ d Hx Hd).
    reflexivity.
  - intros f idim d'. unfold upd.
    destruct (is_periodic (fst (bc_at bc idim))); simpl;
      destruct (Nat.eqb_spec d' idim); subst; reflexivity.
  - apply seq_NoDup.
Qed.

Lemma Poisson_offset cfg w geom bc p d :
  Poisson.ctor cfg w geom bc = Ok p ->
  (d < AMREX_SPACEDIM cfg)%nat ->
  Poisson.offset cfg p d = computed_delta (bc_at bc d).
Proof.
  intros H Hd. destruct (Poisson_ctor_inv _ _ _ _ _ H) as (Hg & Hb & Hx).
  unfold Poisson.offset. rewrite Hb.
  rewrite (fold_left_pointwise _
             (fun idim old =>
                let b := bc_at bc idim in
                if Boundary_eqb (fst b) odd && Boundary_eqb (snd b) odd
                then T_of_Z 1
                else if (Boundary_eqb (fst b) odd && Boundary_eqb (snd b) even)
                        || (Boundary_eqb (fst b) even && Boundary_eqb (snd b) odd)
                     then T_half
                     else old)).
  - rewrite existsb_seq by assumption.
    destruct (bc_at bc d) as [[] []]; reflexivity.
  - intros f idim d'. unfold upd.
    destruct (bc_at bc idim) as [[] []]; simpl;
      destruct (Nat.eqb_spec d' idim); subst; reflexivity.
  - apply seq_NoDup.
Qed.

Lemma Poisson_k2 cfg w geom bc p i j k :
  (1 <= AMREX_SPACEDIM cfg <= 3)%nat ->
  Poisson.ctor cfg w geom bc = Ok p ->
  Poisson.k2 cfg p i j k = computed_lambda cfg geom bc i j k.
Proof.
  intros Hsd H.
  pose proof (fun d => Poisson_fac cfg w geom bc p d H) as Hfac.
  pose proof (fun d => Poisson_offset cfg w geom bc p d H) as Hoff.
  destruct (Poisson_ctor_inv _ _ _ _ _ H) as (Hg & _ & _).
  unfold Poisson.k2, computed_lambda, computed_term, AMREX_D_TERM_sum, Poisson.dxfac.
  rewrite Hg.
  destruct (AMREX_SPACEDIM cfg) as [|[|[|[|n]]]] eqn:E; try lia.
  - rewrite Hfac, Hoff by lia. reflexivity.
  - rewrite !Hfac, !Hoff by lia. reflexivity.
  - rewrite !Hfac, !Hoff by lia. reflexivity.
Qed.

End Symbol.

(** Over the real numbers the computed symbol is the [lambda] of the
    specification. *)
Lemma computed_lambda_exact cfg geom bc i j k :
  (1 <= AMREX_SPACEDIM cfg <= 3)%nat ->
  computed_lambda (T := R) cfg geom bc i j k = spec_lambda cfg geom bc i j k.
Proof.
  intros Hsd.
  assert (Hfac : forall d, computed_fac (T := R) geom bc d = spec_fac geom bc d).
  { intros d. unfold computed_fac, spec_fac. simpl.
    destruct (axis_periodic (bc_at bc d)); [| reflexivity].
    unfold Rdiv. ring. }
  assert (Hdel : forall b, computed_delta (T := R) b = spec_delta b).
  { intros [[] []]; reflexivity. }
  assert (Hterm : forall d index,
            computed_term (T := R) geom bc d index
            = (2 / Rsqr (CellSize geom d)
               * (cos (spec_alpha geom bc d index) - 1))%R).
  { intros d index. unfold computed_term, spec_alpha, Rsqr.
    rewrite Hfac, Hdel. reflexivity. }
  unfold computed_lambda, spec_lambda.
  destruct (AMREX_SPACEDIM cfg) as [|[|[|[|n]]]]; try lia;
    rewrite !Hterm; simpl; ring.
Qed.

Lemma T_neqb_exact (x : R) : T_neqb x (T_of_Z 0) = true <-> x <> 0%R.
Proof.
  simpl. destruct (Req_dec_T x 0) as [E | N]; split; intros Hx;
    try reflexivity; try discriminate; try assumption; contradiction.
Qed.

(** C4.  For a solver constructed on a geometry and a boundary array, the
    callback of [solve] computes at the spectral index [(i,j,k)], in the
    arithmetic of its value type, the sum over the axes of
    [(2 / dx_d^2) * (cos(fac_d * (index_d + delta_d)) - 1)].  When the
    computed value compares different from zero the callback divides the
    spectral value by it and multiplies the quotient by the scaling
    factor; otherwise it multiplies the unchanged value by the scaling
    factor.  Over the real numbers the computed value is the [lambda] of
    the specification, the comparison is [lambda <> 0] and the factor is
    the scaling factor of the engine. *)
Theorem Poisson_callback_symbol cfg w geom bc p
        (T : Type) (A : Arithmetic T) (V : Type) (SV : SpectralData T V)
        (i j k : Z) (v : V) :
  (1 <= AMREX_SPACEDIM cfg <= 3)%nat ->
  Poisson.ctor cfg w geom bc = Ok p ->
  Poisson.k2 cfg p i j k = computed_lambda cfg geom bc i j k
  /\ (T_neqb (computed_lambda cfg geom bc i j k) (T_of_Z 0) = true ->
      Poisson.callback cfg p i j k v
      = mul_assign (div_assign v (computed_lambda cfg geom bc i j k))
                   (Poisson.scale cfg p))
  /\ (T_neqb (computed_lambda cfg geom bc i j k) (T_of_Z 0) = false ->
      Poisson.callback cfg p i j k v = mul_assign v (Poisson.scale cfg p))
  /\ computed_lambda (T := R) cfg geom bc i j k = spec_lambda cfg geom bc i j k
  /\ (forall x : R, T_neqb x (T_of_Z 0) = true <-> x <> 0%R)
  /\ Poisson.scale (T := R) cfg p = R2X.scalingFactor cfg (Poisson.m_r2x p).
Proof.
  intros Hsd H.
  pose proof (Poisson_k2 cfg w geom bc p i j k Hsd H) as Hk2.
  split; [exact Hk2 |].
  unfold Poisson.callback. rewrite Hk2.
  split; [intros ->; reflexivity |].
  split; [intros ->; reflexivity |].
  split; [now apply computed_lambda_exact |].
  split; [exact T_neqb_exact | reflexivity].
Qed.

Lemma Poisson_callback_symbol_witness :
  Poisson.ctor cfg_3d (world 0 2) (unit_geometry 4 4 4)
               ((periodic, periodic), (even, odd), (odd, odd))
    = Ok (Poisson.mk (unit_geometry 4 4 4)
            ((periodic, periodic), (even, odd), (odd, odd))
            (R2X.build cfg_3d (world 0 2) (domain_of 4 4 4)
                       ((periodic, periodic), (even, odd), (odd, odd))))
  /\ Poisson.k2 cfg_3d
       (Poisson.mk (unit_geometry 4 4 4)
          ((periodic, periodic), (even, odd), (odd, odd))
          (R2X.build cfg_3d (world 0 2) (domain_of 4 4 4)
                     ((periodic, periodic), (even, odd), (odd, odd))))
       1 0 2
     = spec_lambda cfg_3d (unit_geometry 4 4 4)
         ((periodic, periodic), (even, odd), (odd, odd)) 1 0 2.
Proof.
  split; [reflexivity |].
  destruct (Poisson_callback_symbol cfg_3d (world 0 2) (unit_geometry 4 4 4)
              ((periodic, periodic), (even, odd), (odd, odd))
              (Poisson.mk (unit_geometry 4 4 4)
                 ((periodic, periodic), (even, odd), (odd, odd))
                 (R2X.build cfg_3d (world 0 2) (domain_of 4 4 4)
                            ((periodic, periodic), (even, odd), (odd, odd))))
              R Arithmetic_exact R (SpectralData_real R) 1 0 2 0%R
              ltac:(simpl; lia) eq_refl)
    as (Hk & _ & _ & Hl & _).
  rewrite Hk. exact Hl.
Defined.

(** ** Construction of the hybrid Poisson solver *)

Lemma PoissonHybrid_ctor_is_ok cfg w geom :
  is_ok (PoissonHybrid.ctor cfg w geom) =
    is_ok (R2C.ctor_asserts cfg (Domain geom) (setBatchMode Info_default true))
    && (AMREX_SPACEDIM cfg =? 3)%nat
    && isPeriodic geom 0 && isPeriodic geom 1.
Proof.
  unfold PoissonHybrid.ctor, R2C.ctor, bind, AMREX_ALWAYS_ASSERT.
  destruct (R2C.ctor_asserts cfg (Domain geom) (setBatchMode Info_default true))
    as [[]|err]; [| reflexivity].
  destruct (AMREX_SPACEDIM cfg =? 3)%nat; [| reflexivity].
  destruct (isPeriodic geom 0), (isPeriodic geom 1); reflexivity.
Qed.

Lemma PoissonHybrid_delz_zero p k :
  CellSize (PoissonHybrid.m_geom p) 2 = 0%R -> PoissonHybrid.delz p k = 0%R.
Proof.
  intros H. unfold PoissonHybrid.delz, PoissonHybrid.delzv. rewrite H.
  apply nth_repeat.
Qed.

(** C9 (as amended).  Construction of the hybrid solver succeeds exactly
    when the build is 3-D, the domain passes the assertions of a batch-mode
    R2C engine ([lo = 0], cell centred, [N0 > 1], [N1 > 1], [N2 > 1]) and
    the geometry is periodic along x and y.  The cell sizes are not read:
    the outcome is the same for every cell size and extent, a zero cell
    size along z included, and for a solver so constructed every divisor of
    the off-diagonal coefficients of the tridiagonal rows is zero. *)
Theorem PoissonHybrid_construction_ignores_cell_size cfg w geom :
  (is_ok (PoissonHybrid.ctor cfg w geom) = true <->
   AMREX_SPACEDIM cfg = 3%nat
   /\ smallEnd_is_zero cfg (Domain geom) = true
   /\ cellCentered (Domain geom) = true
   /\ 1 < length (Domain geom) 0
   /\ 1 < length (Domain geom) 1
   /\ 1 < length (Domain geom) 2
   /\ isPeriodic geom 0 = true
   /\ isPeriodic geom 1 = true)
  /\ (forall cell_size prob_length,
        is_ok (PoissonHybrid.ctor cfg w
                 (mkGeometry (Domain geom) cell_size prob_length (isPeriodic geom)))
        = is_ok (PoissonHybrid.ctor cfg w geom))
  /\ (forall p k,
        PoissonHybrid.ctor cfg w geom = Ok p ->
        CellSize geom 2 = 0%R ->
        PoissonHybrid.ald_divisor p k = 0%R
        /\ PoissonHybrid.cud_divisor p k = 0%R).
Proof.
  split; [| split].
  - rewrite PoissonHybrid_ctor_is_ok, !andb_true_iff.
    split.
    + intros [[[Ha Hsd] Hx] Hy].
      destruct (R2C.ctor_asserts cfg (Domain geom) (setBatchMode Info_default true))
        as [[]|err] eqn:E; [| discriminate].
      apply R2C_ctor_asserts_ok in E. rewrite Hsd in E. simpl in E.
      destruct E as (H0 & H1 & H2 & [H3 | H3] & H4); [| discriminate].
      apply Nat.eqb_eq in Hsd. repeat split; auto. lia.
    + intros (Hsd & H0 & H1 & H2 & H3 & H4 & Hx & Hy).
      assert (E : R2C.ctor_asserts cfg (Domain geom)
                    (setBatchMode Info_default true) = Ok tt).
      { apply R2C_ctor_asserts_ok. rewrite Hsd. simpl. auto 10. }
      rewrite E, Hsd. auto.
  - intros cs pl. now rewrite !PoissonHybrid_ctor_is_ok.
  - intros p k H Hz.
    assert (Hg : CellSize (PoissonHybrid.m_geom p) 2 = 0%R).
    { unfold PoissonHybrid.ctor, bind in H.
      destruct (R2C.ctor cfg w both (Domain geom) (setBatchMode Info_default true));
        [| discriminate].
      destruct (if (AMREX_SPACEDIM cfg =? 3)%nat then _ else _); [| discriminate].
      inversion H; subst. exact Hz. }
    unfold PoissonHybrid.ald_divisor, PoissonHybrid.cud_divisor.
    rewrite !PoissonHybrid_delz_zero by assumption.
    split; ring.
Qed.

Lemma PoissonHybrid_construction_ignores_cell_size_witness :
  is_ok (PoissonHybrid.ctor cfg_3d (world 0 2) zero_dz_geometry) = true
  /\ PoissonHybrid.cud_divisor
       (PoissonHybrid.mk zero_dz_geometry
          (R2C.build cfg_3d (world 0 2) both (domain_of 8 8 4)
                     (setBatchMode Info_default true)))
       0 = 0%R.
Proof.
  destruct (PoissonHybrid_construction_ignores_cell_size
              cfg_3d (world 0 2) zero_dz_geometry) as (H1 & _ & H3).
  split.
  - apply H1. repeat split; reflexivity.
  - apply (H3 _ 0); reflexivity.
Defined.

(** C9, the claim as stated fails: the geometry on 8 x 8 x 4 with a zero
    cell size along z is accepted by the constructor. *)
Lemma PoissonHybrid_accepts_zero_dz :
  CellSize zero_dz_geometry 2 = 0%R
  /\ is_ok (PoissonHybrid.ctor cfg_3d (world 0 2) zero_dz_geometry) = true.
Proof.
  split; reflexivity.
Qed.

(** * Further properties of the engines *)

(** ** The arrays of a constructed R2C engine *)

Lemma R2C_build_rx cfg w D domain info :
  R2C.m_rx (R2C.build cfg w D domain info) =
    define (decompose w domain (NProcsSub w) (false, true, true))
           (make_iota_distromap w
              (List.length (decompose w domain (NProcsSub w) (false, true, true)))).
Proof. unfold R2C.build. destruct_pair_lets. reflexivity. Qed.

Lemma R2C_build_cx cfg w D domain info :
  R2C.m_cx (R2C.build cfg w D domain info) =
    define (map (fun b => setBig b 0 (Z.quot (length domain 0) 2))
                (decompose w domain (NProcsSub w) (false, true, true)))
           (make_iota_distromap w
              (List.length (decompose w domain (NProcsSub w) (false, true, true)))).
Proof. unfold R2C.build. destruct_pair_lets. reflexivity. Qed.

Ltac R2C_build_cases cfg domain info :=
  unfold R2C.build;
  destruct ((2 <=? AMREX_SPACEDIM cfg)%nat && (1 <? length domain 1)) eqn:Hcy;
  destruct ((AMREX_SPACEDIM cfg =? 3)%nat
            && ((1 <? length domain 1)
                && (negb (batch_mode info) && (1 <? length domain 2)))) eqn:Hcz;
  cbv beta iota zeta;
  destruct_pair_lets.

Lemma iota_mapped_define_iota w ba :
  iota_mapped w (define ba (make_iota_distromap w (List.length ba))).
Proof. reflexivity. Qed.

Lemma iota_mapped_default w : iota_mapped w FabArray_default.
Proof. reflexivity. Qed.

Lemma iota_mapped_reuse w (ba : BoxArray) (n : nat) :
  iota_mapped w
    (define ba (if (List.length ba =? List.length (make_iota_distromap w n))%nat
                then make_iota_distromap w n
                else make_iota_distromap w (List.length ba))).
Proof.
  unfold iota_mapped, define, size. simpl.
  destruct (Nat.eqb_spec (List.length ba) (List.length (make_iota_distromap w n)))
    as [E|_]; [| reflexivity].
  unfold make_iota_distromap in *. rewrite length_map, length_seq in E.
  now rewrite E.
Qed.

(** X1.  In the R2C engine the constructor builds, every working array has
    the iota distribution map of its own box array: as many ranks as boxes,
    box [i] on the process [local_to_global_rank i], also when the map of
    an earlier array is reused. *)
Theorem R2C_arrays_are_iota_mapped cfg w D domain info :
  iota_mapped w (R2C.m_rx (R2C.build cfg w D domain info))
  /\ iota_mapped w (R2C.m_cx (R2C.build cfg w D domain info))
  /\ iota_mapped w (R2C.m_cy (R2C.build cfg w D domain info))
  /\ iota_mapped w (R2C.m_cz (R2C.build cfg w D domain info)).
Proof.
  R2C_build_cases cfg domain info; simpl R2C.m_rx; simpl R2C.m_cx;
    simpl R2C.m_cy; simpl R2C.m_cz;
    repeat split;
    try apply iota_mapped_define_iota; try apply iota_mapped_default;
    try apply iota_mapped_reuse.
  all: unfold iota_mapped, define, size, make_iota_distromap; simpl;
    repeat match goal with
    | |- context [(?a =? ?b)%nat] => destruct (Nat.eqb_spec a b)
    end;
    rewrite ?length_map, ?length_seq in *; try congruence.
  all: match goal with H : _ = 0%nat |- _ => rewrite H; reflexivity end.
Qed.

(** ** The arrays of a constructed R2X engine *)

Ltac name_pair_lets :=
  repeat match goal with
  | |- context [match ?x with _ => _ end] =>
      match type of x with
      | prod _ _ => let E := fresh "E" in destruct x eqn:E
      end
  end.

Ltac open_eq H :=
  repeat match type of H with
  | (if ?c then _ else _) = _ => destruct c eqn:?
  end;
  inversion H; subst; clear H.

Ltac R2X_build_open :=
  unfold R2X.build; cbv zeta; name_pair_lets; simpl; subst;
  repeat match goal with
  | H : @eq (Plan * Plan) _ _ |- _ => clear H
  end.

Lemma iota_mapped_reuse_dm w ba from :
  iota_mapped w from -> iota_mapped w (define ba (R2X.reuse_dm w ba from)).
Proof.
  unfold iota_mapped, R2X.reuse_dm, define, size. simpl. intros H.
  destruct (Nat.eqb_spec (List.length ba) (List.length (boxArray from))) as [E|_];
    [| reflexivity].
  now rewrite H, E.
Qed.

Lemma iota_mapped_shrink w ba dm (f : Box -> Box) :
  iota_mapped w (define ba dm) -> iota_mapped w (define (map f ba) dm).
Proof.
  unfold iota_mapped, define, size. simpl. now rewrite length_map.
Qed.

(** X2.  In the R2X engine the constructor builds, each of the six working
    arrays has the iota distribution map of its own box array, also when
    it takes over the map of the array it is filled from. *)
Theorem R2X_arrays_are_iota_mapped cfg w domain bc :
  iota_mapped w (R2X.m_rx (R2X.build cfg w domain bc))
  /\ iota_mapped w (R2X.m_ry (R2X.build cfg w domain bc))
  /\ iota_mapped w (R2X.m_rz (R2X.build cfg w domain bc))
  /\ iota_mapped w (R2X.m_cx (R2X.build cfg w domain bc))
  /\ iota_mapped w (R2X.m_cy (R2X.build cfg w domain bc))
  /\ iota_mapped w (R2X.m_cz (R2X.build cfg w domain bc)).
Proof.
  R2X_build_open.
  repeat match goal with
  | H : (if _ then _ else _) = _ |- _ => open_eq H
  end.
  all: repeat split; try reflexivity;
    repeat first [ apply iota_mapped_shrink | apply iota_mapped_reuse_dm ];
    reflexivity.
Qed.

(** ** The spectral layout and the callback indices of the R2C engine *)

Lemma contains_unpermute_z b c :
  contains (R2C.unpermute_z b) (spec_canonical cz c) <-> contains b c.
Proof.
  destruct b as [[[l0 l1] l2] [[h0 h1] h2] cc], c as [[i j] k].
  unfold contains; simpl. split; intros H d Hd.
  - pose proof (H 0%nat ltac:(lia)); pose proof (H 1%nat ltac:(lia));
      pose proof (H 2%nat ltac:(lia)); simpl in *.
    destruct d as [|[|[|d]]]; simpl; lia.
  - pose proof (H 0%nat ltac:(lia)); pose proof (H 1%nat ltac:(lia));
      pose proof (H 2%nat ltac:(lia)); simpl in *.
    destruct d as [|[|[|d]]]; simpl; lia.
Qed.

Lemma contains_unpermute_y b c :
  contains (R2C.unpermute_y b) (spec_canonical cy c) <-> contains b c.
Proof.
  destruct b as [[[l0 l1] l2] [[h0 h1] h2] cc], c as [[i j] k].
  unfold contains; simpl. split; intros H d Hd.
  - pose proof (H 0%nat ltac:(lia)); pose proof (H 1%nat ltac:(lia));
      pose proof (H 2%nat ltac:(lia)); simpl in *.
    destruct d as [|[|[|d]]]; simpl; lia.
  - pose proof (H 0%nat ltac:(lia)); pose proof (H 1%nat ltac:(lia));
      pose proof (H 2%nat ltac:(lia)); simpl in *.
    destruct d as [|[|[|d]]]; simpl; lia.
Qed.

(** X3.  For a 3-D engine outside batch mode whose [m_cz] holds data,
    [getSpectralDataLayout] returns the boxes of [m_cz] unpermuted, box by
    box, with the distribution map of [m_cz]; and the indices the
    post-forward callback of [forwardThenBackward] receives on a process
    are exactly the cells of the box of that process in the returned
    layout. *)
Theorem R2C_layout_matches_callback_indices cfg w e :
  AMREX_SPACEDIM cfg = 3%nat ->
  batch_mode (R2C.m_info e) = false ->
  empty (R2C.m_cz e) = false ->
  R2C.getSpectralDataLayout cfg e
    = (map R2C.unpermute_z (boxArray (R2C.m_cz e)), DistributionMap (R2C.m_cz e))
  /\ (forall b, get_fab w (R2C.m_cz e) = Some b ->
        nth_error (fst (R2C.getSpectralDataLayout cfg e)) (MyProcSub w)
          = Some (R2C.unpermute_z b)
        /\ (forall idx,
              In idx (map fst (callbacks (trace (R2C.forwardThenBackward w e))))
              <-> contains (R2C.unpermute_z b) idx)).
Proof.
  intros Hsd Hb Hcz.
  assert (Hlay : R2C.getSpectralDataLayout cfg e
                 = (map R2C.unpermute_z (boxArray (R2C.m_cz e)),
                    DistributionMap (R2C.m_cz e))).
  { unfold R2C.getSpectralDataLayout. rewrite Hsd, Hcz. reflexivity. }
  split; [exact Hlay |].
  intros b Hfab. split.
  - rewrite Hlay. simpl. unfold get_fab in Hfab.
    rewrite nth_error_map, Hfab. reflexivity.
  - intros idx. rewrite (R2C_callbacks cfg) by assumption.
    rewrite R2C_spectral_array, Hcz. simpl negb. cbv iota.
    simpl R2C_array. rewrite Hfab, map_map. simpl.
    rewrite in_map_iff. split.
    + intros [c [<- Hc]]. apply contains_unpermute_z. now apply In_cells.
    + intros Hin. destruct idx as [[x y] z].
      exists (z, x, y). split; [reflexivity |].
      apply In_cells. now apply (contains_unpermute_z b (z, x, y)).
Qed.

Lemma R2C_layout_matches_callback_indices_witness :
  fst (R2C.getSpectralDataLayout cfg_3d
         (R2C.build cfg_3d (world 0 2) both (domain_of 4 4 2) Info_default))
    = [Box_of (0, 0, 0) (2, 1, 1); Box_of (0, 2, 0) (2, 3, 1)]
  /\ (In (2, 1, 0)
         (map fst (callbacks (trace (R2C.forwardThenBackward (world 0 2)
            (R2C.build cfg_3d (world 0 2) both (domain_of 4 4 2) Info_default)))))
      <-> contains (Box_of (0, 0, 0) (2, 1, 1)) (2, 1, 0)).
Proof.
  destruct (R2C_layout_matches_callback_indices cfg_3d (world 0 2)
              (R2C.build cfg_3d (world 0 2) both (domain_of 4 4 2) Info_default)
              eq_refl eq_refl eq_refl) as [H1 H2].
  split.
  - rewrite H1. reflexivity.
  - apply (proj2 (H2 (Box_of (0, 0, 0) (1, 2, 1)) eq_refl) (2, 1, 0)).
Defined.

(** X4.  In a 3-D build outside batch mode, the permutation
    [getSpectralData] reports describes the callback of
    [forwardThenBackward]: the stored index along the stored axis [d] is
    the callback index along the canonical axis [perm d]. *)
Theorem R2C_getSpectralData_permutation cfg w e idx a cell d :
  AMREX_SPACEDIM cfg = 3%nat ->
  batch_mode (R2C.m_info e) = false ->
  In (idx, (a, cell)) (callbacks (trace (R2C.forwardThenBackward w e))) ->
  (d < 3)%nat ->
  a = fst (R2C.getSpectralData cfg e)
  /\ iv_at idx (Z.to_nat (iv_at (snd (R2C.getSpectralData cfg e)) d)) = iv_at cell d.
Proof.
  intros Hsd Hb Hin Hd.
  rewrite (R2C_callbacks cfg) in Hin by assumption.
  destruct (get_fab w (R2C_array e (fst (R2C.getSpectralData cfg e))))
    as [b|]; [| contradiction].
  apply in_map_iff in Hin. destruct Hin as [c [Heq _]].
  inversion Heq; subst. split; [reflexivity |].
  unfold R2C.getSpectralData, AMREX_D_DECL. rewrite Hsd.
  destruct cell as [[i j] k].
  destruct (negb (empty (R2C.m_cz e))); [| destruct (negb (empty (R2C.m_cy e)))];
    destruct d as [|[|[|d]]]; try lia; reflexivity.
Qed.

Lemma R2C_getSpectralData_permutation_witness :
  iv_at (2, 1, 0)
    (Z.to_nat (iv_at (snd (R2C.getSpectralData cfg_3d
       (R2C.build cfg_3d (world 0 2) both (domain_of 4 4 2) Info_default))) 1))
  = iv_at (0, 2, 1) 1.
Proof.
  apply (R2C_getSpectralData_permutation cfg_3d (world 0 2)
           (R2C.build cfg_3d (world 0 2) both (domain_of 4 4 2) Info_default)
           (2, 1, 0) cz (0, 2, 1) 1%nat eq_refl eq_refl).
  - vm_compute. tauto.
  - lia.
Defined.

(** ** The phases of a constructed R2C engine *)

Lemma empty_define_decompose w b decomp dm :
  decompose_nonempty w ->
  empty (define (decompose w b (NProcsSub w) decomp) dm) = false.
Proof.
  intros H. unfold empty, define. simpl.
  specialize (H b decomp).
  destruct (decompose w b (NProcsSub w) decomp); [contradiction | reflexivity].
Qed.

Lemma empty_define_map w b decomp dm (f : Box -> Box) :
  decompose_nonempty w ->
  empty (define (map f (decompose w b (NProcsSub w) decomp)) dm) = false.
Proof.
  intros H. unfold empty, define. simpl.
  specialize (H b decomp).
  destruct (decompose w b (NProcsSub w) decomp); [contradiction | reflexivity].
Qed.

Lemma R2C_build_phases cfg w D domain info :
  decompose_nonempty w ->
  empty (R2C.m_rx (R2C.build cfg w D domain info)) = false
  /\ empty (R2C.m_cx (R2C.build cfg w D domain info)) = false
  /\ empty (R2C.m_cy (R2C.build cfg w D domain info))
     = negb ((2 <=? AMREX_SPACEDIM cfg)%nat && (1 <? length domain 1))
  /\ empty (R2C.m_cz (R2C.build cfg w D domain info))
     = negb ((AMREX_SPACEDIM cfg =? 3)%nat
             && ((1 <? length domain 1)
                 && (negb (batch_mode info) && (1 <? length domain 2))))
  /\ R2C.m_cmd_x2y (R2C.build cfg w D domain info)
     = negb (empty (R2C.m_cy (R2C.build cfg w D domain info)))
  /\ R2C.m_cmd_y2x (R2C.build cfg w D domain info)
     = R2C.m_cmd_x2y (R2C.build cfg w D domain info)
  /\ R2C.m_cmd_y2z (R2C.build cfg w D domain info)
     = negb (empty (R2C.m_cz (R2C.build cfg w D domain info)))
  /\ R2C.m_cmd_z2y (R2C.build cfg w D domain info)
     = R2C.m_cmd_y2z (R2C.build cfg w D domain info).
Proof.
  intros Hne.
  R2C_build_cases cfg domain info; simpl;
    rewrite ?empty_define_decompose, ?empty_define_map by assumption;
    apply andb_prop in Hcy || apply andb_false_iff in Hcy || idtac;
    repeat match goal with
    | H : _ /\ _ |- _ => destruct H
    | H : ?x = true |- context [?x] => rewrite H
    end;
    simpl; repeat split; try reflexivity.
  all: destruct (AMREX_SPACEDIM cfg) as [|[|[|[|n]]]]; simpl in *;
    try reflexivity; try discriminate.
Qed.

Lemma R2C_ctor_inv cfg w D domain info e :
  R2C.ctor cfg w D domain info = Ok e ->
  R2C.ctor_asserts cfg domain info = Ok tt
  /\ e = R2C.build cfg w D domain info.
Proof.
  unfold R2C.ctor, bind.
  destruct (R2C.ctor_asserts cfg domain info) as [[]|err]; [| discriminate].
  intros H. inversion H. auto.
Qed.

Lemma decompose_slabs_nonempty b n decomp :
  (1 <= n)%nat -> decompose_slabs b n decomp <> [].
Proof.
  intros Hn. unfold decompose_slabs. destruct decomp as [[d0 d1] d2].
  assert (Hs : forall d, (1 <? length b d) = true ->
                         split_axis b d (Nat.min n (Z.to_nat (length b d))) <> []).
  { intros d Hd. apply Z.ltb_lt in Hd. unfold split_axis.
    destruct (Nat.min n (Z.to_nat (length b d))) as [|m] eqn:E; [lia |].
    simpl. discriminate. }
  destruct (d2 && (1 <? length b 2)) eqn:E2;
    [apply andb_prop in E2; apply Hs; tauto |].
  destruct (d1 && (1 <? length b 1)) eqn:E1;
    [apply andb_prop in E1; apply Hs; tauto |].
  destruct (d0 && (1 <? length b 0)) eqn:E0;
    [apply andb_prop in E0; apply Hs; tauto |].
  discriminate.
Qed.

Lemma world_decompose_nonempty myproc n :
  (1 <= n)%nat -> decompose_nonempty (world myproc n).
Proof. intros Hn b decomp. simpl. now apply decompose_slabs_nonempty. Qed.

(** X5.  When [amrex::decompose] returns at least one box, the arrays of
    a constructed R2C engine are in use according to the
    shape alone: [m_rx] and [m_cx] always, [m_cy] exactly when the build
    has a y axis and [N1 > 1], and [m_cz] exactly when the build is 3-D,
    [N1 > 1], [N2 > 1] and batch mode is off.  The comm meta-data of a
    redistribution exists exactly when its target array is in use. *)
Theorem R2C_phases_by_shape cfg w D domain info e :
  decompose_nonempty w ->
  R2C.ctor cfg w D domain info = Ok e ->
  empty (R2C.m_rx e) = false
  /\ empty (R2C.m_cx e) = false
  /\ empty (R2C.m_cy e)
     = negb ((2 <=? AMREX_SPACEDIM cfg)%nat && (1 <? length domain 1))
  /\ empty (R2C.m_cz e)
     = negb ((AMREX_SPACEDIM cfg =? 3)%nat
             && ((1 <? length domain 1)
                 && (negb (batch_mode info) && (1 <? length domain 2))))
  /\ R2C.m_cmd_x2y e = negb (empty (R2C.m_cy e))
  /\ R2C.m_cmd_y2x e = R2C.m_cmd_x2y e
  /\ R2C.m_cmd_y2z e = negb (empty (R2C.m_cz e))
  /\ R2C.m_cmd_z2y e = R2C.m_cmd_y2z e.
Proof.
  intros Hne H. apply R2C_ctor_inv in H. destruct H as [_ ->].
  now apply R2C_build_phases.
Qed.

Lemma R2C_phases_by_shape_witness :
  empty (R2C.m_cy (R2C.build cfg_3d (world 0 2) both (domain_of 8 8 4)
                             (setBatchMode Info_default true))) = false
  /\ empty (R2C.m_cz (R2C.build cfg_3d (world 0 2) both (domain_of 8 8 4)
                                (setBatchMode Info_default true))) = true
  /\ empty (R2C.m_cz (R2C.build cfg_3d (world 0 2) both (domain_of 8 8 4)
                                Info_default)) = false.
Proof.
  destruct (R2C_phases_by_shape cfg_3d (world 0 2) both (domain_of 8 8 4)
              (setBatchMode Info_default true) _
              (world_decompose_nonempty 0 2 (le_S _ _ (le_n 1))) eq_refl)
    as (_ & _ & H1 & H2 & _).
  destruct (R2C_phases_by_shape cfg_3d (world 0 2) both (domain_of 8 8 4)
              Info_default _
              (world_decompose_nonempty 0 2 (le_S _ _ (le_n 1))) eq_refl)
    as (_ & _ & _ & H3 & _).
  split; [exact H1 | split; [exact H2 | exact H3]].
Defined.

Lemma R2C_build_plans cfg w D domain info :
  (R2C.m_fft_fwd_y (R2C.build cfg w D domain info),
   R2C.m_fft_bwd_y (R2C.build cfg w D domain info))
  = (if (2 <=? AMREX_SPACEDIM cfg)%nat
        && negb (empty (R2C.m_cy (R2C.build cfg w D domain info)))
     then R2C.make_c2c_plans cfg w D (R2C.m_cy (R2C.build cfg w D domain info))
     else (Plan_default, Plan_default))
  /\ (R2C.m_fft_fwd_z (R2C.build cfg w D domain info),
      R2C.m_fft_bwd_z (R2C.build cfg w D domain info))
     = (if (AMREX_SPACEDIM cfg =? 3)%nat
           && negb (empty (R2C.m_cz (R2C.build cfg w D domain info)))
        then R2C.make_c2c_plans cfg w D (R2C.m_cz (R2C.build cfg w D domain info))
        else (Plan_default, Plan_default)).
Proof.
  unfold R2C.build. cbv zeta. name_pair_lets. simpl. subst.
  split; symmetry; assumption.
Qed.

Lemma PoissonHybrid_ctor_inv cfg w geom p :
  PoissonHybrid.ctor cfg w geom = Ok p ->
  AMREX_SPACEDIM cfg = 3%nat
  /\ R2C.ctor_asserts cfg (Domain geom) (setBatchMode Info_default true) = Ok tt
  /\ PoissonHybrid.m_geom p = geom
  /\ PoissonHybrid.m_r2c p
     = R2C.build cfg w both (Domain geom) (setBatchMode Info_default true).
Proof.
  unfold PoissonHybrid.ctor, bind.
  destruct (R2C.ctor cfg w both (Domain geom) (setBatchMode Info_default true))
    as [r2c|err] eqn:E; [| discriminate].
  apply R2C_ctor_inv in E. destruct E as [E ->].
  destruct (AMREX_SPACEDIM cfg =? 3)%nat eqn:Hsd; [| discriminate].
  apply Nat.eqb_eq in Hsd.
  destruct (AMREX_ALWAYS_ASSERT InvalidBoundary
              (isPeriodic geom 0 && isPeriodic geom 1)); [| discriminate].
  intros H. inversion H. auto.
Qed.

(** X6.  A hybrid solver constructed where [amrex::decompose] returns at
    least one box transforms along x and y only.  Its engine reports the
    spectral data in [m_cy] with the axis order [(1,0,2)]; [solve] runs
    [forward(rhs, spmf)] and [backward(spmf, soln)] to their ends, without
    the fatal error of the post-forward step: the z plans are the null
    plans, no data moves between the y and z layouts, and the spectrum
    leaves and re-enters the engine through [m_cy] with the swap of the
    first two axes. *)
Theorem PoissonHybrid_solve_transforms_trace cfg w geom p :
  decompose_nonempty w ->
  PoissonHybrid.ctor cfg w geom = Ok p ->
  R2C.getSpectralData cfg (PoissonHybrid.m_r2c p) = (cy, (1, 0, 2))
  /\ PoissonHybrid_solve_transforms p =
     ([ParallelCopy rx user_in Identity;
       compute r2c forward (fft_fwd axis_x) (R2C.m_fft_fwd_x (PoissonHybrid.m_r2c p));
       ParallelCopy cy cx Swap01;
       compute c2c forward (fft_fwd axis_y) (R2C.m_fft_fwd_y (PoissonHybrid.m_r2c p));
       compute c2c forward (fft_fwd axis_z) Plan_default;
       ParallelCopy user_spectral cy Swap01;
       ParallelCopy cy user_spectral Swap01;
       compute c2c backward (fft_bwd axis_z) Plan_default;
       compute c2c backward (fft_bwd axis_y) (R2C.m_fft_bwd_y (PoissonHybrid.m_r2c p));
       ParallelCopy cx cy Swap01;
       compute r2c backward (fft_bwd axis_x) (R2C.m_fft_bwd_x (PoissonHybrid.m_r2c p));
       ParallelCopy user_out rx Identity],
      Ok tt).
Proof.
  intros Hne H.
  destruct (PoissonHybrid_ctor_inv _ _ _ _ H) as (Hsd & Ha & _ & He).
  apply R2C_ctor_asserts_ok in Ha. rewrite Hsd in Ha. simpl in Ha.
  destruct Ha as (_ & _ & _ & [H2 | H2] & [H1 | H1]);
    try discriminate; try lia.
  apply Z.ltb_lt in H1, H2.
  destruct (R2C_build_phases cfg w both (Domain geom)
              (setBatchMode Info_default true) Hne)
    as (_ & _ & Hcy & Hcz & Hx2y & Hy2x & Hy2z & Hz2y).
  destruct (R2C_build_plans cfg w both (Domain geom)
              (setBatchMode Info_default true)) as [_ Hz].
  rewrite <- He in *. clear He.
  rewrite Hsd, H1, H2 in *. simpl in Hcy, Hcz.
  rewrite Hcz in Hz, Hy2z. simpl in Hz, Hy2z.
  assert (Hfz : R2C.m_fft_fwd_z (PoissonHybrid.m_r2c p) = Plan_default)
    by exact (f_equal fst Hz).
  assert (Hbz : R2C.m_fft_bwd_z (PoissonHybrid.m_r2c p) = Plan_default)
    by exact (f_equal snd Hz).
  rewrite Hy2z in Hz2y. rewrite Hcy in Hx2y. simpl in Hx2y. rewrite Hx2y in Hy2x.
  split.
  - unfold R2C.getSpectralData, AMREX_D_DECL. rewrite Hcz, Hcy, Hsd. reflexivity.
  - unfold PoissonHybrid_solve_transforms, R2C.forward_out, R2C.backward_in,
      R2C.forward, R2C.backward_doit.
    rewrite Hcz, Hcy, Hx2y, Hy2x, Hy2z, Hz2y, Hfz, Hbz. reflexivity.
Qed.

Lemma PoissonHybrid_solve_transforms_trace_witness :
  R2C.getSpectralData cfg_3d
    (R2C.build cfg_3d (world 0 2) both (domain_of 8 8 4)
               (setBatchMode Info_default true)) = (cy, (1, 0, 2))
  /\ outcome (PoissonHybrid_solve_transforms
                (PoissonHybrid.mk (unit_geometry 8 8 4)
                   (R2C.build cfg_3d (world 0 2) both (domain_of 8 8 4)
                              (setBatchMode Info_default true)))) = Ok tt.
Proof.
  destruct (PoissonHybrid_solve_transforms_trace cfg_3d (world 0 2)
              (unit_geometry 8 8 4)
              (PoissonHybrid.mk (unit_geometry 8 8 4)
                 (R2C.build cfg_3d (world 0 2) both (domain_of 8 8 4)
                            (setBatchMode Info_default true)))
              (world_decompose_nonempty 0 2 (le_S _ _ (le_n 1))) eq_refl)
    as [H1 H2].
  split; [exact H1 |]. rewrite H2. reflexivity.
Defined.

(** ** Backward undoes forward, step by step *)

Lemma steps_app t1 t2 : steps (t1 ++ t2) = steps t1 ++ steps t2.
Proof. unfold steps. apply flat_map_app. Qed.

Lemma R2C_build_cmd_sym cfg w D domain info :
  R2C.m_cmd_y2x (R2C.build cfg w D domain info)
    = R2C.m_cmd_x2y (R2C.build cfg w D domain info)
  /\ R2C.m_cmd_z2y (R2C.build cfg w D domain info)
     = R2C.m_cmd_y2z (R2C.build cfg w D domain info).
Proof. unfold R2C.build. destruct_pair_lets. split; reflexivity. Qed.

(** X7.  In the engine the R2C constructor builds, the backward transform
    undoes the forward transform step by step: its kernels and
    redistributions are those of the forward transform in the opposite
    order, each kernel in the backward direction on the backward plan of
    the same axis and each redistribution between the same two arrays in
    the opposite direction. *)
Theorem R2C_backward_mirrors_forward cfg w D domain info :
  steps (trace (R2C.backward (R2C.build cfg w D domain info)))
  = rev (map mirror_step
             (steps (trace (R2C.forward (R2C.build cfg w D domain info))))).
Proof.
  destruct (R2C_build_cmd_sym cfg w D domain info) as [Hy Hz].
  unfold R2C.backward, R2C.backward_doit, R2C.forward.
  rewrite Hy, Hz.
  destruct (R2C.m_cmd_x2y (R2C.build cfg w D domain info)),
           (R2C.m_cmd_y2z (R2C.build cfg w D domain info)); reflexivity.
Qed.

Lemma R2X_build_cmd_sym cfg w domain bc :
  R2X.m_cmd_cy2cx (R2X.build cfg w domain bc)
    = R2X.m_cmd_cx2cy (R2X.build cfg w domain bc)
  /\ R2X.m_cmd_ry2rx (R2X.build cfg w domain bc)
     = R2X.m_cmd_rx2ry (R2X.build cfg w domain bc)
  /\ R2X.m_cmd_cz2cy (R2X.build cfg w domain bc)
     = R2X.m_cmd_cy2cz (R2X.build cfg w domain bc)
  /\ R2X.m_cmd_rz2ry (R2X.build cfg w domain bc)
     = R2X.m_cmd_ry2rz (R2X.build cfg w domain bc).
Proof. unfold R2X.build. destruct_pair_lets. repeat split; reflexivity. Qed.

Lemma R2X_post_forward_doit_steps dim a fab :
  steps (trace (R2X.post_forward_doit dim a fab)) = [].
Proof.
  unfold R2X.post_forward_doit. destruct fab as [b|]; [| reflexivity].
  unfold ParallelFor, trace, steps. simpl.
  induction (cells b) as [|[[i j] k] l IH]; simpl; [reflexivity |].
  destruct dim as [|[|dim]]; simpl; exact IH.
Qed.

Lemma R2X_post_forward_step_steps cfg w e :
  steps (trace (R2X.post_forward_step cfg w e)) = [].
Proof.
  unfold R2X.post_forward_step.
  repeat match goal with
  | |- context [if ?c then _ else _] => destruct c
  end; try reflexivity; apply R2X_post_forward_doit_steps.
Qed.

(** X8.  In the engine the R2X constructor builds, [forwardThenBackward]
    is symmetric about the post-forward step: read from the end, its
    kernels and redistributions are the mirror images of those read from
    the start, so each axis is transformed back with the kernel flavour it
    was transformed with and each redistribution is undone between the same
    two arrays. *)
Theorem R2X_forwardThenBackward_is_mirror_symmetric cfg w domain bc :
  steps (trace (R2X.forwardThenBackward cfg w (R2X.build cfg w domain bc)))
  = rev (map mirror_step
             (steps (trace (R2X.forwardThenBackward cfg w
                              (R2X.build cfg w domain bc))))).
Proof.
  destruct (R2X_build_cmd_sym cfg w domain bc) as (H1 & H2 & H3 & H4).
  pose proof (R2X_post_forward_step_outcome cfg w (R2X.build cfg w domain bc)) as Ho.
  pose proof (R2X_post_forward_step_steps cfg w (R2X.build cfg w domain bc)) as Hs.
  unfold R2X.forwardThenBackward. rewrite H1, H2, H3, H4.
  destruct (R2X.post_forward_step cfg w (R2X.build cfg w domain bc))
    as [tp [[]|err]]; [| discriminate]. simpl in Hs.
  generalize dependent (R2X.build cfg w domain bc). intros e.
  destruct (is_periodic (fst (bc_at (R2X.m_bc e) 0))),
           (is_periodic (fst (bc_at (R2X.m_bc e) 1))),
           (is_periodic (fst (bc_at (R2X.m_bc e) 2))),
           (2 <=? AMREX_SPACEDIM cfg)%nat, (AMREX_SPACEDIM cfg =? 3)%nat,
           (R2X.m_cmd_cx2cy e), (R2X.m_cmd_rx2ry e),
           (R2X.m_cmd_cy2cz e), (R2X.m_cmd_ry2rz e);
    simpl; rewrite ?steps_app; simpl;
    rewrite ?map_app, ?rev_app_distr; simpl;
    repeat (rewrite steps_app; simpl);
    rewrite ?Hs; reflexivity.
Qed.

(** ** The execution paths of a constructed R2X engine *)

Lemma empty_default : empty FabArray_default = true.
Proof. reflexivity. Qed.

Lemma R2X_build_paths cfg w domain bc :
  decompose_nonempty w ->
  AMREX_SPACEDIM cfg = 3%nat ->
  (1 <? length domain 1) = true ->
  (1 <? length domain 2) = true ->
  empty (R2X.m_rx (R2X.build cfg w domain bc)) = false
  /\ empty (R2X.m_cx (R2X.build cfg w domain bc))
     = negb (is_periodic (fst (bc_at bc 0)))
  /\ empty (R2X.m_ry (R2X.build cfg w domain bc))
     = is_periodic (fst (bc_at bc 0))
  /\ empty (R2X.m_cy (R2X.build cfg w domain bc))
     = negb (is_periodic (fst (bc_at bc 0)) || is_periodic (fst (bc_at bc 1)))
  /\ empty (R2X.m_rz (R2X.build cfg w domain bc))
     = is_periodic (fst (bc_at bc 0)) || is_periodic (fst (bc_at bc 1))
  /\ empty (R2X.m_cz (R2X.build cfg w domain bc))
     = negb (is_periodic (fst (bc_at bc 0)) || is_periodic (fst (bc_at bc 1))
             || is_periodic (fst (bc_at bc 2))).
Proof.
  intros Hne Hsd H1 H2.
  R2X_build_open. rewrite Hsd, H1, H2 in *. simpl in *.
  repeat match goal with
  | H : (if _ then _ else _) = _ |- _ => open_eq H
  end;
  rewrite ?empty_define_decompose, ?empty_define_map, ?empty_default in *
    by assumption;
  try discriminate; simpl; repeat split; try reflexivity;
  rewrite ?empty_define_decompose, ?empty_define_map by assumption;
  reflexivity.
Qed.

Lemma R2X_build_plans cfg w domain bc :
  (R2X.m_fft_fwd_x (R2X.build cfg w domain bc),
   R2X.m_fft_bwd_x (R2X.build cfg w domain bc))
  = R2X.on_owner w (R2X.m_rx (R2X.build cfg w domain bc))
      (fun box => if is_periodic (fst (bc_at bc 0)) then R2X.r2c_plans cfg w box
                  else R2X.r2r_plans cfg w box (bc_at bc 0))
  /\ (R2X.m_fft_fwd_y (R2X.build cfg w domain bc),
      R2X.m_fft_bwd_y (R2X.build cfg w domain bc))
     = (if (2 <=? AMREX_SPACEDIM cfg)%nat then
          if empty (R2X.m_ry (R2X.build cfg w domain bc))
             && is_periodic (fst (bc_at bc 1)) then
            R2X.on_owner w (R2X.m_cy (R2X.build cfg w domain bc)) (R2X.c2c_plans cfg w)
          else if negb (empty (R2X.m_ry (R2X.build cfg w domain bc)))
                  && is_periodic (fst (bc_at bc 1)) then
            R2X.on_owner w (R2X.m_ry (R2X.build cfg w domain bc)) (R2X.r2c_plans cfg w)
          else if negb (empty (R2X.m_cy (R2X.build cfg w domain bc))) then
            R2X.on_owner w (R2X.m_cy (R2X.build cfg w domain bc))
              (fun box => R2X.r2r_plans cfg w box (bc_at bc 1))
          else
            R2X.on_owner w (R2X.m_ry (R2X.build cfg w domain bc))
              (fun box => R2X.r2r_plans cfg w box (bc_at bc 1))
        else (Plan_default, Plan_default))
  /\ (R2X.m_fft_fwd_z (R2X.build cfg w domain bc),
      R2X.m_fft_bwd_z (R2X.build cfg w domain bc))
     = (if (AMREX_SPACEDIM cfg =? 3)%nat then
          if empty (R2X.m_rz (R2X.build cfg w domain bc))
             && is_periodic (fst (bc_at bc 2)) then
            R2X.on_owner w (R2X.m_cz (R2X.build cfg w domain bc)) (R2X.c2c_plans cfg w)
          else if negb (empty (R2X.m_rz (R2X.build cfg w domain bc)))
                  && is_periodic (fst (bc_at bc 2)) then
            R2X.on_owner w (R2X.m_rz (R2X.build cfg w domain bc)) (R2X.r2c_plans cfg w)
          else if negb (empty (R2X.m_cz (R2X.build cfg w domain bc))) then
            R2X.on_owner w (R2X.m_cz (R2X.build cfg w domain bc))
              (fun box => R2X.r2r_plans cfg w box (bc_at bc 2))
          else
            R2X.on_owner w (R2X.m_rz (R2X.build cfg w domain bc))
              (fun box => R2X.r2r_plans cfg w box (bc_at bc 2))
        else (Plan_default, Plan_default)).
Proof.
  unfold R2X.build. cbv zeta. name_pair_lets. simpl. subst.
  repeat split; symmetry; assumption.
Qed.

(** X9.  A 3-D R2X engine constructed where [amrex::decompose] returns at
    least one box holds its data in real arrays up to the first periodic
    axis and in complex arrays from it on: [m_cx] is in use exactly when
    the x axis is periodic, [m_cy] when x or y is, [m_cz] when any axis is;
    [m_ry] is in use exactly when x is not periodic and [m_rz] when neither
    x nor y is.  The array the callback works on is [m_cz] when some axis
    is periodic and [m_rz] otherwise. *)
Theorem R2X_paths_by_periodicity cfg w domain bc e :
  decompose_nonempty w ->
  AMREX_SPACEDIM cfg = 3%nat ->
  R2X.ctor cfg w domain bc = Ok e ->
  empty (R2X.m_rx e) = false
  /\ empty (R2X.m_cx e) = negb (is_periodic (fst (bc_at bc 0)))
  /\ empty (R2X.m_ry e) = is_periodic (fst (bc_at bc 0))
  /\ empty (R2X.m_cy e)
     = negb (is_periodic (fst (bc_at bc 0)) || is_periodic (fst (bc_at bc 1)))
  /\ empty (R2X.m_rz e)
     = is_periodic (fst (bc_at bc 0)) || is_periodic (fst (bc_at bc 1))
  /\ empty (R2X.m_cz e)
     = negb (is_periodic (fst (bc_at bc 0)) || is_periodic (fst (bc_at bc 1))
             || is_periodic (fst (bc_at bc 2)))
  /\ fst (R2X_last_phase cfg e)
     = (if is_periodic (fst (bc_at bc 0)) || is_periodic (fst (bc_at bc 1))
           || is_periodic (fst (bc_at bc 2))
        then cz else rz).
Proof.
  intros Hne Hsd H.
  pose proof (R2X_ctor_lengths _ _ _ _ _ 1%nat H ltac:(lia)) as H1.
  pose proof (R2X_ctor_lengths _ _ _ _ _ 2%nat H ltac:(lia)) as H2.
  apply Z.ltb_lt in H1, H2.
  destruct (R2X_ctor_inv _ _ _ _ _ H) as (_ & -> & _ & _).
  destruct (R2X_build_paths cfg w domain bc Hne Hsd H1 H2)
    as (Hrx & Hcx & Hry & Hcy & Hrz & Hcz).
  repeat split; try assumption.
  unfold R2X_last_phase. rewrite Hsd, Hcz.
  destruct (is_periodic (fst (bc_at bc 0)) || is_periodic (fst (bc_at bc 1))
            || is_periodic (fst (bc_at bc 2))); reflexivity.
Qed.

Lemma R2X_paths_by_periodicity_witness :
  empty (R2X.m_cx (R2X.build cfg_3d (world 0 2) (domain_of 4 4 2)
                             ((even, even), (periodic, periodic), (odd, odd))))
    = true
  /\ empty (R2X.m_cy (R2X.build cfg_3d (world 0 2) (domain_of 4 4 2)
                                ((even, even), (periodic, periodic), (odd, odd))))
     = false
  /\ empty (R2X.m_rz (R2X.build cfg_3d (world 0 2) (domain_of 4 4 2)
                                ((even, even), (periodic, periodic), (odd, odd))))
     = true.
Proof.
  destruct (R2X_paths_by_periodicity cfg_3d (world 0 2) (domain_of 4 4 2)
              ((even, even), (periodic, periodic), (odd, odd)) _
              (world_decompose_nonempty 0 2 (le_S _ _ (le_n 1))) eq_refl eq_refl)
    as (_ & H1 & _ & H2 & H3 & _).
  split; [exact H1 | split; [exact H2 | exact H3]].
Defined.

Lemma kernels_app t1 t2 : kernels (t1 ++ t2) = kernels t1 ++ kernels t2.
Proof. unfold kernels. apply flat_map_app. Qed.

Lemma R2X_post_forward_doit_kernels dim a fab :
  kernels (trace (R2X.post_forward_doit dim a fab)) = [].
Proof.
  unfold R2X.post_forward_doit. destruct fab as [b|]; [| reflexivity].
  unfold ParallelFor, trace, kernels. simpl.
  induction (cells b) as [|[[i j] k] l IH]; simpl; [reflexivity |].
  destruct dim as [|[|dim]]; simpl; exact IH.
Qed.

Lemma R2X_post_forward_step_kernels cfg w e :
  kernels (trace (R2X.post_forward_step cfg w e)) = [].
Proof.
  unfold R2X.post_forward_step.
  repeat match goal with
  | |- context [if ?c then _ else _] => destruct c
  end; try reflexivity; apply R2X_post_forward_doit_kernels.
Qed.

(** The kernels of [forwardThenBackward] in a 3-D build. *)
Lemma R2X_forwardThenBackward_kernels cfg w e :
  AMREX_SPACEDIM cfg = 3%nat ->
  kernels (trace (R2X.forwardThenBackward cfg w e))
  = map (fun a => (R2X_kernel e a, forward, fft_fwd a, R2X_plan e (fft_fwd a)))
        [axis_x; axis_y; axis_z]
    ++ map (fun a => (R2X_kernel e a, backward, fft_bwd a, R2X_plan e (fft_bwd a)))
           [axis_z; axis_y; axis_x].
Proof.
  intros Hsd.
  pose proof (R2X_post_forward_step_outcome cfg w e) as Ho.
  pose proof (R2X_post_forward_step_kernels cfg w e) as Hk.
  unfold R2X.forwardThenBackward, R2X_kernel. rewrite Hsd.
  destruct (R2X.post_forward_step cfg w e) as [tp [[]|err]]; [| discriminate].
  simpl in Hk.
  destruct (is_periodic (fst (bc_at (R2X.m_bc e) 0))),
           (is_periodic (fst (bc_at (R2X.m_bc e) 1))),
           (is_periodic (fst (bc_at (R2X.m_bc e) 2))),
           (R2X.m_cmd_cx2cy e), (R2X.m_cmd_rx2ry e),
           (R2X.m_cmd_cy2cz e), (R2X.m_cmd_ry2rz e),
           (R2X.m_cmd_cz2cy e), (R2X.m_cmd_rz2ry e),
           (R2X.m_cmd_cy2cx e), (R2X.m_cmd_ry2rx e);
    simpl; repeat (rewrite kernels_app; simpl); rewrite ?Hk; reflexivity.
Qed.

Lemma on_owner_plans_created cfg w fa k b :
  R2X.on_owner w fa
    (match k with
     | r2c => R2X.r2c_plans cfg w
     | c2c => R2X.c2c_plans cfg w
     | r2r => fun box => R2X.r2r_plans cfg w box b
     end)
  = if (MyProcSub w <? size fa)%nat
    then plans_created cfg w k b (box fa (MyProcSub w))
    else (Plan_default, Plan_default).
Proof.
  unfold R2X.on_owner. destruct (MyProcSub w <? size fa)%nat; [| reflexivity].
  destruct k; reflexivity.
Qed.

(** The plans of each axis of a 3-D engine whose arrays are in use as its
    boundary array has them. *)
Lemma R2X_build_plans_created cfg w domain bc (a : Axis) :
  decompose_nonempty w ->
  AMREX_SPACEDIM cfg = 3%nat ->
  (1 <? length domain 1) = true ->
  (1 <? length domain 2) = true ->
  (R2X_plan (R2X.build cfg w domain bc) (fft_fwd a),
   R2X_plan (R2X.build cfg w domain bc) (fft_bwd a))
  = if (MyProcSub w <? size (R2X_plan_array (R2X.build cfg w domain bc) a))%nat
    then plans_created cfg w (R2X_kernel (R2X.build cfg w domain bc) a)
                       (bc_at bc (axis_index a))
                       (box (R2X_plan_array (R2X.build cfg w domain bc) a)
                            (MyProcSub w))
    else (Plan_default, Plan_default).
Proof.
  intros Hne Hsd H1 H2.
  destruct (R2X_build_paths cfg w domain bc Hne Hsd H1 H2)
    as (_ & _ & Hry & Hcy & Hrz & Hcz).
  destruct (R2X_build_plans cfg w domain bc) as (Px & Py & Pz).
  pose proof (R2X_build_bc cfg w domain bc) as Hbc.
  rewrite Hsd, Hry, Hcy in Py. rewrite Hsd, Hrz, Hcz in Pz.
  rewrite <- on_owner_plans_created.
  unfold R2X_kernel, R2X_plan_array. rewrite Hbc.
  destruct a; simpl R2X_plan; simpl axis_index.
  - rewrite Px. destruct (is_periodic (fst (bc_at bc 0))); reflexivity.
  - rewrite Py.
    destruct (is_periodic (fst (bc_at bc 0))),
             (is_periodic (fst (bc_at bc 1))); reflexivity.
  - rewrite Pz.
    destruct (is_periodic (fst (bc_at bc 0))),
             (is_periodic (fst (bc_at bc 1))),
             (is_periodic (fst (bc_at bc 2))); reflexivity.
Qed.

(** X10.  In a 3-D build [R2X::forwardThenBackward] makes six kernel
    calls: forward along x, y and z on the forward plan members, then
    backward along z, y and x on the backward plan members, each with the
    flavour of its axis (r2c on the first periodic axis, c2c on the
    periodic axes after it, r2r on the others).  In an engine constructed
    where [amrex::decompose] returns at least one box, the two plans of an
    axis are those the constructor creates for that flavour on the box the
    process owns in the array of the axis, the forward plan for the forward
    and the backward plan for the backward direction (or a copy of the
    forward plan where the build shares them); both are the null plan when
    the process owns no box of that array. *)
Theorem R2X_kernels_and_their_plans cfg w domain bc e :
  decompose_nonempty w ->
  AMREX_SPACEDIM cfg = 3%nat ->
  R2X.ctor cfg w domain bc = Ok e ->
  kernels (trace (R2X.forwardThenBackward cfg w e))
  = map (fun a => (R2X_kernel e a, forward, fft_fwd a, R2X_plan e (fft_fwd a)))
        [axis_x; axis_y; axis_z]
    ++ map (fun a => (R2X_kernel e a, backward, fft_bwd a, R2X_plan e (fft_bwd a)))
           [axis_z; axis_y; axis_x]
  /\ forall a,
       (R2X_plan e (fft_fwd a), R2X_plan e (fft_bwd a))
       = if (MyProcSub w <? size (R2X_plan_array e a))%nat
         then plans_created cfg w (R2X_kernel e a) (bc_at bc (axis_index a))
                            (box (R2X_plan_array e a) (MyProcSub w))
         else (Plan_default, Plan_default).
Proof.
  intros Hne Hsd H.
  split; [now apply R2X_forwardThenBackward_kernels |].
  intros a.
  pose proof (R2X_ctor_lengths _ _ _ _ _ 1%nat H ltac:(lia)) as H1.
  pose proof (R2X_ctor_lengths _ _ _ _ _ 2%nat H ltac:(lia)) as H2.
  apply Z.ltb_lt in H1, H2.
  destruct (R2X_ctor_inv _ _ _ _ _ H) as (_ & -> & _ & _).
  now apply R2X_build_plans_created.
Qed.

Lemma R2X_kernels_and_their_plans_witness :
  kernels (trace (R2X.forwardThenBackward cfg_3d (world 0 2)
                    (R2X.build cfg_3d (world 0 2) (domain_of 4 4 2)
                       ((even, even), (periodic, periodic), (periodic, periodic)))))
  = [(r2r, forward, fft_fwd axis_x,
      init_r2r (world 0 2) forward (Box_of (0, 0, 0) (3, 1, 1)) (even, even));
     (r2c, forward, fft_fwd axis_y,
      R2X.m_fft_fwd_y
        (R2X.build cfg_3d (world 0 2) (domain_of 4 4 2)
           ((even, even), (periodic, periodic), (periodic, periodic))));
     (c2c, forward, fft_fwd axis_z,
      R2X.m_fft_fwd_z
        (R2X.build cfg_3d (world 0 2) (domain_of 4 4 2)
           ((even, even), (periodic, periodic), (periodic, periodic))));
     (c2c, backward, fft_bwd axis_z,
      R2X.m_fft_bwd_z
        (R2X.build cfg_3d (world 0 2) (domain_of 4 4 2)
           ((even, even), (periodic, periodic), (periodic, periodic))));
     (r2c, backward, fft_bwd axis_y,
      R2X.m_fft_bwd_y
        (R2X.build cfg_3d (world 0 2) (domain_of 4 4 2)
           ((even, even), (periodic, periodic), (periodic, periodic))));
     (r2r, backward, fft_bwd axis_x,
      init_r2r (world 0 2) backward (Box_of (0, 0, 0) (3, 1, 1)) (even, even))].
Proof.
  destruct (R2X_kernels_and_their_plans cfg_3d (world 0 2) (domain_of 4 4 2)
              ((even, even), (periodic, periodic), (periodic, periodic)) _
              (world_decompose_nonempty 0 2 (le_S _ _ (le_n 1))) eq_refl eq_refl)
    as [Hk Hp].
  rewrite Hk. vm_compute. reflexivity.
Defined.

(** ** Shared plans *)

Lemma R2C_build_x_plans cfg w D domain info :
  (R2C.m_fft_fwd_x (R2C.build cfg w D domain info),
   R2C.m_fft_bwd_x (R2C.build cfg w D domain info))
  = (if (MyProcSub w <? size (R2C.m_rx (R2C.build cfg w D domain info)))%nat then
       if AMREX_USE_SYCL cfg then
         (init_r2c w forward (box (R2C.m_rx (R2C.build cfg w D domain info))
                                  (MyProcSub w)),
          init_r2c w forward (box (R2C.m_rx (R2C.build cfg w D domain info))
                                  (MyProcSub w)))
       else
         (if R2C.D_has_forward D
          then init_r2c w forward (box (R2C.m_rx (R2C.build cfg w D domain info))
                                       (MyProcSub w))
          else Plan_default,
          if R2C.D_has_backward D
          then init_r2c w backward (box (R2C.m_rx (R2C.build cfg w D domain info))
                                        (MyProcSub w))
          else Plan_default)
     else (Plan_default, Plan_default)).
Proof.
  unfold R2C.build. cbv zeta. name_pair_lets. simpl. subst.
  symmetry. assumption.
Qed.

Lemma make_c2c_plans_sycl cfg w D fa :
  AMREX_USE_SYCL cfg = true ->
  snd (R2C.make_c2c_plans cfg w D fa) = fst (R2C.make_c2c_plans cfg w D fa).
Proof.
  intros H. unfold R2C.make_c2c_plans. rewrite H.
  destruct (get_fab w fa); reflexivity.
Qed.

(** X11.  In a SYCL build the R2C constructor gives the backward plan of
    every axis the handle of the forward plan, and the destructor of the
    engine then calls [destroy] three times in all, once on the forward
    plan of each axis. *)
Theorem R2C_sycl_plans_are_shared cfg w D domain info :
  AMREX_USE_SYCL cfg = true ->
  R2C.m_fft_bwd_x (R2C.build cfg w D domain info)
    = R2C.m_fft_fwd_x (R2C.build cfg w D domain info)
  /\ R2C.m_fft_bwd_y (R2C.build cfg w D domain info)
     = R2C.m_fft_fwd_y (R2C.build cfg w D domain info)
  /\ R2C.m_fft_bwd_z (R2C.build cfg w D domain info)
     = R2C.m_fft_fwd_z (R2C.build cfg w D domain info)
  /\ trace (R2C.dtor (R2C.build cfg w D domain info))
     = [destroy (fft_fwd axis_x) (R2C.m_fft_fwd_x (R2C.build cfg w D domain info));
        destroy (fft_fwd axis_y) (R2C.m_fft_fwd_y (R2C.build cfg w D domain info));
        destroy (fft_fwd axis_z) (R2C.m_fft_fwd_z (R2C.build cfg w D domain info))].
Proof.
  intros Hs.
  pose proof (R2C_build_x_plans cfg w D domain info) as Px.
  destruct (R2C_build_plans cfg w D domain info) as [Py Pz].
  rewrite Hs in Px.
  assert (Hx : R2C.m_fft_bwd_x (R2C.build cfg w D domain info)
               = R2C.m_fft_fwd_x (R2C.build cfg w D domain info)).
  { change (snd (R2C.m_fft_fwd_x (R2C.build cfg w D domain info),
                 R2C.m_fft_bwd_x (R2C.build cfg w D domain info))
            = fst (R2C.m_fft_fwd_x (R2C.build cfg w D domain info),
                   R2C.m_fft_bwd_x (R2C.build cfg w D domain info))).
    rewrite Px.
    destruct (MyProcSub w <? size (R2C.m_rx (R2C.build cfg w D domain info)))%nat;
      reflexivity. }
  assert (Hy : R2C.m_fft_bwd_y (R2C.build cfg w D domain info)
               = R2C.m_fft_fwd_y (R2C.build cfg w D domain info)).
  { change (snd (R2C.m_fft_fwd_y (R2C.build cfg w D domain info),
                 R2C.m_fft_bwd_y (R2C.build cfg w D domain info))
            = fst (R2C.m_fft_fwd_y (R2C.build cfg w D domain info),
                   R2C.m_fft_bwd_y (R2C.build cfg w D domain info))).
    rewrite Py.
    destruct ((2 <=? AMREX_SPACEDIM cfg)%nat
              && negb (empty (R2C.m_cy (R2C.build cfg w D domain info))));
      [now apply make_c2c_plans_sycl | reflexivity]. }
  assert (Hz : R2C.m_fft_bwd_z (R2C.build cfg w D domain info)
               = R2C.m_fft_fwd_z (R2C.build cfg w D domain info)).
  { change (snd (R2C.m_fft_fwd_z (R2C.build cfg w D domain info),
                 R2C.m_fft_bwd_z (R2C.build cfg w D domain info))
            = fst (R2C.m_fft_fwd_z (R2C.build cfg w D domain info),
                   R2C.m_fft_bwd_z (R2C.build cfg w D domain info))).
    rewrite Pz.
    destruct ((AMREX_SPACEDIM cfg =? 3)%nat
              && negb (empty (R2C.m_cz (R2C.build cfg w D domain info))));
      [now apply make_c2c_plans_sycl | reflexivity]. }
  repeat split; try assumption.
  unfold R2C.dtor, Plan_eqb. rewrite Hx, Hy, Hz, !Z.eqb_refl. reflexivity.
Qed.

Lemma R2C_sycl_plans_are_shared_witness :
  List.length
    (trace (R2C.dtor (R2C.build (mkConfig 3 true true) (world 0 2) both
                                (domain_of 4 4 2) Info_default))) = 3%nat.
Proof.
  destruct (R2C_sycl_plans_are_shared (mkConfig 3 true true) (world 0 2) both
              (domain_of 4 4 2) Info_default eq_refl) as (_ & _ & _ & H).
  rewrite H. reflexivity.
Defined.

(** ** The symbol of the Poisson solver, continued *)

Lemma symbol_term_nonpositive (dx a : R) :
  dx <> 0%R -> (2 / (dx * dx) * (cos a - 1) <= 0)%R.
Proof.
  intros Hdx.
  assert (Hsq : (0 < dx * dx)%R) by nra.
  assert (Hinv : (0 < / (dx * dx))%R) by now apply Rinv_0_lt_compat.
  pose proof (COS_bound a) as [_ Hc].
  unfold Rdiv. nra.
Qed.

(** X12.  When the cell sizes along the axes of the build are not zero,
    the value [k2] the callback of [Poisson::solve] computes is never
    positive, at any spectral index and for any boundary array (over the
    real numbers). *)
Theorem Poisson_symbol_is_nonpositive cfg p i j k :
  (1 <= AMREX_SPACEDIM cfg <= 3)%nat ->
  (forall d, (d < AMREX_SPACEDIM cfg)%nat ->
             CellSize (Poisson.m_geom p) d <> 0%R) ->
  (Poisson.k2 cfg p i j k <= 0)%R.
Proof.
  intros Hsd Hdx.
  unfold Poisson.k2, AMREX_D_TERM_sum, Poisson.dxfac.
  cbn [T_add T_sub T_mul T_div T_cos T_of_Z T_of_Real Real_mul Arithmetic_exact].
  destruct (AMREX_SPACEDIM cfg) as [|[|[|[|n]]]]; try lia.
  - apply symbol_term_nonpositive. apply Hdx. lia.
  - pose proof (symbol_term_nonpositive (CellSize (Poisson.m_geom p) 0)
                  (Poisson.fac cfg p 0 * (IZR i + Poisson.offset cfg p 0))
                  (Hdx 0%nat ltac:(lia))).
    pose proof (symbol_term_nonpositive (CellSize (Poisson.m_geom p) 1)
                  (Poisson.fac cfg p 1 * (IZR j + Poisson.offset cfg p 1))
                  (Hdx 1%nat ltac:(lia))).
    lra.
  - pose proof (symbol_term_nonpositive (CellSize (Poisson.m_geom p) 0)
                  (Poisson.fac cfg p 0 * (IZR i + Poisson.offset cfg p 0))
                  (Hdx 0%nat ltac:(lia))).
    pose proof (symbol_term_nonpositive (CellSize (Poisson.m_geom p) 1)
                  (Poisson.fac cfg p 1 * (IZR j + Poisson.offset cfg p 1))
                  (Hdx 1%nat ltac:(lia))).
    pose proof (symbol_term_nonpositive (CellSize (Poisson.m_geom p) 2)
                  (Poisson.fac cfg p 2 * (IZR k + Poisson.offset cfg p 2))
                  (Hdx 2%nat ltac:(lia))).
    lra.
Qed.

Lemma Poisson_symbol_is_nonpositive_witness :
  (Poisson.k2 cfg_3d
     (Poisson.mk (unit_geometry 4 4 4)
        ((periodic, periodic), (even, odd), (odd, odd))
        (R2X.build cfg_3d (world 0 2) (domain_of 4 4 4)
                   ((periodic, periodic), (even, odd), (odd, odd))))
     1 0 2 <= 0)%R.
Proof.
  apply Poisson_symbol_is_nonpositive.
  - simpl. lia.
  - intros d _. simpl. exact R1_neq_R0.
Defined.

(** X13.  For a solver constructed with every axis periodic or even at
    both ends, in an arithmetic where [0 + 0 = 0], [cos 0 = 1], [1 - 1 = 0]
    and [0 != 0] is false, and where the entries of [fac] and [dxfac] times
    zero are zero (they are finite: no length and no squared cell size is
    zero), the callback of [solve] computes [k2 = 0] at the spectral index
    [(0,0,0)]: it leaves the zero mode undivided and only multiplies it by
    the scaling factor. *)
Theorem Poisson_zero_mode_is_only_scaled cfg w geom bc p
        (T : Type) (A : Arithmetic T) (V : Type) (SV : SpectralData T V) (v : V) :
  (1 <= AMREX_SPACEDIM cfg <= 3)%nat ->
  Poisson.ctor cfg w geom bc = Ok p ->
  (forall d, (d < AMREX_SPACEDIM cfg)%nat ->
             bc_at bc d = (periodic, periodic) \/ bc_at bc d = (even, even)) ->
  zero_arithmetic T ->
  (forall d, (d < AMREX_SPACEDIM cfg)%nat ->
             vanishes_at_zero (Poisson.fac cfg p d)
             /\ vanishes_at_zero (Poisson.dxfac p d)) ->
  Poisson.k2 cfg p 0 0 0 = T_of_Z 0
  /\ Poisson.callback cfg p 0 0 0 v = mul_assign v (Poisson.scale cfg p).
Proof.
  intros Hsd H Hbc (Hadd & Hcos & Hsub & Hneq) Hfin.
  assert (Hoff : forall d, (d < AMREX_SPACEDIM cfg)%nat ->
                           Poisson.offset cfg p d = T_of_Z 0).
  { intros d Hd. rewrite (Poisson_offset cfg w geom bc p d H Hd).
    destruct (Hbc d Hd) as [-> | ->]; reflexivity. }
  assert (Hterm : forall d, (d < AMREX_SPACEDIM cfg)%nat ->
            T_mul (Poisson.dxfac p d)
                  (T_sub (T_cos (T_mul (Poisson.fac cfg p d)
                                       (T_add (T_of_Z 0) (Poisson.offset cfg p d))))
                         (T_of_Z 1))
            = T_of_Z 0).
  { intros d Hd. destruct (Hfin d Hd) as [Hf Hx].
    unfold vanishes_at_zero in Hf, Hx.
    rewrite (Hoff d Hd), Hadd, Hf, Hcos, Hsub. exact Hx. }
  assert (Hk : Poisson.k2 cfg p 0 0 0 = T_of_Z 0).
  { unfold Poisson.k2, AMREX_D_TERM_sum.
    destruct (AMREX_SPACEDIM cfg) as [|[|[|[|n]]]]; try lia;
      rewrite ?Hterm by lia; rewrite ?Hadd; reflexivity. }
  split; [exact Hk |].
  unfold Poisson.callback. rewrite Hk, Hneq. reflexivity.
Qed.

Lemma Poisson_zero_mode_is_only_scaled_witness :
  Poisson.k2 cfg_3d
    (Poisson.mk (unit_geometry 4 4 4)
       ((periodic, periodic), (even, even), (periodic, periodic))
       (R2X.build cfg_3d (world 0 2) (domain_of 4 4 4)
                  ((periodic, periodic), (even, even), (periodic, periodic))))
    0 0 0 = 0%R.
Proof.
  apply (Poisson_zero_mode_is_only_scaled cfg_3d (world 0 2) (unit_geometry 4 4 4)
           ((periodic, periodic), (even, even), (periodic, periodic))
           _ R Arithmetic_exact R (SpectralData_real R) 0%R).
  - simpl. lia.
  - reflexivity.
  - intros d Hd. simpl in Hd.
    destruct d as [|[|[|d]]]; [now left | now right | now left | lia].
  - unfold zero_arithmetic. simpl.
    split; [lra | split; [exact cos_0 | split; [lra |]]].
    destruct (Req_dec_T 0 0) as [_ | N]; [reflexivity | contradiction].
  - intros d _. split; apply Rmult_0_r.
Defined.

(** ** The tridiagonal solve *)

Lemma zrange_snoc lo hi :
  lo <= hi + 1 -> zrange lo (hi + 1) = zrange lo hi ++ [hi + 1].
Proof.
  intros H. unfold zrange.
  replace (Z.to_nat (hi + 1 - lo + 1)) with (S (Z.to_nat (hi - lo + 1))) by lia.
  rewrite seq_S, map_app. simpl. f_equal. f_equal. lia.
Qed.

Lemma zrange_cons lo hi :
  lo <= hi -> zrange lo hi = lo :: zrange (lo + 1) hi.
Proof.
  intros H. unfold zrange.
  replace (Z.to_nat (hi - lo + 1)) with (S (Z.to_nat (hi - (lo + 1) + 1))) by lia.
  simpl. f_equal; [lia|].
  rewrite <- seq_shift, map_map. apply map_ext. intros; lia.
Qed.

Lemma zrange_nil lo hi : hi < lo -> zrange lo hi = [].
Proof.
  intros H. unfold zrange.
  replace (Z.to_nat (hi - lo + 1)) with 0%nat by lia. reflexivity.
Qed.

Lemma updZ_eq {A} (f : Z -> A) k v : updZ f k v k = v.
Proof. unfold updZ. rewrite Z.eqb_refl. reflexivity. Qed.

Lemma updZ_neq {A} (f : Z -> A) k v k' : k' <> k -> updZ f k v k' = f k'.
Proof. unfold updZ. intros H. destruct (Z.eqb_spec k' k); congruence. Qed.

Section Thomas.

Variables ald bd cud : Z -> R.
Variable nz : Z.
Variable s0 : Z -> R.
Variable r : Z -> GpuComplex.

(** The state of the elimination after the rows [1..h]. *)
Lemma forward_fold_inv (n : nat) :
  Z.of_nat n <= nz - 1 ->
  forall S D,
    fold_left (Tridiag.forward_step ald bd cud nz) (zrange 1 (Z.of_nat n))
              (updZ s0 0 (cud 0 / bd 0)%R, updZ r 0 (div_by (r 0) (bd 0)))
    = (S, D) ->
    S 0 = (cud 0 / bd 0)%R
    /\ D 0 = div_by (r 0) (bd 0)
    /\ (forall k, 1 <= k <= Z.of_nat n -> k < nz - 1 ->
                  S k = (cud k / (bd k - ald k * S (k - 1)%Z))%R)
    /\ (forall k, 1 <= k <= Z.of_nat n ->
                  D k = div_by (Csub (r k) (Cscale (ald k) (D (k - 1))))
                               (bd k - ald k * S (k - 1)%Z)%R)
    /\ (forall k, k < 0 \/ Z.of_nat n < k -> D k = r k).
Proof.
  induction n as [|n IH]; intros Hn S D.
  - simpl. intros E. inversion E; subst; clear E.
    refine (conj _ (conj _ (conj _ (conj _ _)))); try (intros; lia).
    + apply updZ_eq.
    + apply updZ_eq.
    + intros k Hk. apply updZ_neq. lia.
  - replace (Z.of_nat (Datatypes.S n)) with (Z.of_nat n + 1) by lia.
    rewrite zrange_snoc by lia. rewrite fold_left_app.
    destruct (fold_left (Tridiag.forward_step ald bd cud nz) (zrange 1 (Z.of_nat n))
                        (updZ s0 0 (cud 0 / bd 0)%R, updZ r 0 (div_by (r 0) (bd 0))))
      as [S1 D1] eqn:E1.
    destruct (IH ltac:(lia) S1 D1 eq_refl) as (HS0 & HD0 & HS & HD & Hout).
    set (h := Z.of_nat n) in *.
    simpl. intros E.
    assert (HSk : forall k, k <= h -> S k = S1 k).
    { intros k Hk. inversion E as [[ES ED]].
      destruct (h + 1 <? nz - 1); [apply updZ_neq; lia | reflexivity]. }
    assert (HDk : forall k, k <> h + 1 -> D k = D1 k).
    { intros k Hk. inversion E as [[ES ED]]. apply updZ_neq. exact Hk. }
    assert (HSh : h + 1 < nz - 1 ->
                  S (h + 1) = (cud (h + 1)%Z / (bd (h + 1)%Z - ald (h + 1)%Z * S1 (h + 1 - 1)%Z))%R).
    { intros Hlt. inversion E as [[ES ED]].
      destruct (Z.ltb_spec (h + 1) (nz - 1)); [apply updZ_eq | lia]. }
    assert (HDh : D (h + 1)
                  = div_by (Csub (D1 (h + 1)) (Cscale (ald (h + 1)) (D1 (h + 1 - 1))))
                           (bd (h + 1)%Z - ald (h + 1)%Z * S1 (h + 1 - 1)%Z)%R).
    { inversion E as [[ES ED]]. rewrite updZ_eq.
      destruct (h + 1 <? nz - 1); [rewrite updZ_neq by lia|]; reflexivity. }
    clear E.
    refine (conj _ (conj _ (conj _ (conj _ _)))).
    + rewrite HSk by lia. exact HS0.
    + rewrite HDk by lia. exact HD0.
    + intros k Hk Hlt. destruct (Z.eq_dec k (h + 1)) as [->|Hne].
      * rewrite HSh by lia. rewrite (HSk (h + 1 - 1)) by lia. reflexivity.
      * rewrite !HSk by lia. apply HS; lia.
    + intros k Hk. destruct (Z.eq_dec k (h + 1)) as [->|Hne].
      * rewrite HDh. rewrite (HSk (h + 1 - 1)) by lia.
        rewrite (HDk (h + 1 - 1)) by lia.
        rewrite (Hout (h + 1)) by lia. reflexivity.
      * rewrite (HDk k) by lia. rewrite (HDk (k - 1)) by lia.
        rewrite (HSk (k - 1)) by lia. apply HD; lia.
    + intros k Hk. rewrite HDk by lia. apply Hout. lia.
Qed.


End Thomas.

(** The state of the back substitution after the rows [h, h-1, .., l]. *)
Lemma back_fold_inv (Sc : Z -> R) (D : Z -> GpuComplex) (h : Z) (n : nat) :
  forall X,
    fold_left (Tridiag.back_step Sc) (rev (zrange (h + 1 - Z.of_nat n) h)) D = X ->
    (forall k, h + 1 - Z.of_nat n <= k <= h ->
               X k = Csub (D k) (Cscale (Sc k) (X (k + 1))))
    /\ (forall k, k < h + 1 - Z.of_nat n \/ h < k -> X k = D k).
Proof.
  induction n as [|n IH]; intros X.
  - rewrite zrange_nil by lia. simpl. intros <-. split; [intros; lia | reflexivity].
  - destruct (IH _ eq_refl) as [Hin Hout].
    assert (Hl : exists l, l = h + 1 - Z.of_nat (S n)) by eauto.
    destruct Hl as [l Hl]. rewrite <- Hl.
    replace (h + 1 - Z.of_nat n) with (l + 1) in * by lia.
    assert (Hlh : l <= h) by lia. clear Hl.
    rewrite zrange_cons by lia.
    simpl rev. rewrite fold_left_app.
    set (X1 := fold_left (Tridiag.back_step Sc) (rev (zrange (l + 1) h)) D) in *.
    clearbody X1. cbn [fold_left].
    intros <-. unfold Tridiag.back_step. split.
    + intros k Hk. destruct (Z.eq_dec k l) as [->|Hne].
      * rewrite updZ_eq. rewrite updZ_neq by lia.
        rewrite (Hout l) by lia. reflexivity.
      * rewrite !updZ_neq by lia. apply Hin. lia.
    + intros k Hk. rewrite updZ_neq by lia. apply Hout. lia.
Qed.

Lemma scale_fold_inv (scale : R) (X : Z -> GpuComplex) (n : nat) :
  forall k,
    fold_left (fun spectral k => updZ spectral k (mul_by (spectral k) scale))
              (zrange 0 (Z.of_nat n - 1)) X k
    = if (0 <=? k) && (k <? Z.of_nat n) then mul_by (X k) scale else X k.
Proof.
  induction n as [|n IH]; intros k.
  - rewrite zrange_nil by lia. simpl.
    destruct (0 <=? k) eqn:E1, (k <? 0) eqn:E2; try reflexivity. lia.
  - rewrite Nat2Z.inj_succ. unfold Z.succ.
    replace (Z.of_nat n + 1 - 1) with (Z.of_nat n - 1 + 1) by lia.
    rewrite zrange_snoc by lia. rewrite fold_left_app. cbn [fold_left].
    replace (Z.of_nat n - 1 + 1) with (Z.of_nat n) by lia.
    destruct (Z.eq_dec k (Z.of_nat n)) as [->|Hne].
    + rewrite updZ_eq. rewrite IH.
      destruct (Z.leb_spec 0 (Z.of_nat n)); [|lia].
      destruct (Z.ltb_spec (Z.of_nat n) (Z.of_nat n)); [lia|].
      destruct (Z.ltb_spec (Z.of_nat n) (Z.of_nat n + 1)); [|lia].
      reflexivity.
    + rewrite updZ_neq by lia. rewrite IH.
      destruct (Z.leb_spec 0 k); cbn [andb]; [|reflexivity].
      destruct (Z.ltb_spec k (Z.of_nat n)), (Z.ltb_spec k (Z.of_nat n + 1));
        try reflexivity; lia.
Qed.

Lemma scale_column_at nz scale X k :
  Tridiag.scale_column nz scale X k
  = if (0 <=? k) && (k <? nz) then mul_by (X k) scale else X k.
Proof.
  unfold Tridiag.scale_column.
  destruct (Z.le_gt_cases 0 nz) as [Hnz|Hnz].
  - replace nz with (Z.of_nat (Z.to_nat nz)) at 1 by lia.
    rewrite scale_fold_inv.
    replace (Z.of_nat (Z.to_nat nz)) with nz by lia. reflexivity.
  - rewrite zrange_nil by lia. simpl.
    destruct (Z.leb_spec 0 k), (Z.ltb_spec k nz); try reflexivity. lia.
Qed.

(** One row of the system, on real numbers: the relations the two sweeps
    leave between the entries give the equation of the row. *)
Lemma thomas_row_real (a b c p s' s d' d x x' x'' rk : R) :
  p = (b - a * s')%R -> p <> 0%R ->
  s = (c / p)%R ->
  d = ((rk - a * d') / p)%R ->
  x = (d - s * x'')%R ->
  x' = (d' - s' * x)%R ->
  (a * x' + (b * x + c * x''))%R = rk.
Proof. intros -> Hp -> -> -> ->. field. exact Hp. Qed.

Lemma tridiag_solution_rows (ald bd cud : Z -> R) (nz : Z) (s0 : Z -> R)
      (r : Z -> GpuComplex) (Sc : Z -> R) (D : Z -> GpuComplex) :
  1 <= nz ->
  Tridiag.forward_sweep ald bd cud nz s0 r = (Sc, D) ->
  (forall k, 0 <= k < nz -> Tridiag.pivot ald bd Sc k <> 0%R) ->
  forall k, 0 <= k < nz ->
    Tridiag.row ald bd cud nz (Tridiag.back_substitution nz Sc D) k = r k.
Proof.
  intros Hnz Hfw Hpiv k Hk.
  unfold Tridiag.forward_sweep in Hfw.
  replace (nz - 1) with (Z.of_nat (Z.to_nat (nz - 1))) in Hfw by lia.
  apply forward_fold_inv in Hfw; [| lia].
  replace (Z.of_nat (Z.to_nat (nz - 1))) with (nz - 1) in Hfw by lia.
  destruct Hfw as (HS0 & HD0 & HS & HD & _).
  destruct (back_fold_inv Sc D (nz - 2) (Z.to_nat (nz - 1)) _ eq_refl) as [HX HXout].
  replace (nz - 2 + 1 - Z.of_nat (Z.to_nat (nz - 1))) with 0 in * by lia.
  fold (Tridiag.back_substitution nz Sc D) in HX, HXout.
  set (X := Tridiag.back_substitution nz Sc D) in *. clearbody X.
  assert (Hp0 : bd 0 <> 0%R).
  { specialize (Hpiv 0 ltac:(lia)). exact Hpiv. }
  assert (Hpk : forall k, 1 <= k < nz -> (bd k - ald k * Sc (k - 1)%Z)%R <> 0%R).
  { intros k' Hk'. specialize (Hpiv k' ltac:(lia)). unfold Tridiag.pivot in Hpiv.
    destruct (Z.eqb_spec k' 0); [lia | exact Hpiv]. }
  unfold Tridiag.row.
  destruct (Z.eqb_spec k 0) as [-> | Hk0];
    [destruct (Z.eqb_spec 0 (nz - 1)) as [Hl | Hl]
    | destruct (Z.eqb_spec k (nz - 1)) as [Hl | Hl]].
  - (* nz = 1 *)
    rewrite (HXout 0) by lia. rewrite HD0.
    apply injective_projections; simpl; field; exact Hp0.
  - (* first row *)
    rewrite (HX 0) by lia. rewrite HD0, HS0.
    apply injective_projections; simpl; field; exact Hp0.
  - (* last row *)
    rewrite (HXout k) by lia.
    pose proof (HX (k - 1) ltac:(lia)) as Hx'.
    replace (k - 1 + 1) with k in Hx' by lia.
    rewrite (HXout k) in Hx' by lia.
    pose proof (HD k ltac:(lia)) as Hd.
    pose proof (Hpk k ltac:(lia)) as Hp.
    rewrite Hx', Hd.
    apply injective_projections; simpl; field; exact Hp.
  - (* an interior row *)
    pose proof (HX (k - 1) ltac:(lia)) as Hx'.
    replace (k - 1 + 1) with k in Hx' by lia.
    pose proof (HX k ltac:(lia)) as Hx.
    pose proof (HD k ltac:(lia)) as Hd.
    pose proof (HS k ltac:(lia) ltac:(lia)) as Hs.
    pose proof (Hpk k ltac:(lia)) as Hp.
    apply injective_projections; simpl.
    + apply (thomas_row_real (ald k) (bd k) (cud k)
                             (bd k - ald k * Sc (k - 1)%Z)%R (Sc (k - 1)%Z) (Sc k)
                             (fst (D (k - 1))) (fst (D k))); auto.
      * rewrite Hd. reflexivity.
      * rewrite Hx at 1. reflexivity.
      * rewrite Hx' at 1. reflexivity.
    + apply (thomas_row_real (ald k) (bd k) (cud k)
                             (bd k - ald k * Sc (k - 1)%Z)%R (Sc (k - 1)%Z) (Sc k)
                             (snd (D (k - 1))) (snd (D k))); auto.
      * rewrite Hd. reflexivity.
      * rewrite Hx at 1. reflexivity.
      * rewrite Hx' at 1. reflexivity.
Qed.

(** The rows are linear: scaling the column over [0..nz-1] scales them. *)
Lemma tridiag_row_scale (ald bd cud : Z -> R) (nz : Z) (scale : R)
      (X : Z -> GpuComplex) k :
  0 <= k < nz ->
  Tridiag.row ald bd cud nz (Tridiag.scale_column nz scale X) k
  = mul_by (Tridiag.row ald bd cud nz X k) scale.
Proof.
  intros Hk. unfold Tridiag.row.
  assert (Hin : forall k', 0 <= k' < nz ->
                  Tridiag.scale_column nz scale X k' = mul_by (X k') scale).
  { intros k' Hk'. rewrite scale_column_at.
    destruct (Z.leb_spec 0 k'), (Z.ltb_spec k' nz); try lia. reflexivity. }
  rewrite (Hin k) by lia.
  destruct (Z.eqb_spec k 0), (Z.eqb_spec k (nz - 1));
    rewrite ?(Hin (k - 1)) by lia; rewrite ?(Hin (k + 1)) by lia;
    apply injective_projections; simpl; ring.
Qed.

(** ** The tridiagonal system of the hybrid solver *)

Lemma PoissonHybrid_ctor_lengths cfg w geom p :
  PoissonHybrid.ctor cfg w geom = Ok p ->
  PoissonHybrid.m_geom p = geom
  /\ 1 < length (Domain geom) 0
  /\ 1 < length (Domain geom) 1
  /\ 1 < length (Domain geom) 2.
Proof.
  intros H. apply PoissonHybrid_ctor_inv in H.
  destruct H as (Hsd & Ha & Hg & _).
  apply R2C_ctor_asserts_ok in Ha. rewrite Hsd in Ha. simpl in Ha.
  destruct Ha as (_ & H0 & _ & [H2 | H2] & H1); [| discriminate].
  repeat split; auto; lia.
Qed.

Lemma PoissonHybrid_delz_in_range p k :
  0 <= k < length (Domain (PoissonHybrid.m_geom p)) 2 ->
  PoissonHybrid.delz p k = CellSize (PoissonHybrid.m_geom p) 2.
Proof.
  intros Hk. unfold PoissonHybrid.delz, PoissonHybrid.delzv.
  rewrite (nth_indep _ 0%R (CellSize (PoissonHybrid.m_geom p) 2)).
  - apply nth_repeat.
  - rewrite repeat_length. lia.
Qed.

Lemma Hybrid_coefficients p i j k :
  1 < length (Domain (PoissonHybrid.m_geom p)) 2 ->
  CellSize (PoissonHybrid.m_geom p) 2 <> 0%R ->
  0 <= k < length (Domain (PoissonHybrid.m_geom p)) 2 ->
  let nz := length (Domain (PoissonHybrid.m_geom p)) 2 in
  let dz := CellSize (PoissonHybrid.m_geom p) 2 in
  Hybrid_ald p i j k = (if k =? 0 then 0 else 1 / (dz * dz))%R
  /\ Hybrid_cud p i j k = (if k =? nz - 1 then 0 else 1 / (dz * dz))%R
  /\ Hybrid_bd p i j k
     = ((Hybrid_k2 p i j - Hybrid_ald p i j k - Hybrid_cud p i j k)
        * (if (k =? nz - 1) && (i =? 0) && (j =? 0) then 2 else 1))%R.
Proof.
  intros Hnz Hdz Hk nz dz.
  assert (Hdz2 : (dz + dz)%R <> 0%R) by (unfold dz; lra).
  unfold Hybrid_ald, Hybrid_cud, Hybrid_bd, PoissonHybrid.tridiag_row,
    PoissonHybrid.ald_divisor, PoissonHybrid.cud_divisor.
  fold nz.
  destruct (Z.eqb_spec k 0) as [-> | Hk0].
  - destruct (Z.eqb_spec 0 (nz - 1)); [subst nz; lia |].
    rewrite !PoissonHybrid_delz_in_range by (fold nz; lia). fold dz.
    simpl. split; [| split]; field; auto.
  - destruct (Z.eqb_spec k (nz - 1)) as [Hl | Hl].
    + rewrite !PoissonHybrid_delz_in_range by (fold nz; lia). fold dz.
      simpl. destruct ((i =? 0) && (j =? 0)); simpl; (split; [| split]); field; auto.
    + rewrite !PoissonHybrid_delz_in_range by (fold nz; lia). fold dz.
      simpl. split; [| split]; field; auto.
Qed.

Lemma frac_bound (c d : R) :
  (0 < c)%R -> (d <= - c)%R -> (-1 <= c / d < 0)%R.
Proof.
  intros Hc Hd.
  assert (Hd0 : (d < 0)%R) by lra.
  assert (Hinv : (/ d < 0)%R) by now apply Rinv_lt_0_compat.
  assert (Hone : (d * / d = 1)%R) by (apply Rinv_r; lra).
  unfold Rdiv. split; nra.
Qed.

(** The divisors of the elimination on a system with the sub- and
    super-diagonal [c > 0], the diagonal [k2 - ald - cud] with [k2 <= 0],
    and the last diagonal entry [g * (k2 - c)]. *)
Lemma neumann_pivots (ald bd cud : Z -> R) (nz : Z) (s0 : Z -> R)
      (r : Z -> GpuComplex) (Sc : Z -> R) (D : Z -> GpuComplex) (c k2 g : R) :
  2 <= nz -> (0 < c)%R -> (k2 <= 0)%R ->
  (forall k, 0 <= k < nz -> ald k = if k =? 0 then 0%R else c) ->
  (forall k, 0 <= k < nz -> cud k = if k =? nz - 1 then 0%R else c) ->
  (forall k, 0 <= k < nz - 1 -> bd k = (k2 - ald k - cud k)%R) ->
  bd (nz - 1) = (g * (k2 - c))%R ->
  (g = 1%R /\ (k2 < 0)%R) \/ g = 2%R ->
  Tridiag.forward_sweep ald bd cud nz s0 r = (Sc, D) ->
  forall k, 0 <= k < nz -> (Tridiag.pivot ald bd Sc k < 0)%R.
Proof.
  intros Hnz Hc Hk2 Hald Hcud Hbd Hlast Hg Hfw.
  unfold Tridiag.forward_sweep in Hfw.
  replace (nz - 1) with (Z.of_nat (Z.to_nat (nz - 1))) in Hfw by lia.
  apply forward_fold_inv in Hfw; [| lia].
  replace (Z.of_nat (Z.to_nat (nz - 1))) with (nz - 1) in Hfw by lia.
  destruct Hfw as (HS0 & _ & HS & _ & _).
  assert (Hb0 : bd 0 = (k2 - c)%R).
  { rewrite Hbd, Hald, Hcud by lia.
    destruct (Z.eqb_spec 0 (nz - 1)); [lia|]. simpl. ring. }
  assert (Hbk : forall k, 1 <= k < nz - 1 -> bd k = (k2 - c - c)%R).
  { intros k Hk. rewrite Hbd, Hald, Hcud by lia.
    destruct (Z.eqb_spec k 0), (Z.eqb_spec k (nz - 1)); try lia. reflexivity. }
  assert (Hak : forall k, 1 <= k < nz -> ald k = c).
  { intros k Hk. rewrite Hald by lia. destruct (Z.eqb_spec k 0); [lia | reflexivity]. }
  assert (Hck : forall k, 0 <= k < nz - 1 -> cud k = c).
  { intros k Hk. rewrite Hcud by lia.
    destruct (Z.eqb_spec k (nz - 1)); [lia | reflexivity]. }
  assert (Hbound : forall n : nat, Z.of_nat n <= nz - 2 ->
                     (-1 <= Sc (Z.of_nat n) < 0)%R).
  { induction n as [|n IH]; intros Hn.
    - simpl. rewrite HS0, Hb0, Hck by lia. apply frac_bound; lra.
    - specialize (IH ltac:(lia)).
      rewrite HS by lia.
      replace (Z.of_nat (S n) - 1) with (Z.of_nat n) by lia.
      rewrite Hbk, Hak, Hck by lia.
      apply frac_bound; nra. }
  assert (HboundZ : forall k, 0 <= k <= nz - 2 -> (-1 <= Sc k < 0)%R).
  { intros k Hk. replace k with (Z.of_nat (Z.to_nat k)) by lia. apply Hbound. lia. }
  intros k Hk. unfold Tridiag.pivot.
  destruct (Z.eqb_spec k 0) as [-> | Hk0].
  - rewrite Hb0. lra.
  - pose proof (HboundZ (k - 1) ltac:(lia)) as Hs.
    destruct (Z.eq_dec k (nz - 1)) as [-> | Hl].
    + rewrite Hlast, Hak by lia.
      destruct Hg as [[-> Hneg] | ->]; nra.
    + rewrite Hbk, Hak by lia. nra.
Qed.

Lemma cos_lt_1 (x : R) : (0 < x < 2 * PI)%R -> (cos x < 1)%R.
Proof.
  intros Hx.
  replace x with (2 * (x / 2))%R by field.
  rewrite cos_2a_sin.
  assert (Hs : (0 < sin (x / 2))%R) by (apply sin_gt_0; lra).
  nra.
Qed.

Lemma hybrid_term_nonpositive (dx a : R) :
  dx <> 0%R -> (2 * (cos a - 1) / (dx * dx) <= 0)%R.
Proof.
  intros Hdx.
  assert (Hsq : (0 < dx * dx)%R) by nra.
  assert (Hinv : (0 < / (dx * dx))%R) by now apply Rinv_0_lt_compat.
  pose proof (COS_bound a) as [_ Hc].
  unfold Rdiv. nra.
Qed.

Lemma hybrid_term_negative (dx a : R) :
  dx <> 0%R -> (cos a < 1)%R -> (2 * (cos a - 1) / (dx * dx) < 0)%R.
Proof.
  intros Hdx Hc.
  assert (Hsq : (0 < dx * dx)%R) by nra.
  assert (Hinv : (0 < / (dx * dx))%R) by now apply Rinv_0_lt_compat.
  unfold Rdiv. nra.
Qed.

(** The angle [2 pi m / (n dx) * dx] of the mode [m] out of [n]. *)
Lemma mode_angle (m n : Z) (dx : R) :
  dx <> 0%R -> 0 < m < n ->
  (0 < 2 * PI / (IZR n * dx) * IZR m * dx < 2 * PI)%R.
Proof.
  intros Hdx Hm.
  assert (Hn : (0 < IZR n)%R) by (apply IZR_lt; lia).
  assert (Hm0 : (0 < IZR m)%R) by (apply IZR_lt; lia).
  assert (Hmn : (IZR m < IZR n)%R) by (apply IZR_lt; lia).
  replace (2 * PI / (IZR n * dx) * IZR m * dx)%R
    with (2 * PI * (IZR m / IZR n))%R by (field; split; lra).
  assert (Hinv : (0 < / IZR n)%R) by now apply Rinv_0_lt_compat.
  assert (Hone : (IZR n * / IZR n = 1)%R) by (apply Rinv_r; lra).
  pose proof PI_RGT_0 as Hpi.
  assert (Ht : (0 < IZR m / IZR n < 1)%R).
  { unfold Rdiv. split; nra. }
  split; nra.
Qed.

Lemma Hybrid_k2_nonpositive p i j :
  CellSize (PoissonHybrid.m_geom p) 0 <> 0%R ->
  CellSize (PoissonHybrid.m_geom p) 1 <> 0%R ->
  (Hybrid_k2 p i j <= 0)%R.
Proof.
  intros Hdx Hdy. unfold Hybrid_k2. cbv zeta.
  match goal with
  | |- (2 * (cos ?a - 1) / _ + 2 * (cos ?b - 1) / _ <= 0)%R =>
    pose proof (hybrid_term_nonpositive _ a Hdx);
    pose proof (hybrid_term_nonpositive _ b Hdy)
  end.
  lra.
Qed.

Lemma Hybrid_k2_negative p i j :
  let geom := PoissonHybrid.m_geom p in
  CellSize geom 0 <> 0%R ->
  CellSize geom 1 <> 0%R ->
  ProbLength geom 0 = (IZR (length (Domain geom) 0) * CellSize geom 0)%R ->
  ProbLength geom 1 = (IZR (length (Domain geom) 1) * CellSize geom 1)%R ->
  0 <= i < length (Domain geom) 0 ->
  0 <= j < length (Domain geom) 1 ->
  i <> 0 \/ j <> 0 ->
  (Hybrid_k2 p i j < 0)%R.
Proof.
  intros geom Hdx Hdy HLx HLy Hi Hj Hij. unfold Hybrid_k2. cbv zeta.
  fold geom. rewrite HLx, HLy.
  match goal with
  | |- (2 * (cos ?a - 1) / _ + 2 * (cos ?b - 1) / _ < 0)%R =>
    pose proof (hybrid_term_nonpositive _ a Hdx) as Ha;
    pose proof (hybrid_term_nonpositive _ b Hdy) as Hb;
    pose proof (hybrid_term_negative _ a Hdx) as Ha';
    pose proof (hybrid_term_negative _ b Hdy) as Hb'
  end.
  destruct (Z.eq_dec i 0) as [-> | Hi0].
  - assert (Hj0 : j <> 0) by (destruct Hij; congruence).
    assert (Hq : Z.quot (length (Domain geom) 1) 2 <= length (Domain geom) 1).
    { apply Z.quot_le_upper_bound; lia. }
    cut (2 * (cos ((if j <? Z.quot (length (Domain geom) 1) 2
                    then 2 * PI / (IZR (length (Domain geom) 1) * CellSize geom 1) * IZR j
                    else 2 * PI / (IZR (length (Domain geom) 1) * CellSize geom 1)
                         * IZR (length (Domain geom) 1 - j)) * CellSize geom 1) - 1)
         / (CellSize geom 1 * CellSize geom 1) < 0)%R; [lra |].
    apply Hb'. apply cos_lt_1.
    destruct (Z.ltb_spec j (Z.quot (length (Domain geom) 1) 2)).
    + apply mode_angle; [exact Hdy | lia].
    + apply mode_angle; [exact Hdy | lia].
  - cut (2 * (cos (2 * PI / (IZR (length (Domain geom) 0) * CellSize geom 0)
                   * IZR i * CellSize geom 0) - 1)
         / (CellSize geom 0 * CellSize geom 0) < 0)%R; [lra |].
    apply Ha'. apply cos_lt_1. apply mode_angle; [exact Hdx | lia].
Qed.

Lemma tridiag_solution_outside (ald bd cud : Z -> R) (nz : Z) (s0 : Z -> R)
      (r : Z -> GpuComplex) (Sc : Z -> R) (D : Z -> GpuComplex) :
  1 <= nz ->
  Tridiag.forward_sweep ald bd cud nz s0 r = (Sc, D) ->
  forall k, k < 0 \/ nz <= k -> Tridiag.back_substitution nz Sc D k = r k.
Proof.
  intros Hnz Hfw k Hk.
  unfold Tridiag.forward_sweep in Hfw.
  replace (nz - 1) with (Z.of_nat (Z.to_nat (nz - 1))) in Hfw by lia.
  apply forward_fold_inv in Hfw; [| lia].
  replace (Z.of_nat (Z.to_nat (nz - 1))) with (nz - 1) in Hfw by lia.
  destruct Hfw as (_ & _ & _ & _ & Hout).
  destruct (back_fold_inv Sc D (nz - 2) (Z.to_nat (nz - 1)) _ eq_refl) as [_ HXout].
  replace (nz - 2 + 1 - Z.of_nat (Z.to_nat (nz - 1))) with 0 in * by lia.
  fold (Tridiag.back_substitution nz Sc D) in HXout.
  rewrite HXout by lia. apply Hout. lia.
Qed.

Lemma tridiag_solve_column_rows (ald bd cud : Z -> R) (nz : Z) (scale : R)
      (s0 : Z -> R) (r : Z -> GpuComplex) :
  1 <= nz ->
  (forall k, 0 <= k < nz ->
     Tridiag.pivot ald bd (fst (Tridiag.forward_sweep ald bd cud nz s0 r)) k <> 0%R) ->
  forall k, 0 <= k < nz ->
    Tridiag.row ald bd cud nz (Tridiag.solve_column ald bd cud nz scale s0 r) k
    = mul_by (r k) scale.
Proof.
  intros Hnz Hpiv k Hk. unfold Tridiag.solve_column.
  destruct (Tridiag.forward_sweep ald bd cud nz s0 r) as [Sc D] eqn:Hfw.
  rewrite tridiag_row_scale by exact Hk.
  rewrite (tridiag_solution_rows ald bd cud nz s0 r Sc D Hnz Hfw Hpiv k Hk).
  reflexivity.
Qed.

Lemma Hybrid_pivots_negative p i j (s0 : Z -> R) (r : Z -> GpuComplex) :
  let geom := PoissonHybrid.m_geom p in
  1 < length (Domain geom) 2 ->
  CellSize geom 2 <> 0%R ->
  (Hybrid_k2 p i j <= 0)%R ->
  (Hybrid_k2 p i j < 0)%R \/ (i = 0 /\ j = 0) ->
  forall k, 0 <= k < length (Domain geom) 2 ->
    (Tridiag.pivot (Hybrid_ald p i j) (Hybrid_bd p i j)
       (fst (Tridiag.forward_sweep (Hybrid_ald p i j) (Hybrid_bd p i j)
                                   (Hybrid_cud p i j) (length (Domain geom) 2) s0 r))
       k < 0)%R.
Proof.
  intros geom Hnz Hdz Hk2 Hgauge.
  destruct (Tridiag.forward_sweep (Hybrid_ald p i j) (Hybrid_bd p i j)
              (Hybrid_cud p i j) (length (Domain geom) 2) s0 r) as [Sc D] eqn:Hfw.
  assert (Hc : (0 < 1 / (CellSize geom 2 * CellSize geom 2))%R).
  { assert (0 < CellSize geom 2 * CellSize geom 2)%R by nra.
    apply Rdiv_lt_0_compat; lra. }
  pose proof (fun k Hk => Hybrid_coefficients p i j k Hnz Hdz Hk) as Hco.
  cbv zeta in Hco. fold geom in Hco.
  cbn [fst].
  apply (neumann_pivots (Hybrid_ald p i j) (Hybrid_bd p i j) (Hybrid_cud p i j)
           (length (Domain geom) 2) s0 r Sc D
           (1 / (CellSize geom 2 * CellSize geom 2))%R (Hybrid_k2 p i j)
           (if (i =? 0) && (j =? 0) then 2 else 1)%R);
    try assumption; try lia.
  - intros k Hk. apply (Hco k Hk).
  - intros k Hk. apply (Hco k Hk).
  - intros k Hk. destruct (Hco k ltac:(lia)) as (_ & _ & ->).
    destruct (Z.eqb_spec k (length (Domain geom) 2 - 1)); [lia |].
    simpl. ring.
  - destruct (Hco (length (Domain geom) 2 - 1) ltac:(lia)) as (-> & -> & ->).
    rewrite Z.eqb_refl.
    destruct (Z.eqb_spec (length (Domain geom) 2 - 1) 0); [lia |].
    simpl. ring.
  - destruct (Z.eqb_spec i 0), (Z.eqb_spec j 0); simpl; auto;
      left; (split; [reflexivity |]); destruct Hgauge as [Hn | [Hi Hj]];
      auto; congruence.
Qed.

(** The same where the extents of the geometry are those of its cells. *)
Lemma Hybrid_pivots_negative_constructed cfg w geom p i j
      (s0 : Z -> R) (r : Z -> GpuComplex) :
  PoissonHybrid.ctor cfg w geom = Ok p ->
  (forall d, (d < 3)%nat -> CellSize geom d <> 0%R) ->
  ProbLength geom 0 = (IZR (length (Domain geom) 0) * CellSize geom 0)%R ->
  ProbLength geom 1 = (IZR (length (Domain geom) 1) * CellSize geom 1)%R ->
  0 <= i < length (Domain geom) 0 ->
  0 <= j < length (Domain geom) 1 ->
  forall k, 0 <= k < length (Domain geom) 2 ->
    (Tridiag.pivot (Hybrid_ald p i j) (Hybrid_bd p i j)
       (fst (Tridiag.forward_sweep (Hybrid_ald p i j) (Hybrid_bd p i j)
                                   (Hybrid_cud p i j) (length (Domain geom) 2) s0 r))
       k < 0)%R.
Proof.
  intros H Hcs HLx HLy Hi Hj.
  destruct (PoissonHybrid_ctor_lengths _ _ _ _ H) as (Hg & _ & _ & Hnz).
  pose proof (Hybrid_pivots_negative p i j s0 r) as Hp.
  cbv zeta in Hp. rewrite Hg in Hp.
  apply Hp; auto.
  - apply Hybrid_k2_nonpositive; rewrite Hg; apply Hcs; lia.
  - destruct (Z.eq_dec i 0) as [Hi0 | Hi0], (Z.eq_dec j 0) as [Hj0 | Hj0]; auto;
      left; apply Hybrid_k2_negative; rewrite ?Hg; auto.
Qed.

(** What the elimination leaves does not depend on the scratch row it
    starts from, but for the last entry of the scratch row, which the back
    substitution does not read. *)
Lemma forward_sweep_workspace (ald bd cud : Z -> R) (nz : Z) (s0 s0' : Z -> R)
      (r : Z -> GpuComplex) Sc D Sc' D' :
  1 <= nz ->
  Tridiag.forward_sweep ald bd cud nz s0 r = (Sc, D) ->
  Tridiag.forward_sweep ald bd cud nz s0' r = (Sc', D') ->
  (forall k, 0 <= k <= nz - 2 -> Sc k = Sc' k) /\ (forall k, D k = D' k).
Proof.
  intros Hnz Hfw Hfw'.
  unfold Tridiag.forward_sweep in Hfw, Hfw'.
  replace (nz - 1) with (Z.of_nat (Z.to_nat (nz - 1))) in Hfw, Hfw' by lia.
  apply forward_fold_inv in Hfw; [| lia].
  apply forward_fold_inv in Hfw'; [| lia].
  replace (Z.of_nat (Z.to_nat (nz - 1))) with (nz - 1) in Hfw, Hfw' by lia.
  destruct Hfw as (HS0 & HD0 & HS & HD & Hout).
  destruct Hfw' as (HS0' & HD0' & HS' & HD' & Hout').
  assert (Hn : forall n : nat, Z.of_nat n <= nz - 1 ->
                 (Z.of_nat n <= nz - 2 -> Sc (Z.of_nat n) = Sc' (Z.of_nat n))
                 /\ D (Z.of_nat n) = D' (Z.of_nat n)).
  { induction n as [|n IH]; intros Hle.
    - change (Z.of_nat 0) with 0. split; [intros _|]; congruence.
    - destruct (IH ltac:(lia)) as [IHS IHD].
      specialize (IHS ltac:(lia)).
      assert (Hpred : Z.of_nat (S n) - 1 = Z.of_nat n) by lia.
      split.
      + intros Hle2. rewrite HS, HS' by lia. rewrite Hpred, IHS. reflexivity.
      + rewrite HD, HD' by lia. rewrite Hpred, IHS, IHD. reflexivity. }
  split.
  - intros k Hk. replace k with (Z.of_nat (Z.to_nat k)) by lia. apply Hn; lia.
  - intros k. destruct (Z.lt_ge_cases k 0) as [Hlt | Hge].
    + rewrite Hout, Hout' by lia. reflexivity.
    + destruct (Z.le_gt_cases k (nz - 1)) as [Hle | Hgt].
      * replace k with (Z.of_nat (Z.to_nat k)) by lia. apply Hn; lia.
      * rewrite Hout, Hout' by lia. reflexivity.
Qed.

Lemma back_substitution_ext (nz : Z) (Sc Sc' : Z -> R) (D D' : Z -> GpuComplex) :
  1 <= nz ->
  (forall k, 0 <= k <= nz - 2 -> Sc k = Sc' k) ->
  (forall k, D k = D' k) ->
  forall k, Tridiag.back_substitution nz Sc D k
            = Tridiag.back_substitution nz Sc' D' k.
Proof.
  intros Hnz HSc HD.
  destruct (back_fold_inv Sc D (nz - 2) (Z.to_nat (nz - 1)) _ eq_refl) as [HX HXout].
  destruct (back_fold_inv Sc' D' (nz - 2) (Z.to_nat (nz - 1)) _ eq_refl) as [HX' HXout'].
  replace (nz - 2 + 1 - Z.of_nat (Z.to_nat (nz - 1))) with 0 in * by lia.
  fold (Tridiag.back_substitution nz Sc D) in HX, HXout.
  fold (Tridiag.back_substitution nz Sc' D') in HX', HXout'.
  set (X := Tridiag.back_substitution nz Sc D) in *.
  set (X' := Tridiag.back_substitution nz Sc' D') in *.
  clearbody X X'.
  assert (Hm : forall m : nat, 0 <= nz - 1 - Z.of_nat m ->
                 X (nz - 1 - Z.of_nat m) = X' (nz - 1 - Z.of_nat m)).
  { induction m as [|m IH]; intros Hge.
    - rewrite HXout, HXout' by lia. apply HD.
    - specialize (IH ltac:(lia)).
      rewrite HX, HX' by lia.
      replace (nz - 1 - Z.of_nat (S m) + 1) with (nz - 1 - Z.of_nat m) by lia.
      rewrite IH, HD, HSc by lia. reflexivity. }
  intros k. destruct (Z.lt_ge_cases k 0) as [Hlt | Hge].
  - rewrite HXout, HXout' by lia. apply HD.
  - destruct (Z.le_gt_cases k (nz - 1)) as [Hle | Hgt].
    + replace k with (nz - 1 - Z.of_nat (Z.to_nat (nz - 1 - k))) by lia.
      apply Hm. lia.
    + rewrite HXout, HXout' by lia. apply HD.
Qed.

Lemma tridiag_solve_column_workspace (ald bd cud : Z -> R) (nz : Z) (scale : R)
      (s0 s0' : Z -> R) (r : Z -> GpuComplex) :
  1 <= nz ->
  forall k, Tridiag.solve_column ald bd cud nz scale s0 r k
            = Tridiag.solve_column ald bd cud nz scale s0' r k.
Proof.
  intros Hnz k. unfold Tridiag.solve_column.
  destruct (Tridiag.forward_sweep ald bd cud nz s0 r) as [Sc D] eqn:Hfw.
  destruct (Tridiag.forward_sweep ald bd cud nz s0' r) as [Sc' D'] eqn:Hfw'.
  destruct (forward_sweep_workspace _ _ _ _ _ _ _ _ _ _ _ Hnz Hfw Hfw') as [HS HD].
  rewrite !scale_column_at.
  rewrite (back_substitution_ext nz Sc Sc' D D' Hnz HS HD k). reflexivity.
Qed.

(** ** The columns whose symbol is zero *)




(** X14.  In a constructed hybrid solver whose cell size along z is not
    zero, the rows [0 .. nz-1] of every column [(i,j)] are those of the
    second difference: the sub-diagonal is [1/dz^2] below the first row,
    the super-diagonal is [1/dz^2] above the last row, the diagonal entry
    is [k2 - ald - cud], doubled in the last row of the column [(0,0)],
    and the matrix is symmetric. *)
Theorem PoissonHybrid_tridiagonal_coefficients cfg w geom p i j k :
  PoissonHybrid.ctor cfg w geom = Ok p ->
  CellSize geom 2 <> 0%R ->
  0 <= k < length (Domain geom) 2 ->
  Hybrid_ald p i j k
  = (if k =? 0 then 0 else 1 / (CellSize geom 2 * CellSize geom 2))%R
  /\ Hybrid_cud p i j k
     = (if k =? length (Domain geom) 2 - 1 then 0
        else 1 / (CellSize geom 2 * CellSize geom 2))%R
  /\ Hybrid_bd p i j k
     = ((Hybrid_k2 p i j - Hybrid_ald p i j k - Hybrid_cud p i j k)
        * (if (k =? length (Domain geom) 2 - 1) && (i =? 0) && (j =? 0)
           then 2 else 1))%R
  /\ (k < length (Domain geom) 2 - 1 ->
      Hybrid_ald p i j (k + 1) = Hybrid_cud p i j k).
Proof.
  intros H Hdz Hk.
  destruct (PoissonHybrid_ctor_lengths _ _ _ _ H) as (Hg & _ & _ & Hnz).
  rewrite <- Hg in Hdz, Hk, Hnz.
  pose proof (Hybrid_coefficients p i j k Hnz Hdz Hk) as Hco.
  cbv zeta in Hco. rewrite Hg in *.
  destruct Hco as (Ha & Hc & Hb).
  refine (conj Ha (conj Hc (conj Hb _))).
  intros Hlt.
  rewrite <- Hg in Hdz, Hnz.
  destruct (Hybrid_coefficients p i j (k + 1) Hnz Hdz
              ltac:(rewrite Hg; lia)) as (Ha' & _).
  rewrite Hg in Ha'. rewrite Ha', Hc.
  destruct (Z.eqb_spec (k + 1) 0), (Z.eqb_spec k (length (Domain geom) 2 - 1));
    try lia. reflexivity.
Qed.

Lemma PoissonHybrid_tridiagonal_coefficients_witness :
  Hybrid_ald unit_hybrid_solver 0 0 3 = (1 / (1 * 1))%R
  /\ Hybrid_cud unit_hybrid_solver 0 0 3 = 0%R.
Proof.
  destruct (PoissonHybrid_tridiagonal_coefficients
              cfg_3d (world 0 2) (unit_geometry 8 8 4) unit_hybrid_solver 0 0 3
              eq_refl R1_neq_R0 ltac:(cbv; split; [discriminate | reflexivity]))
    as (Ha & Hc & _).
  split; [exact Ha | exact Hc].
Defined.



(** X16.  The three loops of the tridiagonal solve (elimination, back
    substitution, scaling) on a column of [nz >= 1] rows: when no divisor of
    the elimination is zero, the column they leave solves the tridiagonal
    system whose right-hand side is the column on entry times [scale],
    whatever the scratch row holds on entry. *)
Theorem Tridiag_solve_column_solves_system (ald bd cud : Z -> R) (nz : Z)
        (scale : R) (s0 : Z -> R) (r : Z -> GpuComplex) k :
  1 <= nz ->
  (forall k', 0 <= k' < nz ->
     Tridiag.pivot ald bd (fst (Tridiag.forward_sweep ald bd cud nz s0 r)) k' <> 0%R) ->
  0 <= k < nz ->
  Tridiag.row ald bd cud nz (Tridiag.solve_column ald bd cud nz scale s0 r) k
  = mul_by (r k) scale.
Proof.
  intros Hnz Hpiv Hk. now apply tridiag_solve_column_rows.
Qed.

Lemma Tridiag_solve_column_solves_system_witness :
  Tridiag.row (Hybrid_ald unit_hybrid_solver 1 2) (Hybrid_bd unit_hybrid_solver 1 2)
              (Hybrid_cud unit_hybrid_solver 1 2) 4
              (Tridiag.solve_column
                 (Hybrid_ald unit_hybrid_solver 1 2) (Hybrid_bd unit_hybrid_solver 1 2)
                 (Hybrid_cud unit_hybrid_solver 1 2) 4 (1 / 64)%R
                 (fun _ => 0%R) (fun _ => (1%R, 0%R)))
              2
  = mul_by (1%R, 0%R) (1 / 64)%R.
Proof.
  apply (Tridiag_solve_column_solves_system
           (Hybrid_ald unit_hybrid_solver 1 2) (Hybrid_bd unit_hybrid_solver 1 2)
           (Hybrid_cud unit_hybrid_solver 1 2) 4 (1 / 64)%R
           (fun _ => 0%R) (fun _ => (1%R, 0%R)) 2).
  - lia.
  - intros k' Hk'. apply Rlt_not_eq.
    apply (Hybrid_pivots_negative_constructed
             cfg_3d (world 0 2) (unit_geometry 8 8 4) unit_hybrid_solver 1 2
             (fun _ => 0%R) (fun _ => (1%R, 0%R)) eq_refl
             (fun d _ => R1_neq_R0)
             (eq_sym (Rmult_1_r _)) (eq_sym (Rmult_1_r _)));
      try (cbv; split; [discriminate | reflexivity]); exact Hk'.
  - lia.
Defined.



(** X18.  The column the tridiagonal solve of a constructed hybrid solver
    leaves does not depend on what the scratch row of the workspace holds
    on entry: every entry of the scratch row the solve reads, it has
    written before. *)
Theorem PoissonHybrid_solve_column_ignores_workspace cfg w geom p i j
        (s0 s0' : Z -> R) (r : Z -> GpuComplex) k :
  PoissonHybrid.ctor cfg w geom = Ok p ->
  Hybrid_solve_column p i j s0 r k = Hybrid_solve_column p i j s0' r k.
Proof.
  intros H.
  destruct (PoissonHybrid_ctor_lengths _ _ _ _ H) as (Hg & _ & _ & Hnz).
  unfold Hybrid_solve_column. rewrite Hg.
  apply tridiag_solve_column_workspace. lia.
Qed.

Lemma PoissonHybrid_solve_column_ignores_workspace_witness :
  Hybrid_solve_column unit_hybrid_solver 1 2 (fun _ => 0%R) (fun _ => (1%R, 0%R)) 2
  = Hybrid_solve_column unit_hybrid_solver 1 2 (fun k => IZR k) (fun _ => (1%R, 0%R)) 2.
Proof.
  apply (PoissonHybrid_solve_column_ignores_workspace
           cfg_3d (world 0 2) (unit_geometry 8 8 4) unit_hybrid_solver 1 2
           (fun _ => 0%R) (fun k => IZR k) (fun _ => (1%R, 0%R)) 2 eq_refl).
Defined.

(** ** The symbol of the hybrid solver *)

Lemma cos_2PI_minus (x : R) : cos (2 * PI - x) = cos x.
Proof. rewrite cos_minus, cos_2PI, sin_2PI. ring. Qed.

Lemma Hybrid_k2_closed_form p i j :
  let geom := PoissonHybrid.m_geom p in
  CellSize geom 0 <> 0%R ->
  CellSize geom 1 <> 0%R ->
  0 < length (Domain geom) 0 ->
  0 < length (Domain geom) 1 ->
  ProbLength geom 0 = (IZR (length (Domain geom) 0) * CellSize geom 0)%R ->
  ProbLength geom 1 = (IZR (length (Domain geom) 1) * CellSize geom 1)%R ->
  Hybrid_k2 p i j
  = (2 * (cos (2 * PI * IZR i / IZR (length (Domain geom) 0)) - 1)
       / (CellSize geom 0 * CellSize geom 0)
     + 2 * (cos (2 * PI * IZR j / IZR (length (Domain geom) 1)) - 1)
       / (CellSize geom 1 * CellSize geom 1))%R.
Proof.
  intros geom Hdx Hdy Hn0 Hn1 HLx HLy.
  assert (H0 : IZR (length (Domain geom) 0) <> 0%R)
    by (apply not_0_IZR; lia).
  assert (H1 : IZR (length (Domain geom) 1) <> 0%R)
    by (apply not_0_IZR; lia).
  unfold Hybrid_k2. cbv zeta. fold geom. rewrite HLx, HLy.
  f_equal; f_equal; f_equal; f_equal.
  - f_equal. field. auto.
  - destruct (j <? Z.quot (length (Domain geom) 1) 2).
    + f_equal. field. auto.
    + rewrite minus_IZR. rewrite <- cos_2PI_minus. f_equal. field. auto.
Qed.

Lemma Hybrid_k2_origin p :
  0 < Z.quot (length (Domain (PoissonHybrid.m_geom p)) 1) 2 ->
  Hybrid_k2 p 0 0 = 0%R.
Proof.
  intros Hny. unfold Hybrid_k2. cbv zeta.
  destruct (Z.ltb_spec 0 (Z.quot (length (Domain (PoissonHybrid.m_geom p)) 1) 2));
    [| lia].
  rewrite !Rmult_0_r, !Rmult_0_l, cos_0. unfold Rdiv.
  rewrite Rminus_diag. ring.
Qed.

(** ** Construction of the periodic Poisson solver *)

Lemma R2X_ctor_asserts_kind cfg domain bc err :
  R2X.ctor_asserts cfg domain bc = Failed err ->
  err = InvalidDomain \/ err = InvalidBoundary.
Proof.
  unfold R2X.ctor_asserts, AMREX_ALWAYS_ASSERT, bind.
  destruct (smallEnd_is_zero cfg domain && (1 <? length domain 0)
            && cellCentered domain); [| intros H; inversion H; auto].
  assert (Hloop :
    for_each (seq 0 (AMREX_SPACEDIM cfg)) (R2X.axis_asserts domain bc) = Failed err ->
    err = InvalidDomain \/ err = InvalidBoundary).
  { intros H. apply for_each_failed in H. destruct H as [i [_ Hb]].
    rewrite R2X_axis_asserts_cases in Hb.
    destruct (1 <? length domain i); [| inversion Hb; auto].
    destruct (exactly_one_periodic (bc_at bc i)); inversion Hb; auto. }
  destruct (AMREX_SPACEDIM cfg =? 3)%nat; auto.
  destruct ((1 <? length domain 1) || (length domain 2 =? 1)); auto.
  intros H; inversion H; auto.
Qed.

Lemma all_periodic_never_mixed d :
  exactly_one_periodic (bc_at all_periodic d) = false.
Proof. destruct d as [|[|d]]; reflexivity. Qed.

Lemma Poisson_ctor_periodic_cases cfg w geom :
  Poisson.ctor_periodic cfg w geom
  = if R2X_domain_ok cfg (Domain geom) then
      if isAllPeriodic cfg geom then
        Ok (Poisson.mk geom all_periodic
                       (R2X.build cfg w (Domain geom) all_periodic))
      else Failed InvalidBoundary
    else Failed InvalidDomain.
Proof.
  unfold Poisson.ctor_periodic, R2X.ctor, bind. cbv zeta.
  fold all_periodic.
  destruct (R2X.ctor_asserts cfg (Domain geom) all_periodic) as [[]|err] eqn:E.
  - apply R2X_ctor_asserts_ok in E. destruct E as [-> _].
    unfold AMREX_ALWAYS_ASSERT. destruct (isAllPeriodic cfg geom); reflexivity.
  - destruct (R2X_domain_ok cfg (Domain geom)) eqn:Hd.
    + exfalso.
      assert (Hok : R2X.ctor_asserts cfg (Domain geom) all_periodic = Ok tt).
      { apply R2X_ctor_asserts_ok. split; [exact Hd |].
        intros d _. apply all_periodic_never_mixed. }
      congruence.
    + destruct (R2X_ctor_asserts_kind _ _ _ _ E) as [-> | ->]; [reflexivity |].
      apply R2X_ctor_asserts_boundary in E. destruct E as [d [_ Hm]].
      rewrite all_periodic_never_mixed in Hm. discriminate.
Qed.

(** ** The spectral domains and the exchange of the spectrum *)

Lemma R2C_build_spectral_domains cfg w D domain info :
  ((2 <=? AMREX_SPACEDIM cfg)%nat = true ->
   R2C.unpermute_y (R2C.m_spectral_domain_y (R2C.build cfg w D domain info))
   = R2C.m_spectral_domain_x (R2C.build cfg w D domain info))
  /\ (AMREX_SPACEDIM cfg = 3%nat ->
      R2C.unpermute_z (R2C.m_spectral_domain_z (R2C.build cfg w D domain info))
      = R2C.m_spectral_domain_x (R2C.build cfg w D domain info)).
Proof.
  unfold R2C.build. destruct_pair_lets.
  cbn [R2C.m_spectral_domain_x R2C.m_spectral_domain_y R2C.m_spectral_domain_z].
  unfold AMREX_D_DECL.
  destruct (AMREX_SPACEDIM cfg) as [|[|[|[|n]]]];
    split; intros H; try discriminate; reflexivity.
Qed.

Lemma apply_dtos_exchange (t_out t_in : DTOS) :
  (t_out, t_in) = (RotateBwd, RotateFwd)
  \/ (t_out, t_in) = (Swap01, Swap01)
  \/ (t_out, t_in) = (Identity, Identity) ->
  forall v, apply_dtos t_in (apply_dtos t_out v) = v
            /\ apply_dtos t_out (apply_dtos t_in v) = v.
Proof.
  intros [H | [H | H]] [[i j] k]; inversion H; subst; split; reflexivity.
Qed.

(** ** The plans of an R2X engine on an accelerator *)

Lemma even_odd_mixed_not_periodic b :
  even_odd_mixed b = true -> is_periodic (fst b) = false.
Proof. destruct b as [[] []]; simpl; intros H; try discriminate; reflexivity. Qed.

Lemma on_owner_shared w fa (mk_plans : Box -> Plan * Plan) :
  (forall box, snd (mk_plans box) = fst (mk_plans box)) ->
  snd (R2X.on_owner w fa mk_plans) = fst (R2X.on_owner w fa mk_plans).
Proof.
  intros H. unfold R2X.on_owner.
  destruct (MyProcSub w <? size fa)%nat; [apply H | reflexivity].
Qed.

Lemma r2r_plans_shared cfg w box b :
  AMREX_USE_GPU cfg = true -> even_odd_mixed b = true ->
  snd (R2X.r2r_plans cfg w box b) = fst (R2X.r2r_plans cfg w box b).
Proof. intros Hg Hm. unfold R2X.r2r_plans. rewrite Hg, Hm. reflexivity. Qed.

Lemma R2X_build_mixed_parity_shared cfg w domain bc :
  AMREX_USE_GPU cfg = true ->
  (even_odd_mixed (bc_at bc 0) = true ->
   R2X.m_fft_bwd_x (R2X.build cfg w domain bc)
   = R2X.m_fft_fwd_x (R2X.build cfg w domain bc))
  /\ (even_odd_mixed (bc_at bc 1) = true ->
      R2X.m_fft_bwd_y (R2X.build cfg w domain bc)
      = R2X.m_fft_fwd_y (R2X.build cfg w domain bc))
  /\ (even_odd_mixed (bc_at bc 2) = true ->
      R2X.m_fft_bwd_z (R2X.build cfg w domain bc)
      = R2X.m_fft_fwd_z (R2X.build cfg w domain bc)).
Proof.
  intros Hg.
  destruct (R2X_build_plans cfg w domain bc) as (Px & Py & Pz).
  assert (Hpair : forall (a b : Plan) (q : Plan * Plan),
            (a, b) = q -> snd q = fst q -> b = a).
  { intros a b q <-. auto. }
  refine (conj _ (conj _ _)); intros Hm;
    pose proof (even_odd_mixed_not_periodic _ Hm) as Hnp.
  - apply (Hpair _ _ _ Px). rewrite Hnp.
    apply on_owner_shared. intros box. now apply r2r_plans_shared.
  - apply (Hpair _ _ _ Py). rewrite Hnp, !andb_false_r.
    destruct (2 <=? AMREX_SPACEDIM cfg)%nat; [| reflexivity].
    destruct (negb (empty (R2X.m_cy (R2X.build cfg w domain bc))));
      apply on_owner_shared; intros box; now apply r2r_plans_shared.
  - apply (Hpair _ _ _ Pz). rewrite Hnp, !andb_false_r.
    destruct (AMREX_SPACEDIM cfg =? 3)%nat; [| reflexivity].
    destruct (negb (empty (R2X.m_cz (R2X.build cfg w domain bc))));
      apply on_owner_shared; intros box; now apply r2r_plans_shared.
Qed.

(** X19.  The symbol of the hybrid solver.  On a constructed solver whose
    cell sizes along x and y are not zero and whose extents are the cell
    size times the number of cells, the value [k2] of the column [(i,j)] is
    [2 (cos(2 pi i / N0) - 1) / dx^2 + 2 (cos(2 pi j / N1) - 1) / dy^2]: the
    two branches of the test [j < ny/2] give the same cosine.  It is zero
    in the column [(0,0)]. *)
Theorem PoissonHybrid_symbol_closed_form cfg w geom p i j :
  PoissonHybrid.ctor cfg w geom = Ok p ->
  CellSize geom 0 <> 0%R ->
  CellSize geom 1 <> 0%R ->
  ProbLength geom 0 = (IZR (length (Domain geom) 0) * CellSize geom 0)%R ->
  ProbLength geom 1 = (IZR (length (Domain geom) 1) * CellSize geom 1)%R ->
  Hybrid_k2 p i j
  = (2 * (cos (2 * PI * IZR i / IZR (length (Domain geom) 0)) - 1)
       / (CellSize geom 0 * CellSize geom 0)
     + 2 * (cos (2 * PI * IZR j / IZR (length (Domain geom) 1)) - 1)
       / (CellSize geom 1 * CellSize geom 1))%R
  /\ Hybrid_k2 p 0 0 = 0%R.
Proof.
  intros H Hdx Hdy HLx HLy.
  destruct (PoissonHybrid_ctor_lengths _ _ _ _ H) as (Hg & Hn0 & Hn1 & _).
  split.
  - pose proof (Hybrid_k2_closed_form p i j) as Hc. cbv zeta in Hc.
    rewrite Hg in Hc. apply Hc; auto; lia.
  - apply Hybrid_k2_origin. rewrite Hg. apply Z.quot_str_pos. lia.
Qed.

Lemma PoissonHybrid_symbol_closed_form_witness :
  Hybrid_k2 unit_hybrid_solver 0 0 = 0%R.
Proof.
  apply (PoissonHybrid_symbol_closed_form
           cfg_3d (world 0 2) (unit_geometry 8 8 4) unit_hybrid_solver 1 7
           eq_refl R1_neq_R0 R1_neq_R0
           (eq_sym (Rmult_1_r _)) (eq_sym (Rmult_1_r _))).
Defined.

(** X20.  [Poisson(geom)] ends in one of three ways, in this order of
    precedence: the domain assertions of the R2X engine fail; the geometry
    is not periodic along every axis of the build and the assertion of the
    constructor body fails; or the solver is the one [Poisson(geom, bc)]
    builds with every boundary periodic.  The boundary assertion of the
    engine itself never fails here. *)
Theorem Poisson_periodic_ctor_outcome cfg w geom :
  Poisson.ctor_periodic cfg w geom
  = (if R2X_domain_ok cfg (Domain geom) then
       if isAllPeriodic cfg geom then
         Ok (Poisson.mk geom all_periodic
                        (R2X.build cfg w (Domain geom) all_periodic))
       else Failed InvalidBoundary
     else Failed InvalidDomain)
  /\ (isAllPeriodic cfg geom = true ->
      Poisson.ctor_periodic cfg w geom = Poisson.ctor cfg w geom all_periodic).
Proof.
  split; [apply Poisson_ctor_periodic_cases |].
  intros Hp. unfold Poisson.ctor_periodic, Poisson.ctor, bind. cbv zeta.
  fold all_periodic.
  destruct (R2X.ctor cfg w (Domain geom) all_periodic); [| reflexivity].
  rewrite Hp. reflexivity.
Qed.

(** X21.  [forward(in, out)] and [backward(in, out)] exchange the spectrum
    with the caller through the array [getSpectralData] names, the first
    as the last step and the second as the first; the index transforms of
    the two copies are inverse to each other, and in a 3-D build the
    transform of the outgoing copy is the axis order [getSpectralData]
    reports. *)
Theorem R2C_spectral_exchange_round_trip cfg (e : R2C.t) :
  exists t_out t_in,
    R2C.forward_out e
    = (R2C.forward e
       >> emit (ParallelCopy user_spectral (fst (R2C.getSpectralData cfg e)) t_out))
    /\ R2C.backward_in e
       = (emit (ParallelCopy (fst (R2C.getSpectralData cfg e)) user_spectral t_in)
          >> R2C.backward_doit e)
    /\ (forall v, apply_dtos t_in (apply_dtos t_out v) = v
                  /\ apply_dtos t_out (apply_dtos t_in v) = v)
    /\ (AMREX_SPACEDIM cfg = 3%nat ->
        forall v d, (d < 3)%nat ->
          iv_at (apply_dtos t_out v)
                (Z.to_nat (iv_at (snd (R2C.getSpectralData cfg e)) d))
          = iv_at v d).
Proof.
  unfold R2C.forward_out, R2C.backward_in, R2C.getSpectralData.
  destruct (negb (empty (R2C.m_cz e)));
    [exists RotateBwd, RotateFwd
    | destruct (negb (empty (R2C.m_cy e)));
      [exists Swap01, Swap01 | exists Identity, Identity]];
    (refine (conj eq_refl (conj eq_refl (conj _ _)));
     [ apply apply_dtos_exchange; auto
     | intros Hsd [[i j] k] d Hd; unfold AMREX_D_DECL; rewrite Hsd;
       destruct d as [|[|[|d]]]; try lia; reflexivity ]).
Qed.

(** X22.  The three spectral domains the R2C constructor computes are one
    box in three axis orders: [m_spectral_domain_y] is
    [m_spectral_domain_x] with x and y swapped and [m_spectral_domain_z]
    is [m_spectral_domain_x] in the order (z,x,y), so that the loop bodies
    of [getSpectralDataLayout] take them back to [m_spectral_domain_x]. *)
Theorem R2C_spectral_domains_are_permutations cfg w D domain info :
  ((2 <=? AMREX_SPACEDIM cfg)%nat = true ->
   R2C.unpermute_y (R2C.m_spectral_domain_y (R2C.build cfg w D domain info))
   = R2C.m_spectral_domain_x (R2C.build cfg w D domain info))
  /\ (AMREX_SPACEDIM cfg = 3%nat ->
      R2C.unpermute_z (R2C.m_spectral_domain_z (R2C.build cfg w D domain info))
      = R2C.m_spectral_domain_x (R2C.build cfg w D domain info)).
Proof. apply R2C_build_spectral_domains. Qed.

(** X23.  On an accelerator build, the R2X constructor makes one plan for
    both directions along every axis whose two ends are even and odd (in
    either order): the backward member is a copy of the forward member. *)
Theorem R2X_gpu_mixed_parity_plans_are_shared cfg w domain bc :
  AMREX_USE_GPU cfg = true ->
  (even_odd_mixed (bc_at bc 0) = true ->
   R2X.m_fft_bwd_x (R2X.build cfg w domain bc)
   = R2X.m_fft_fwd_x (R2X.build cfg w domain bc))
  /\ (even_odd_mixed (bc_at bc 1) = true ->
      R2X.m_fft_bwd_y (R2X.build cfg w domain bc)
      = R2X.m_fft_fwd_y (R2X.build cfg w domain bc))
  /\ (even_odd_mixed (bc_at bc 2) = true ->
      R2X.m_fft_bwd_z (R2X.build cfg w domain bc)
      = R2X.m_fft_fwd_z (R2X.build cfg w domain bc)).
Proof. apply R2X_build_mixed_parity_shared. Qed.

Lemma R2X_gpu_mixed_parity_plans_are_shared_witness :
  R2X.m_fft_bwd_x
    (R2X.build (mkConfig 3 true false) (world 0 2) (domain_of 4 4 4)
               ((even, odd), (periodic, periodic), (odd, even)))
  = R2X.m_fft_fwd_x
      (R2X.build (mkConfig 3 true false) (world 0 2) (domain_of 4 4 4)
                 ((even, odd), (periodic, periodic), (odd, even)))
  /\ R2X.m_fft_bwd_z
       (R2X.build (mkConfig 3 true false) (world 0 2) (domain_of 4 4 4)
                  ((even, odd), (periodic, periodic), (odd, even)))
     = R2X.m_fft_fwd_z
         (R2X.build (mkConfig 3 true false) (world 0 2) (domain_of 4 4 4)
                    ((even, odd), (periodic, periodic), (odd, even))).
Proof.
  destruct (R2X_gpu_mixed_parity_plans_are_shared
              (mkConfig 3 true false) (world 0 2) (domain_of 4 4 4)
              ((even, odd), (periodic, periodic), (odd, even)) eq_refl)
    as (Hx & _ & Hz).
  split; [apply Hx | apply Hz]; reflexivity.
Defined.
